(** * Verification of rattler's clobber registry, JLAP patching and candidate
    construction, over a shallow embedding of the Rust sources:
    - [crates/rattler/src/install/clobber_registry.rs]
    - [crates/rattler_repodata_gateway/src/fetch/jlap/mod.rs]
    - [crates/rattler_solve/src/resolvo/mod.rs] *)

From Stdlib Require Import String List Ascii ZArith NArith Lia.
From stdpp Require Import base gmap list strings.

Import ListNotations.

(** Results of fallible Rust code: [Ok], an [std::io::Error] propagated with
    [?], or a panic ([expect], out-of-bounds indexing). *)
Inductive outcome (A : Type) : Type :=
| Ok (a : A)
| IoErr
| Panic.
Arguments Ok {A} a.
Arguments IoErr {A}.
Arguments Panic {A}.

Definition obind {A B} (m : outcome A) (k : A -> outcome B) : outcome B :=
  match m with
  | Ok a => k a
  | IoErr => IoErr
  | Panic => Panic
  end.

Global Instance outcome_bind : MBind outcome := fun A B k m => obind m k.

(** The value of a successful outcome, [d] otherwise. *)
Definition outcome_default {A} (d : A) (o : outcome A) : A :=
  match o with Ok a => a | _ => d end.

(** A decidable proposition on concrete values, by evaluation. *)
Ltac by_decision := apply (bool_decide_unpack _); vm_compute; exact I.

(** ** Clobber registry ([clobber_registry.rs]) *)
Module Clobber.

(** Package names are compared in their normalized form; prefix-relative
    paths are the path strings. *)
Definition CLOBBER_TEMPLATE : string := "__clobber-from-".

Definition clobber_template (package_name : string) : string :=
  String.append CLOBBER_TEMPLATE package_name.

(** [ClobberRegistry::clobber_name]: the file name gets the template and the
    package name appended, in the same directory, so the whole path string
    does. *)
Definition clobber_name (path package_name : string) : string :=
  String.append path (clobber_template package_name).

(** The registry; the [drop_bomb] is a runtime marker and is not modelled. *)
Record ClobberRegistry := mkRegistry {
  paths_registry : gmap string nat;
  clobbers : gmap string (list nat);
  package_names : list string
}.

Definition registry_default : ClobberRegistry := mkRegistry ∅ ∅ [].

(** [self.package_names.iter().position(|n| n == name)] *)
Fixpoint position (name : string) (l : list string) : option nat :=
  match l with
  | [] => None
  | n :: l' => if String.eqb n name then Some 0 else option_map S (position name l')
  end.

(** One iteration of the loop of [register_paths]: the registry and the map of
    clobber renames it returns. *)
Definition register_path (name_idx : nat)
    (acc : ClobberRegistry * gmap string string) (path : string)
    : ClobberRegistry * gmap string string :=
  let '(reg, clobber_paths) := acc in
  match paths_registry reg !! path with
  | Some e =>
      if Nat.eqb e name_idx then acc
      else
        let new_path := clobber_name path (nth name_idx (package_names reg) ""%string) in
        let entry := match clobbers reg !! path with Some v => v | None => [e] end in
        (mkRegistry (paths_registry reg)
                    (<[path := entry ++ [name_idx]]> (clobbers reg))
                    (package_names reg),
         <[path := new_path]> clobber_paths)
  | None =>
      (mkRegistry (<[path := name_idx]> (paths_registry reg)) (clobbers reg)
                  (package_names reg),
       clobber_paths)
  end.

(** The index of [name], appended to [package_names] when it is new. *)
Definition name_index (reg : ClobberRegistry) (name : string) : ClobberRegistry * nat :=
  match position name (package_names reg) with
  | Some idx => (reg, idx)
  | None =>
      (mkRegistry (paths_registry reg) (clobbers reg) (package_names reg ++ [name]),
       length (package_names reg))
  end.

(** [ClobberRegistry::register_paths]; [paths] are the [relative_path]s of the
    package's [paths.json] entries, in order. *)
Definition register_paths (reg : ClobberRegistry) (name : string) (paths : list string)
    : ClobberRegistry * gmap string string :=
  let '(reg1, name_idx) := name_index reg name in
  foldl (register_path name_idx) (reg1, ∅) paths.

(** Installed-package metadata ([PrefixRecord]): only the fields unclobber
    reads or rewrites. *)
Record PathsEntry := mkEntry {
  relative_path : string;
  original_path : option string
}.

Record PrefixRecord := mkRecord {
  pr_name : string;
  files : list string;
  paths_data : list PathsEntry
}.

(** [rename_path_in_prefix_record] *)
Definition rename_path_in_prefix_record (record : PrefixRecord) (old_path new_path : string)
    (new_path_is_clobber : bool) : PrefixRecord :=
  mkRecord (pr_name record)
    (map (fun p => if String.eqb p old_path then new_path else p) (files record))
    (map (fun e => if String.eqb (relative_path e) old_path
                   then mkEntry new_path (if new_path_is_clobber then Some old_path else None)
                   else e) (paths_data record)).

(** The contents of a file of the prefix: the package that shipped it and the
    path it has inside that package. *)
Abbreviation Content := (string * string)%type.

(** The prefix directory: the package files by prefix-relative path, and the
    [conda-meta] records by package ([write_to_path] of
    [conda_meta.join(record.file_name())]). *)
Record Prefix := mkPrefix {
  prefix_files : gmap string Content;
  conda_meta : gmap string PrefixRecord
}.

(** [fs::rename(from, to)]: fails when [from] is absent, replaces [to]. *)
Definition fs_rename (fs : gmap string Content) (from to : string)
    : outcome (gmap string Content) :=
  match fs !! from with
  | Some c => Ok (<[to := c]> (delete from fs))
  | None => IoErr
  end.

(** [sorted_names.iter().cloned().enumerate()] *)
Fixpoint enumerate_from {A} (i : nat) (l : list A) : list (nat * A) :=
  match l with
  | [] => []
  | x :: l' => (i, x) :: enumerate_from (S i) l'
  end.

Definition enumerate {A} (l : list A) : list (nat * A) := enumerate_from 0 l.

Fixpoint last_opt {A} (l : list A) : option A :=
  match l with
  | [] => None
  | [x] => Some x
  | _ :: l' => last_opt l'
  end.

Fixpoint find_name (n : string) (l : list (nat * string)) : option (nat * string) :=
  match l with
  | [] => None
  | (i, m) :: l' => if String.eqb m n then Some (i, m) else find_name n l'
  end.

Definition contains (l : list string) (n : string) : bool :=
  existsb (String.eqb n) l.

(** The body of the loop of [ClobberRegistry::unclobber], for one entry
    [(path, clobbered_by)] of [self.clobbers]. *)
Definition unclobber_path (names : list string) (sorted_prefix_records : list PrefixRecord)
    (st : Prefix) (path : string) (clobbered_by : list nat) : outcome Prefix :=
  let sorted_names := map pr_name sorted_prefix_records in
  let clobbered_by_names := map (fun idx => nth idx names ""%string) clobbered_by in
  let sorted_clobbered_by :=
    List.filter (fun '(_, n) => contains clobbered_by_names n) (enumerate sorted_names) in
  match last_opt sorted_clobbered_by with
  | None => Panic (* "No winner found" *)
  | Some (winner_idx, winner_name) =>
      match clobbered_by_names with
      | [] => Panic
      | loser_name :: _ =>
          if String.eqb winner_name loser_name then Ok st
          else
            st1 ← (match prefix_files st !! path with
                    | Some _ =>
                        let loser_path := clobber_name path loser_name in
                        fs1 ← fs_rename (prefix_files st) path loser_path;
                        match find_name loser_name sorted_clobbered_by with
                        | None => Panic (* "loser not found" *)
                        | Some (loser_idx, _) =>
                            let r := rename_path_in_prefix_record
                                       (nth loser_idx sorted_prefix_records (mkRecord "" [] []))
                                       path loser_path true in
                            Ok (mkPrefix fs1 (<[pr_name r := r]> (conda_meta st)))
                        end
                    | None => Ok st
                    end);
            let winner_path := clobber_name path winner_name in
            fs2 ← fs_rename (prefix_files st1) winner_path path;
            let r := rename_path_in_prefix_record
                       (nth winner_idx sorted_prefix_records (mkRecord "" [] []))
                       winner_path path false in
            Ok (mkPrefix fs2 (<[pr_name r := r]> (conda_meta st1)))
      end
  end.

(** [ClobberRegistry::unclobber]: the loop over [self.clobbers.iter()]. A
    [HashMap] has no fixed iteration order, so the order is an argument
    [keys]; [unclobber] is run on an enumeration of the keys of [clobbers]. *)
Fixpoint unclobber_in_order (reg : ClobberRegistry) (sorted_prefix_records : list PrefixRecord)
    (keys : list string) (st : Prefix) : outcome Prefix :=
  match keys with
  | [] => Ok st
  | path :: keys' =>
      st' ← unclobber_path (package_names reg) sorted_prefix_records st path
                (default [] (clobbers reg !! path));
      unclobber_in_order reg sorted_prefix_records keys' st'
  end.

Definition clobber_keys (reg : ClobberRegistry) : list string :=
  map fst (map_to_list (clobbers reg)).

(** The inner loop of [ClobberRegistry::from_prefix_records] over the
    [paths_data] of one record. *)
Fixpoint register_record_paths (idx : nat) (package_name : string) (ps : list PathsEntry)
    (acc : gmap string nat * list (string * string)) : gmap string nat * list (string * string) :=
  match ps with
  | [] => acc
  | p :: ps' =>
      let '(paths_reg, temp_clobbers) := acc in
      let acc' := match original_path p with
                  | Some original_path => (paths_reg, temp_clobbers ++ [(original_path, package_name)])
                  | None => (<[relative_path p := idx]> paths_reg, temp_clobbers)
                  end in
      register_record_paths idx package_name ps' acc'
  end.

(** The outer loop of [from_prefix_records] over the prefix records. *)
Fixpoint collect_records (prefix_records : list PrefixRecord) (names : list string)
    (paths_reg : gmap string nat) (temp_clobbers : list (string * string))
    : list string * gmap string nat * list (string * string) :=
  match prefix_records with
  | [] => (names, paths_reg, temp_clobbers)
  | r :: rs =>
      let names' := names ++ [pr_name r] in
      let '(paths_reg', temp') :=
        register_record_paths (length names' - 1) (pr_name r) (paths_data r) (paths_reg, temp_clobbers) in
      collect_records rs names' paths_reg' temp'
  end.

(** The loop of [from_prefix_records] over [temp_clobbers]. *)
Fixpoint add_temp_clobbers (names : list string) (paths_reg : gmap string nat)
    (temp_clobbers : list (string * string)) (cl : gmap string (list nat))
    : outcome (gmap string (list nat)) :=
  match temp_clobbers with
  | [] => Ok cl
  | (path, originating_package) :: temp' =>
      match position originating_package names with
      | None => Panic (* "package not found even though it was just added" *)
      | Some idx =>
          let entry := match cl !! path with
                       | Some v => v
                       | None => match paths_reg !! path with Some other_idx => [other_idx] | None => [] end
                       end in
          add_temp_clobbers names paths_reg temp' (<[path := entry ++ [idx]]> cl)
      end
  end.

(** [ClobberRegistry::from_prefix_records] *)
Definition from_prefix_records (prefix_records : list PrefixRecord) : outcome ClobberRegistry :=
  let '(names, paths_reg, temp_clobbers) := collect_records prefix_records [] ∅ [] in
  cl ← add_temp_clobbers names paths_reg temp_clobbers ∅;
  Ok (mkRegistry paths_reg cl names).

(** Reading aids for the statements about [from_prefix_records]: the index,
    among [rs], of the last record that ships [p] at its own path (no
    [original_path]), and the [(original_path, name)] pairs of the clobbered
    copies, record after record. *)
Definition owns_entry (p : string) (e : PathsEntry) : bool :=
  String.eqb (relative_path e) p && match original_path e with None => true | Some _ => false end.

Fixpoint last_owner (rs : list PrefixRecord) (p : string) : option nat :=
  match rs with
  | [] => None
  | r :: rs' =>
      match last_owner rs' p with
      | Some i => Some (S i)
      | None => if existsb (owns_entry p) (paths_data r) then Some 0 else None
      end
  end.

Definition record_clobbers (r : PrefixRecord) : list (string * string) :=
  flat_map (fun e => match original_path e with Some o => [(o, pr_name r)] | None => [] end) (paths_data r).

Definition clobber_entries (rs : list PrefixRecord) : list (string * string) :=
  flat_map record_clobbers rs.

(** Modelled from the spec: the linker ([install/link.rs], not among the
    sources) places each file of a package at its prefix-relative path, or at
    the rename [register_paths] returned for it ("return a rename
    [path -> <path>__clobber-from-<name>] the linker must apply"). The spec does
    not say what happens when the destination already exists; [on_existing]
    covers the three possibilities: replace it, keep it, fail. *)
Inductive on_existing := Replace | KeepExisting | Refuse.

Definition link_file (pol : on_existing) (fs : gmap string Content) (dest : string)
    (c : Content) : outcome (gmap string Content) :=
  match fs !! dest with
  | None => Ok (<[dest := c]> fs)
  | Some _ =>
      match pol with
      | Replace => Ok (<[dest := c]> fs)
      | KeepExisting => Ok fs
      | Refuse => IoErr
      end
  end.

(** Where the linker puts the file [p] of a package. *)
Definition link_dest (clobber_paths : gmap string string) (p : string) : string :=
  default p (clobber_paths !! p).

Fixpoint link_package (pol : on_existing) (name : string) (clobber_paths : gmap string string)
    (paths : list string) (fs : gmap string Content) : outcome (gmap string Content) :=
  match paths with
  | [] => Ok fs
  | p :: ps =>
      fs' ← link_file pol fs (link_dest clobber_paths p) (name, p);
      link_package pol name clobber_paths ps fs'
  end.

(** A package of an Install operation: its normalized name and the
    [relative_path]s of its [paths.json]. *)
Record Package := mkPackage {
  pkg_name : string;
  pkg_paths : list string
}.

(** Modelled from the spec: executing an Install operation registers the
    package's paths and then links it. *)
Definition install_package (pol : on_existing) (st : ClobberRegistry * gmap string Content)
    (pkg : Package) : outcome (ClobberRegistry * gmap string Content) :=
  let '(reg, fs) := st in
  let '(reg', clobber_paths) := register_paths reg (pkg_name pkg) (pkg_paths pkg) in
  fs' ← link_package pol (pkg_name pkg) clobber_paths (pkg_paths pkg) fs;
  Ok (reg', fs').

Fixpoint install_all (pol : on_existing) (st : ClobberRegistry * gmap string Content)
    (ops : list Package) : outcome (ClobberRegistry * gmap string Content) :=
  match ops with
  | [] => Ok st
  | pkg :: ops' => st' ← install_package pol st pkg; install_all pol st' ops'
  end.

(** A transaction of Install operations [ops] into an empty prefix, followed by
    the post-process with [sorted_prefix_records], ends with the package files
    [fs], for some iteration order of the [clobbers] map. *)
Definition executes (pol : on_existing) (ops : list Package)
    (sorted_prefix_records : list PrefixRecord) (fs : gmap string Content) : Prop :=
  exists reg fs0 keys meta,
    install_all pol (registry_default, ∅) ops = Ok (reg, fs0) /\
    keys ≡ₚ clobber_keys reg /\
    unclobber_in_order reg sorted_prefix_records keys (mkPrefix fs0 ∅) = Ok (mkPrefix fs meta).

(** Vocabulary of the statements below (not code of the crate): the indices of
    the packages of an install sequence [L] that ship [p], in order. *)
Definition holds (p : string) (pkg : Package) : bool := contains (pkg_paths pkg) p.

Fixpoint hold_idx_from (i : nat) (L : list Package) (p : string) : list nat :=
  match L with
  | [] => []
  | pkg :: L' => (if holds p pkg then [i] else []) ++ hold_idx_from (S i) L' p
  end.

Definition hold_idx (L : list Package) (p : string) : list nat := hold_idx_from 0 L p.

(** Their names. *)
Definition hold (L : list Package) (p : string) : list string :=
  map pkg_name (List.filter (holds p) L).

(** The package that [unclobber] puts at [p]: the last holder of [p] in the
    order of [sorted_names]. *)
Definition sorted_winner (sorted_names : list string) (holders : list string) : option string :=
  last_opt (List.filter (contains holders) sorted_names).

(** The paths of the packages of [U]. *)
Definition all_paths (U : list Package) : list string := flat_map pkg_paths U.

(** [owner] with [p] given to [v]. *)
Definition fupd (owner : string -> option string) (p : string) (v : option string)
    : string -> option string :=
  fun q => if String.eqb q p then v else owner q.

(** The registry after the Install operations [L], in that order. *)
Definition registry_of (L : list Package) (reg : ClobberRegistry) : Prop :=
  package_names reg = map pkg_name L /\
  (forall p, paths_registry reg !! p = head (hold_idx L p)) /\
  (forall p, clobbers reg !! p =
     if Nat.leb 2 (length (hold_idx L p)) then Some (hold_idx L p) else None).

(** The package files of the prefix when [owner p] is the package whose file is
    at [p] and every other package [n] shipping [p] has its file at
    [p__clobber-from-n]; no other file is present. *)
Definition files_placed (L : list Package) (owner : string -> option string)
    (fs : gmap string Content) : Prop :=
  (forall p n, owner p = Some n -> fs !! p = Some (n, p)) /\
  (forall p n, n ∈ hold L p -> owner p <> Some n -> fs !! clobber_name p n = Some (n, p)) /\
  (forall q c, fs !! q = Some c ->
     hold L q <> [] \/
     exists p n, q = clobber_name p n /\ n ∈ hold L p /\ owner p <> Some n).

(** [owner] picks one of the packages that ship [p], if any. *)
Definition owner_wf (L : list Package) (owner : string -> option string) : Prop :=
  forall p, (hold L p = [] -> owner p = None) /\
            (hold L p <> [] -> exists n, owner p = Some n /\ n ∈ hold L p).

(** The owner of [p] after the post-process. *)
Definition final_owner (sorted_names : list string) (L : list Package) (p : string) : option string :=
  if Nat.leb 2 (length (hold L p)) then sorted_winner sorted_names (hold L p)
  else head (hold L p).

(** The entries of the registry at [p] after one more package with index
    [idx] registers [p]. *)
Definition owner_after (reg : ClobberRegistry) (idx : nat) (p : string) : option nat :=
  match paths_registry reg !! p with Some e => Some e | None => Some idx end.

Definition clobbers_after (reg : ClobberRegistry) (idx : nat) (p : string) : option (list nat) :=
  match paths_registry reg !! p with
  | Some e =>
      if Nat.eqb e idx then clobbers reg !! p
      else Some (default [e] (clobbers reg !! p) ++ [idx])
  | None => clobbers reg !! p
  end.

Definition rename_after (reg : ClobberRegistry) (idx : nat) (ren : gmap string string)
    (p : string) : option string :=
  match paths_registry reg !! p with
  | Some e =>
      if Nat.eqb e idx then ren !! p
      else Some (clobber_name p (nth idx (package_names reg) ""%string))
  | None => ren !! p
  end.

End Clobber.

(** ** Inputs of the clobber examples *)
Module ClobberExamples.
Import Clobber.

(** Two packages that both ship [a]. *)
Definition pkg_x : Package := mkPackage "x" ["a"; "b"].
Definition pkg_y : Package := mkPackage "y" ["a"].

Definition record_x : PrefixRecord := mkRecord "x" ["a"; "b"] [mkEntry "a" None; mkEntry "b" None].
Definition record_y : PrefixRecord := mkRecord "y" ["a"] [mkEntry "a" None].

(** A third package shipping [a__clobber-from-x], the name the clobbered
    copy of [a] from [x] gets. *)
Definition col_x : Package := mkPackage "x" ["a"].
Definition col_y : Package := mkPackage "y" ["a"].
Definition col_z : Package := mkPackage "z" ["a__clobber-from-x"].

Definition col_records : list PrefixRecord :=
  [mkRecord "x" ["a"] [mkEntry "a" None];
   mkRecord "y" ["a"] [mkEntry "a" None];
   mkRecord "z" ["a__clobber-from-x"] [mkEntry "a__clobber-from-x" None]].

(** Two packages that both ship [f1] and [f2]. *)
Definition two_a : Package := mkPackage "a" ["f1"; "f2"].
Definition two_b : Package := mkPackage "b" ["f1"; "f2"].

(** Their records as the transaction writes them for the install order
    [a, b]: [b]'s files are at their clobber names. *)
Definition two_records : list PrefixRecord :=
  [mkRecord "a" ["f1"; "f2"] [mkEntry "f1" None; mkEntry "f2" None];
   mkRecord "b" ["f1__clobber-from-b"; "f2__clobber-from-b"]
     [mkEntry "f1__clobber-from-b" (Some "f1"); mkEntry "f2__clobber-from-b" (Some "f2")]].

End ClobberExamples.

(** ** BLAKE2b (RFC 7693), the hash behind [Blake2b256] and [Blake2bMac256]
    of the [blake2] crate; bytes are integers in [0, 256), words 64-bit
    integers with their wrap-around written out. *)
Module Blake2b.
Local Open Scope Z_scope.

Definition mask64 : Z := Z.ones 64.
Definition add64 (a b : Z) : Z := Z.land (a + b) mask64.
Definition rotr64 (x : Z) (n : Z) : Z :=
  Z.lor (Z.shiftr x n) (Z.land (Z.shiftl x (64 - n)) mask64).

Definition IV : list Z :=
  [0x6a09e667f3bcc908; 0xbb67ae8584caa73b; 0x3c6ef372fe94f82b; 0xa54ff53a5f1d36f1;
   0x510e527fade682d1; 0x9b05688c2b3e6c1f; 0x1f83d9abfb41bd6b; 0x5be0cd19137e2179].

Definition SIGMA : list (list nat) :=
  [[0;1;2;3;4;5;6;7;8;9;10;11;12;13;14;15]%nat;
   [14;10;4;8;9;15;13;6;1;12;0;2;11;7;5;3]%nat;
   [11;8;12;0;5;2;15;13;10;14;3;6;7;1;9;4]%nat;
   [7;9;3;1;13;12;11;14;2;6;5;10;4;0;15;8]%nat;
   [9;0;5;7;2;4;10;15;14;1;11;12;6;8;3;13]%nat;
   [2;12;6;10;0;11;8;3;4;13;7;5;15;14;1;9]%nat;
   [12;5;1;15;14;13;4;10;0;7;6;3;9;2;8;11]%nat;
   [13;11;7;14;12;1;3;9;5;0;15;4;8;6;2;10]%nat;
   [6;15;14;9;11;3;0;8;12;2;13;7;1;4;10;5]%nat;
   [10;2;8;4;7;6;1;5;15;11;9;14;3;12;13;0]%nat].

Definition get (v : list Z) (i : nat) : Z := nth i v 0.

Fixpoint upd (v : list Z) (i : nat) (x : Z) : list Z :=
  match v, i with
  | [], _ => []
  | _ :: v', O => x :: v'
  | y :: v', S i' => y :: upd v' i' x
  end.

(** The mixing function G (section 3.1). *)
Definition G (v : list Z) (a b c d : nat) (x y : Z) : list Z :=
  let va := add64 (add64 (get v a) (get v b)) x in
  let vd := rotr64 (Z.lxor (get v d) va) 32 in
  let vc := add64 (get v c) vd in
  let vb := rotr64 (Z.lxor (get v b) vc) 24 in
  let va := add64 (add64 va vb) y in
  let vd := rotr64 (Z.lxor vd va) 16 in
  let vc := add64 vc vd in
  let vb := rotr64 (Z.lxor vb vc) 63 in
  upd (upd (upd (upd v a va) b vb) c vc) d vd.

Definition round (v : list Z) (m : list Z) (s : list nat) : list Z :=
  let w k := get m (nth k s O) in
  let v := G v 0 4 8 12 (w 0%nat) (w 1%nat) in
  let v := G v 1 5 9 13 (w 2%nat) (w 3%nat) in
  let v := G v 2 6 10 14 (w 4%nat) (w 5%nat) in
  let v := G v 3 7 11 15 (w 6%nat) (w 7%nat) in
  let v := G v 0 5 10 15 (w 8%nat) (w 9%nat) in
  let v := G v 1 6 11 12 (w 10%nat) (w 11%nat) in
  let v := G v 2 7 8 13 (w 12%nat) (w 13%nat) in
  G v 3 4 9 14 (w 14%nat) (w 15%nat).

(** The compression function F (section 3.2), [t] the byte counter. *)
Definition F (h : list Z) (m : list Z) (t : Z) (last : bool) : list Z :=
  let v := h ++ IV in
  let v := upd v 12 (Z.lxor (get v 12) (Z.land t mask64)) in
  let v := upd v 13 (Z.lxor (get v 13) (Z.shiftr t 64)) in
  let v := if last then upd v 14 (Z.lxor (get v 14) mask64) else v in
  let v := fold_left (fun v i => round v m (nth (i mod 10) SIGMA [])) (seq 0 12) v in
  map (fun i => Z.lxor (Z.lxor (get h i) (get v i)) (get v (i + 8))) (seq 0 8).

(** Little-endian 64-bit words of a block. *)
Fixpoint le_word (bs : list Z) : Z :=
  match bs with [] => 0 | b :: bs' => b + 256 * le_word bs' end.

Fixpoint words (n : nat) (bs : list Z) : list Z :=
  match n with
  | O => []
  | S n' => le_word (firstn 8 bs) :: words n' (skipn 8 bs)
  end.

Definition pad_block (bs : list Z) : list Z := bs ++ repeat 0 (128 - length bs).

(** The 128-byte blocks of the input, the last one padded with zeros. *)
Fixpoint blocks (fuel : nat) (bs : list Z) : list (list Z) :=
  match fuel with
  | O => []
  | S fuel' =>
      if Nat.leb (length bs) 128 then [pad_block bs]
      else firstn 128 bs :: blocks fuel' (skipn 128 bs)
  end.

Fixpoint compress_all (h : list Z) (bl : list (list Z)) (i : nat) (total : Z) : list Z :=
  match bl with
  | [] => h
  | [b] => F h (words 16 b) total true
  | b :: bl' => compress_all (F h (words 16 b) (Z.of_nat (128 * S i)) false) bl' (S i) total
  end.

Definition le_bytes (w : Z) : list Z :=
  map (fun i => Z.land (Z.shiftr w (8 * Z.of_nat i)) 255) (seq 0 8).

(** BLAKE2b with an [nn]-byte digest and a key of at most 64 bytes (none
    when [key] is empty): the key, padded to a block, is the first block. *)
Definition blake2b (nn : nat) (key : list Z) (data : list Z) : list Z :=
  let kk := length key in
  let h := upd IV 0 (Z.lxor (get IV 0)
                       (Z.lxor 0x01010000 (Z.lxor (Z.shiftl (Z.of_nat kk) 8) (Z.of_nat nn)))) in
  let input := if Nat.eqb kk 0 then data else pad_block key ++ data in
  let bl := blocks (S (length input)) input in
  firstn nn (flat_map le_bytes (compress_all h bl 0 (Z.of_nat (length input)))).

End Blake2b.

(** ** JLAP ([fetch/jlap/mod.rs]) *)

(** Modelled from the spec: the records of the repodata cache
    ([fetch/cache], not among the sources), with the fields [mod.rs] uses:
    the JLAP state [{jlap_position, iv, footer}] ([state.pos], [state.iv]),
    the footer [{url, latest}], and of the repodata state the hash of the
    cached [repodata.json] and the JLAP state. *)
Module Cache.

(** [Output<Blake2b256>]: 32 bytes. *)
Definition Digest := list Z.

Record JLAPFooter := mkFooter {
  url : string;
  latest : option Digest
}.

Record JLAPState := mkJLAPState {
  pos : N;
  iv : string;
  footer : JLAPFooter
}.

Record RepoDataState := mkRepoDataState {
  blake2_hash : option Digest;
  jlap : option JLAPState
}.

End Cache.

Module Jlap.
Import Cache.

(** [Output::<Blake2b256>::default()]: 32 zero bytes. *)
Definition digest_default : Digest := repeat 0%Z 32.

Definition JLAP_FOOTER_OFFSET : nat := 2.
Definition JLAP_START_POSITION : N := 0.
Definition JLAP_START_INITIALIZATION_VECTOR : list Z := repeat 0%Z 32.

(** [str::as_bytes] (ASCII text). *)
Definition as_bytes (s : string) : list Z :=
  map (fun a => Z.of_nat (nat_of_ascii a)) (list_ascii_of_string s).

(** [str::split('\n')] *)
Fixpoint split_nl (s : string) : list string :=
  match s with
  | EmptyString => [EmptyString]
  | String c s' =>
      if Ascii.eqb c "010"%char then EmptyString :: split_nl s'
      else match split_nl s' with
           | [] => [String c EmptyString]
           | seg :: rest => String c seg :: rest
           end
  end.

(** [hex::decode]: an even number of hex digits, either case. *)
Definition hex_val (a : ascii) : option Z :=
  let n := nat_of_ascii a in
  if (48 <=? n) && (n <=? 57) then Some (Z.of_nat (n - 48))
  else if (97 <=? n) && (n <=? 102) then Some (Z.of_nat (n - 87))
  else if (65 <=? n) && (n <=? 70) then Some (Z.of_nat (n - 55))
  else None.

Fixpoint hex_decode_list (l : list ascii) : option (list Z) :=
  match l with
  | [] => Some []
  | [_] => None
  | a :: b :: l' =>
      match hex_val a, hex_val b, hex_decode_list l' with
      | Some x, Some y, Some r => Some ((16 * x + y)%Z :: r)
      | _, _, _ => None
      end
  end.

Definition hex_decode (s : string) : option (list Z) := hex_decode_list (list_ascii_of_string s).

(** [hex::encode] and [format!("{:x}", ..)]: lowercase hex digits. *)
Definition hex_digit (z : Z) : ascii :=
  ascii_of_nat (Z.to_nat (if (z <? 10)%Z then 48 + z else 87 + z)%Z).

Definition hex_encode (bs : list Z) : string :=
  string_of_list_ascii (flat_map (fun b => [hex_digit (b / 16)%Z; hex_digit (b mod 16)%Z]) bs).

(** [parse_digest_from_hex::<Blake2b256>]: exactly 64 hex digits. *)
Definition parse_digest_from_hex (s : string) : option Digest :=
  match hex_decode s with
  | Some b => if Nat.eqb (length b) 32 then Some b else None
  | None => None
  end.

(** [format!("{}", n)] for a [u64]. *)
Fixpoint dec_digits (fuel : nat) (n : N) : string :=
  let d := String (ascii_of_N (48 + n mod 10)) EmptyString in
  match fuel with
  | O => d
  | S fuel' => if (n <? 10)%N then d else dec_digits fuel' (n / 10) ++ d
  end.

Definition N_to_string (n : N) : string := dec_digits (N.size_nat n) n.

(** [lines[i..j]] (the code only slices with [i <= j]). *)
Definition slice {A} (l : list A) (i j : nat) : list A := firstn (j - i) (skipn i l).

(** [JLAPError]; the payloads of [serde_json], [json_patch] and [std::io]
    errors are dropped, the [reqwest::Error] keeps its status. *)
Record ReqwestError := mkReqwestError { err_status : option N }.

Inductive JLAPError :=
| JSONParse
| JSONPatch
| HTTP (e : ReqwestError)
| FileSystem
| NoPatchesFound
| NoHashFound
| HashesNotMatching
| ChecksumMismatch
| HexParse.

(** [Result<A, JLAPError>], with a panic ([unwrap], [expect]) as a third
    outcome. *)
Inductive jresult (A : Type) : Type :=
| JOk (a : A)
| JErr (e : JLAPError)
| JPanic.
Arguments JOk {A} a.
Arguments JErr {A} e.
Arguments JPanic {A}.

(** A [json_patch::Patch] is applied to a JSON document by the function it
    denotes ([None]: the patch fails). *)
Record Patch (Doc : Type) := mkPatch {
  to : option Digest;
  from : option Digest;
  patch : Doc -> option Doc
}.
Arguments mkPatch {Doc} to from patch.
Arguments to {Doc} p.
Arguments from {Doc} p.
Arguments patch {Doc} p _.

(** What the file system does when [apply_jlap_patches] writes
    [repodata.json]. [File::create] truncates the file when it succeeds.
    [tokio::fs::File::write_all] hands each chunk to a background write and
    returns the error of the previous one; the file is dropped without a
    flush, so an error of the last background write is never seen.
    - [WriteOk]: every write reaches the file;
    - [CreateFails]: [File::create] fails, the file is left as it was;
    - [WriteFails n]: [write_all] fails after the first [n] bytes;
    - [LastWriteLost n]: [write_all] returns [Ok] but the last background
      write fails, and only the first [n] bytes reach the file. *)
Inductive WriteOutcome :=
| WriteOk
| CreateFails
| WriteFails (n : nat)
| LastWriteLost (n : nat).

(** The environment of a run: the JSON library ([serde_json::from_str] for
    the footer, a patch line and [repodata.json], and
    [serde_json::to_string_pretty]) and the outcome of writing
    [repodata.json]. *)
Record env := mkEnv {
  Doc : Type;
  parse_footer : string -> option JLAPFooter;
  parse_patch : string -> option (Patch Doc);
  parse_doc : string -> option Doc;
  to_string_pretty : Doc -> string;
  write_outcome : WriteOutcome
}.

(** [blake2b_256_hash_with_key]: [Blake2bMac256::new_with_salt_and_personal]
    refuses a key longer than 64 bytes, and the [unwrap] panics. *)
Definition blake2b_256_hash_with_key (data key : list Z) : option Digest :=
  if Nat.ltb 64 (length key) then None else Some (Blake2b.blake2b 32 key data).

(** [compute_bytes_digest::<Blake2b256>] *)
Definition compute_bytes_digest (data : list Z) : Digest := Blake2b.blake2b 32 [] data.

Section WithEnv.
Variable e : env.

Record JLAP := mkJLAP {
  initialization_vector : list Z;
  patches : list (Patch (Doc e));
  footer : JLAPFooter;
  checksum : Digest;
  bytes_offset : N;
  lines : list string;
  offset : nat
}.

(** [get_bytes_offset] *)
Definition get_bytes_offset (lines : list string) : N :=
  if Nat.leb JLAP_FOOTER_OFFSET (length lines) then
    fold_left N.add
      (map (fun x => N.of_nat (String.length x + 1)) (slice lines 0 (length lines - JLAP_FOOTER_OFFSET)))
      0%N
  else 0%N.

(** [patch_lines.map(parse_patch_json).collect()] *)
Fixpoint parse_patches (ls : list string) : jresult (list (Patch (Doc e))) :=
  match ls with
  | [] => JOk []
  | l :: ls' =>
      match parse_patch e l with
      | None => JErr JSONParse
      | Some p =>
          match parse_patches ls' with
          | JOk ps => JOk (p :: ps)
          | JErr err => JErr err
          | JPanic => JPanic
          end
      end
  end.

(** [JLAP::new] *)
Definition jlap_new (response : string) (initialization_vector : list Z) : jresult JLAP :=
  let lines := split_nl response in
  let length := List.length lines in
  if Nat.ltb JLAP_FOOTER_OFFSET length then
    let '(initialization_vector, offset) :=
      match hex_decode (nth 0 lines ""%string) with
      | Some value => (value, 1)
      | None => (initialization_vector, 0)
      end in
    let footer := nth (length - 2) lines ""%string in
    let checksum := default digest_default (parse_digest_from_hex (nth (length - 1) lines ""%string)) in
    let bytes_offset := get_bytes_offset lines in
    match parse_footer e footer with
    | None => JErr JSONParse
    | Some footer =>
        match parse_patches (slice lines offset (length - JLAP_FOOTER_OFFSET)) with
        | JOk patches =>
            match patches with
            | [] => JErr NoPatchesFound
            | _ :: _ => JOk (mkJLAP initialization_vector patches footer checksum bytes_offset lines offset)
            end
        | JErr error => JErr error
        | JPanic => JPanic
        end
    end
  else JErr NoPatchesFound.

(** The loop of [JLAP::validate_checksum]: [iv] after the lines [ls]. *)
Fixpoint checksum_loop (initialization_vector : list Z) (iv : option Digest) (ls : list string)
    : jresult (option Digest) :=
  match ls with
  | [] => JOk iv
  | line :: ls' =>
      let key := match iv with Some value => value | None => initialization_vector end in
      match blake2b_256_hash_with_key (as_bytes line) key with
      | None => JPanic
      | Some h => checksum_loop initialization_vector (Some h) ls'
      end
  end.

(** [JLAP::validate_checksum]; [iv_values] is non-empty exactly when [iv]
    is set, and its last element is [iv]. *)
Definition validate_checksum (j : JLAP) : jresult Digest :=
  let end_ := List.length (lines j) - JLAP_FOOTER_OFFSET in
  match checksum_loop (initialization_vector j) None (slice (lines j) (offset j) end_) with
  | JOk (Some new_iv) =>
      if bool_decide (new_iv = checksum j) then JOk new_iv else JErr ChecksumMismatch
  | JOk None => JErr NoPatchesFound
  | JErr err => JErr err
  | JPanic => JPanic
  end.

(** [JLAP::get_state]. [position + self.bytes_offset] is a [u64] addition:
    it wraps modulo 2^64, as in a release build (a build with overflow
    checks panics instead, on the inputs where the sum reaches 2^64). *)
Definition get_state (j : JLAP) (position : N) (iv : option Digest) : JLAPState :=
  let iv := match iv with
            | Some value => hex_encode value
            | None => hex_encode (initialization_vector j)
            end in
  mkJLAPState ((position + bytes_offset j) mod 2 ^ 64) iv (footer j).

(** [find_current_patch_index] *)
Fixpoint find_current_patch_index (ps : list (Patch (Doc e))) (hash : Digest) : option nat :=
  match ps with
  | [] => None
  | p :: ps' =>
      if bool_decide (from p = Some hash) then Some 0
      else option_map S (find_current_patch_index ps' hash)
  end.

Fixpoint apply_patches (doc : Doc e) (ps : list (Patch (Doc e))) : option (Doc e) :=
  match ps with
  | [] => Some doc
  | p :: ps' => match patch p doc with Some doc' => apply_patches doc' ps' | None => None end
  end.

(** [apply_jlap_patches], on the contents of [repodata.json] ([None]: the
    file cannot be read). After the patches applied, the file is created
    anew and written as [write_outcome] says; [to_string_pretty] of a JSON
    value does not fail. The digest returned is that of the bytes in
    memory. *)
Definition apply_jlap_patches (ps : list (Patch (Doc e))) (file : option string)
    : jresult Digest * option string :=
  match file with
  | None => (JErr FileSystem, file)
  | Some repo_data_contents =>
      match parse_doc e repo_data_contents with
      | None => (JErr JSONParse, file)
      | Some doc =>
          match apply_patches doc ps with
          | None => (JErr JSONPatch, file)
          | Some doc' =>
              let updated_json := (to_string_pretty e doc' ++ String "010" EmptyString)%string in
              match write_outcome e with
              | CreateFails => (JErr FileSystem, file)
              | WriteFails n => (JErr FileSystem, Some (substring 0 n updated_json))
              | WriteOk => (JOk (compute_bytes_digest (as_bytes updated_json)), Some updated_json)
              | LastWriteLost n =>
                  (JOk (compute_bytes_digest (as_bytes updated_json)), Some (substring 0 n updated_json))
              end
          end
      end
  end.

(** [JLAP::apply] *)
Definition jlap_apply (j : JLAP) (file : option string) (hash : Digest)
    : jresult unit * option string :=
  match find_current_patch_index (patches j) hash with
  | Some idx =>
      let '(r, file') := apply_jlap_patches (skipn idx (patches j)) file in
      match r with
      | JOk new_hash =>
          if bool_decide (new_hash = default digest_default (latest (footer j)))
          then (JOk tt, file') else (JErr HashesNotMatching, file')
      | JErr err => (JErr err, file')
      | JPanic => (JPanic, file')
      end
  | None => (JErr NoHashFound, file)
  end.

End WithEnv.

Arguments JLAP : clear implicits.

(** [get_position_and_initialization_vector] *)
Definition get_position_and_initialization_vector (state : option JLAPState)
    : jresult (N * list Z) :=
  match state with
  | Some state =>
      match hex_decode (iv state) with
      | Some value => JOk (pos state, value)
      | None => JErr HexParse
      end
  | None => JOk (JLAP_START_POSITION, JLAP_START_INITIALIZATION_VECTOR)
  end.

(** An HTTP response: its status and its body ([response.text()]). *)
Record Response := mkResponse {
  status : N;
  body : string
}.

(** The server of [<subdir>/repodata.jlap]: its reply to a GET with the
    given [Range] header, [None] when no reply arrives. *)
Definition Server := string -> option Response.

(** [fetch_jlap]: [RequestBuilder::send] resolves to [Ok] for a reply of any
    status ([error_for_status] is not called); its errors are transport
    errors, with no status. *)
Definition fetch_jlap (server : Server) (range : string) : Response + ReqwestError :=
  match server range with
  | Some response => inl response
  | None => inr (mkReqwestError None)
  end.

Definition RANGE_NOT_SATISFIABLE : N := 416.

(** [StatusCode::default()] is [200 OK]. *)
Definition status_default : N := 200.

(** [fetch_jlap_with_retry] *)
Definition fetch_jlap_with_retry (server : Server) (position : N) : jresult (Response * N) :=
  let range := ("bytes=" ++ N_to_string position ++ "-")%string in
  match fetch_jlap server range with
  | inl response => JOk (response, position)
  | inr error =>
      if N.eqb (default status_default (err_status error)) RANGE_NOT_SATISFIABLE
         && negb (N.eqb position 0)
      then match fetch_jlap server "bytes=0-" with
           | inl response => JOk (response, 0%N)
           | inr error => JErr (HTTP error)
           end
      else JErr (HTTP error)
  end.

(** [patch_repo_data], with the contents of [repodata.json] threaded
    through. *)
Definition patch_repo_data (e : env) (server : Server) (repo_data_state : RepoDataState)
    (file : option string) : jresult JLAPState * option string :=
  match get_position_and_initialization_vector (jlap repo_data_state) with
  | JErr err => (JErr err, file)
  | JPanic => (JPanic, file)
  | JOk (position, initialization_vector) =>
      match fetch_jlap_with_retry server position with
      | JErr err => (JErr err, file)
      | JPanic => (JPanic, file)
      | JOk (response, position) =>
          let response_text := body response in
          match jlap_new e response_text initialization_vector with
          | JErr err => (JErr err, file)
          | JPanic => (JPanic, file)
          | JOk j =>
              let hash := default digest_default (blake2_hash repo_data_state) in
              let latest_hash := default digest_default (latest (footer e j)) in
              if bool_decide (latest_hash = hash) then (JOk (get_state e j position None), file)
              else
                match validate_checksum e j with
                | JErr err => (JErr err, file)
                | JPanic => (JPanic, file)
                | JOk new_iv =>
                    let '(r, file') := jlap_apply e j file hash in
                    match r with
                    | JOk _ => (JOk (get_state e j position (Some new_iv)), file')
                    | JErr err => (JErr err, file')
                    | JPanic => (JPanic, file')
                    end
                end
          end
      end
  end.

(** Vocabulary of the statements below (not code of the crate): the running
    state [s_i = Blake2b-256_MAC(s_(i-1), bytes(patch_i))] from [s0]. *)
Fixpoint running (s0 : Digest) (ls : list string) : Digest :=
  match ls with
  | [] => s0
  | l :: ls' => running (Blake2b.blake2b 32 s0 (as_bytes l)) ls'
  end.

(** The bytes of lines with their newlines. *)
Definition line_bytes (ls : list string) : N :=
  fold_left N.add (map (fun x => N.of_nat (String.length x + 1)) ls) 0%N.

End Jlap.

(** ** Inputs of the JLAP examples *)
Module JlapExamples.
Import Cache Jlap.

Definition q : string := String "034" EmptyString.
Definition nl : string := String "010" EmptyString.

(** [repodata.json] before and after the patch [add /a 1]; the JSON
    documents are written as their pretty-printed text. *)
Definition repodata0 : string := ("{}" ++ nl)%string.
Definition doc1 : string := ("{" ++ nl ++ "  " ++ q ++ "a" ++ q ++ ": 1" ++ nl ++ "}")%string.

Definition H0 : Digest := compute_bytes_digest (as_bytes repodata0).
Definition H1 : Digest := compute_bytes_digest (as_bytes (doc1 ++ nl)).

Definition ex_iv : Digest := map Z.of_nat (seq 1 32).

Definition field (k v : string) : string := (q ++ k ++ q ++ ": " ++ v)%string.
Definition str (v : string) : string := (q ++ v ++ q)%string.

Definition patch_line : string :=
  ("{" ++ field "to" (str (hex_encode H1)) ++ ", " ++ field "from" (str (hex_encode H0)) ++ ", "
   ++ field "patch" ("[{" ++ field "op" (str "add") ++ ", " ++ field "path" (str "/a") ++ ", "
                      ++ field "value" "1" ++ "}]") ++ "}")%string.

Definition footer_line : string :=
  ("{" ++ field "url" (str "repodata.json") ++ ", " ++ field "latest" (str (hex_encode H1)) ++ "}")%string.

Definition checksum_line : string := hex_encode (Blake2b.blake2b 32 ex_iv (as_bytes patch_line)).

(** A JLAP response from position 0: iv, one patch, footer, checksum. *)
Definition response : string :=
  (hex_encode ex_iv ++ nl ++ patch_line ++ nl ++ footer_line ++ nl ++ checksum_line)%string.

(** [serde_json] on the lines and documents above, and the outcome [w] of
    writing [repodata.json]. *)
Definition ex_env_write (w : WriteOutcome) : env :=
  mkEnv string
    (fun s => if String.eqb s footer_line then Some (mkFooter "repodata.json" (Some H1)) else None)
    (fun s => if String.eqb s patch_line
              then Some (mkPatch (Some H1) (Some H0)
                           (fun d => if String.eqb d "{}" then Some doc1 else None))
              else None)
    (fun s => if String.eqb s repodata0 then Some "{}"%string else None)
    (fun d => d)
    w.

(** ... with a write that succeeds. *)
Definition ex_env : env := ex_env_write WriteOk.

(** A server holding [response] in full, that answers any other range with
    416 (range not satisfiable) and an empty body. *)
Definition ex_server : Server :=
  fun range => if String.eqb range "bytes=0-" then Some (mkResponse 200 response)
               else Some (mkResponse 416 "").

(** A client with [repodata.json] at [H0] and no JLAP state. *)
Definition ex_state : RepoDataState := mkRepoDataState (Some H0) None.

(** A client that has read 5 bytes of a JLAP file the server no longer has. *)
Definition ex_state5 : RepoDataState :=
  mkRepoDataState (Some H0) (Some (mkJLAPState 5 (hex_encode ex_iv) (mkFooter "repodata.json" (Some H0)))).

(** [response] parsed with the initial vector. *)
Definition ex_jlap : JLAP ex_env :=
  match jlap_new ex_env response JLAP_START_INITIALIZATION_VECTOR with
  | JOk j => j
  | _ => mkJLAP ex_env [] [] (mkFooter "" None) [] 0 [] 0
  end.

End JlapExamples.

(** ** Candidate construction ([rattler_solve/src/resolvo/mod.rs]) *)
Module Resolvo.

(** [ArchiveType] with its derived order: [TarBz2 < Conda]. *)
Inductive ArchiveType := TarBz2 | Conda.

Definition archive_rank (a : ArchiveType) : nat := match a with TarBz2 => 0 | Conda => 1 end.

Definition archive_cmp (a b : ArchiveType) : comparison := Nat.compare (archive_rank a) (archive_rank b).

Definition strip_suffix (suffix s : string) : option string :=
  let n := String.length s in
  let k := String.length suffix in
  if Nat.leb k n && String.eqb (substring (n - k) k s) suffix
  then Some (substring 0 (n - k) s) else None.

(** Modelled from the spec: [ArchiveType::split_str] ([rattler_conda_types],
    not among the sources) splits a file name into its stem and archive
    type, by the extension [.tar.bz2] or [.conda]. *)
Definition split_str (s : string) : option (string * ArchiveType) :=
  match strip_suffix ".tar.bz2" s with
  | Some stem => Some (stem, TarBz2)
  | None =>
      match strip_suffix ".conda" s with
      | Some stem => Some (stem, Conda)
      | None => None
      end
  end.

(** The fields of a [RepoDataRecord] the construction reads; the name is the
    normalized package name, the timestamp in seconds. *)
Record RepoDataRecord := mkRecord {
  name : string;
  file_name : string;
  channel : string;
  timestamp : option Z
}.

Record Channel := mkChannel {
  base_url : string;
  channel_name : option string
}.

Record MatchSpec := mkMatchSpec {
  spec_name : option string;
  spec_channel : option Channel
}.

Inductive ChannelPriority := Strict | Disabled.

Inductive SolveError := DuplicateRecords (file : string).

(** The reasons pushed to [excluded]; each stands for the message formatted
    from its argument. *)
Inductive Reason :=
| UploadedAfterCutoff (cutoff : Z)
| NotInRequestedChannel (channel : string)
| StrictChannelPriority (channel : string).

Inductive SolverPackageRecord :=
| VirtualPackage (n : string)
| Record_ (r : RepoDataRecord).

(** [resolvo::Candidates] *)
Record Candidates := mkCandidates {
  candidates : list nat;
  favored : option nat;
  locked : option nat;
  excluded : list (nat * Reason);
  hint_dependencies_available : list nat
}.

Definition candidates_default : Candidates := mkCandidates [] None None [] [].

(** The pool (a [SolvableId] is an index in [pool]) and the candidates of
    each package name (names are interned, so a name stands for its
    [NameId]). *)
Record Provider := mkProvider {
  pool : list SolverPackageRecord;
  records : gmap string Candidates
}.

(** [Result<A, SolveError>], with a panic ([expect]) as a third outcome. *)
Inductive result (A : Type) : Type :=
| ROk (a : A)
| RErr (e : SolveError)
| RPanic.
Arguments ROk {A} a.
Arguments RErr {A} e.
Arguments RPanic {A}.

Definition push_candidate (c : Candidates) (id : nat) : Candidates :=
  mkCandidates (candidates c ++ [id]) (favored c) (locked c) (excluded c) (hint_dependencies_available c).

Definition push_excluded (c : Candidates) (x : nat * Reason) : Candidates :=
  mkCandidates (candidates c) (favored c) (locked c) (excluded c ++ [x]) (hint_dependencies_available c).

Definition push_hint (c : Candidates) (id : nat) : Candidates :=
  mkCandidates (candidates c) (favored c) (locked c) (excluded c) (hint_dependencies_available c ++ [id]).

Definition set_favored (c : Candidates) (id : nat) : Candidates :=
  mkCandidates (candidates c) (Some id) (locked c) (excluded c) (hint_dependencies_available c).

Definition set_locked (c : Candidates) (id : nat) : Candidates :=
  mkCandidates (candidates c) (favored c) (Some id) (excluded c) (hint_dependencies_available c).

Section Construction.
Variable exclude_newer : option Z.
Variable channel_priority : ChannelPriority.
Variable match_specs : list MatchSpec.

(** A record newer than [exclude_newer]. *)
Definition is_excluded (record : RepoDataRecord) : bool :=
  match exclude_newer, timestamp record with
  | Some exclude_newer, Some record_timestamp => Z.ltb exclude_newer record_timestamp
  | _, _ => false
  end.

(** The state of the archive-type dedup of one repodata set: [ordered_repodata]
    and [package_to_type]. *)
Definition DedupState := (list RepoDataRecord * gmap string (ArchiveType * nat * bool))%type.

Definition dedup_step (st : DedupState) (record : RepoDataRecord) : result DedupState :=
  let '(ordered_repodata, package_to_type) := st in
  let excluded := is_excluded record in
  let '(stem, archive_type) := default (file_name record, TarBz2) (split_str (file_name record)) in
  match package_to_type !! stem with
  | None =>
      let idx := length ordered_repodata in
      ROk (ordered_repodata ++ [record], <[stem := (archive_type, idx, excluded)]> package_to_type)
  | Some (prev_archive_type, idx, previous_excluded) =>
      if previous_excluded && negb excluded then
        ROk (<[idx := record]> ordered_repodata,
             <[stem := (archive_type, idx, false)]> package_to_type)
      else if excluded && negb previous_excluded then ROk st
      else
        match archive_cmp archive_type prev_archive_type with
        | Gt => ROk (<[idx := record]> ordered_repodata,
                     <[stem := (archive_type, idx, excluded)]> package_to_type)
        | Lt => ROk st
        | Eq => RErr (DuplicateRecords (file_name record))
        end
  end.

Fixpoint dedup_loop (st : DedupState) (rs : list RepoDataRecord) : result DedupState :=
  match rs with
  | [] => ROk st
  | r :: rs' =>
      match dedup_step st r with
      | ROk st' => dedup_loop st' rs'
      | RErr e => RErr e
      | RPanic => RPanic
      end
  end.

(** The first loop over [repo_datas.records]: [ordered_repodata]. *)
Definition dedup (rs : list RepoDataRecord) : result (list RepoDataRecord) :=
  match dedup_loop ([], ∅) rs with
  | ROk (ordered_repodata, _) => ROk ordered_repodata
  | RErr e => RErr e
  | RPanic => RPanic
  end.

Definition channel_specific_specs : list MatchSpec :=
  List.filter (fun spec => match spec_channel spec with Some _ => true | None => false end) match_specs.

(** [channel_specific_specs.iter().find(..)] on a package name; the outer
    [None] is the panic of [expect("expecting a name")]. *)
Fixpoint find_spec (specs : list MatchSpec) (n : string) : option (option MatchSpec) :=
  match specs with
  | [] => Some None
  | spec :: specs' =>
      match spec_name spec with
      | None => None
      | Some sn => if String.eqb sn n then Some (Some spec) else find_spec specs' n
      end
  end.

(** The state of the second loop: the provider and
    [package_name_found_in_channel]. *)
Definition AddState := (Provider * gmap string string)%type.

(** The body of the second loop, for one record of [ordered_repodata]. *)
Definition add_record (st : AddState) (record : RepoDataRecord) : result AddState :=
  let '(p, package_name_found_in_channel) := st in
  let package_name := name record in
  let solvable_id := length (pool p) in
  let pool' := pool p ++ [Record_ record] in
  let c := push_candidate (default candidates_default (records p !! package_name)) solvable_id in
  let c := match exclude_newer with
           | Some exclude_newer =>
               if is_excluded record
               then push_excluded c (solvable_id, UploadedAfterCutoff exclude_newer) else c
           | None => c
           end in
  let store c := mkProvider pool' (<[package_name := c]> (records p)) in
  let not_requested :=
    match channel_specific_specs with
    | [] => Some None
    | _ :: _ =>
        match find_spec channel_specific_specs package_name with
        | None => None
        | Some (Some spec) =>
            match spec_channel spec with
            | Some spec_channel =>
                if negb (String.eqb (channel record) (base_url spec_channel))
                then Some (Some (default (base_url spec_channel) (channel_name spec_channel)))
                else Some None
            | None => Some None
            end
        | Some None => Some None
        end
    end in
  match not_requested with
  | None => RPanic
  | Some (Some message) =>
      ROk (store (push_excluded c (solvable_id, NotInRequestedChannel message)),
           package_name_found_in_channel)
  | Some None =>
      match package_name_found_in_channel !! package_name, channel_priority with
      | Some first_channel, Strict =>
          if negb (String.eqb first_channel (channel record)) then
            ROk (store (push_excluded c (solvable_id, StrictChannelPriority (channel record))),
                 package_name_found_in_channel)
          else ROk (store (push_hint c solvable_id), package_name_found_in_channel)
      | _, _ =>
          ROk (store (push_hint c solvable_id),
               <[package_name := channel record]> package_name_found_in_channel)
      end
  end.

Fixpoint add_records (st : AddState) (rs : list RepoDataRecord) : result AddState :=
  match rs with
  | [] => ROk st
  | r :: rs' =>
      match add_record st r with
      | ROk st' => add_records st' rs'
      | RErr e => RErr e
      | RPanic => RPanic
      end
  end.

Definition add_virtual (p : Provider) (vp : string) : Provider :=
  let id := length (pool p) in
  mkProvider (pool p ++ [VirtualPackage vp])
    (<[vp := push_candidate (default candidates_default (records p !! vp)) id]> (records p)).

Definition add_favored (p : Provider) (r : RepoDataRecord) : Provider :=
  let id := length (pool p) in
  mkProvider (pool p ++ [Record_ r])
    (<[name r := set_favored (push_candidate (default candidates_default (records p !! name r)) id) id]>
       (records p)).

Definition add_locked (p : Provider) (r : RepoDataRecord) : Provider :=
  let id := length (pool p) in
  mkProvider (pool p ++ [Record_ r])
    (<[name r := set_locked (push_candidate (default candidates_default (records p !! name r)) id) id]>
       (records p)).

Fixpoint add_repodata (st : AddState) (repodata : list (list RepoDataRecord)) : result AddState :=
  match repodata with
  | [] => ROk st
  | repo_datas :: rest =>
      match dedup repo_datas with
      | ROk ordered_repodata =>
          match add_records st ordered_repodata with
          | ROk st' => add_repodata st' rest
          | RErr e => RErr e
          | RPanic => RPanic
          end
      | RErr e => RErr e
      | RPanic => RPanic
      end
  end.

(** [CondaDependencyProvider::from_solver_task], on the candidates. *)
Definition from_solver_task (repodata : list (list RepoDataRecord))
    (favored_records locked_records : list RepoDataRecord) (virtual_packages : list string)
    : result Provider :=
  let p := fold_left add_virtual virtual_packages (mkProvider [] ∅) in
  match add_repodata (p, ∅) repodata with
  | ROk (p, _) =>
      let p := fold_left add_favored favored_records p in
      ROk (fold_left add_locked locked_records p)
  | RErr e => RErr e
  | RPanic => RPanic
  end.

(** Vocabulary of the statements below (not code of the crate): a record
    passes the filter of the channel-specific specs. *)
Definition in_requested_channel (record : RepoDataRecord) : bool :=
  match find_spec channel_specific_specs (name record) with
  | Some (Some spec) =>
      match spec_channel spec with
      | Some c => String.eqb (channel record) (base_url c)
      | None => true
      end
  | _ => true
  end.

(** The channel of the first record of [n] in [rs] that passes it. *)
Fixpoint first_channel (rs : list RepoDataRecord) (n : string) : option string :=
  match rs with
  | [] => None
  | r :: rs' =>
      if String.eqb (name r) n && in_requested_channel r then Some (channel r)
      else first_channel rs' n
  end.

(** The first channel of [n], counting the channels already recorded in
    [found] before those of [rs]. *)
Definition from_found (found : gmap string string) (rs : list RepoDataRecord) (n : string) : option string :=
  match found !! n with Some c => Some c | None => first_channel rs n end.

End Construction.

(** The stem and archive type of a record's file name, as the dedup loop
    computes them. *)
Definition stem_and_type (record : RepoDataRecord) : string * ArchiveType :=
  default (file_name record, TarBz2) (split_str (file_name record)).

Definition stem (record : RepoDataRecord) : string := fst (stem_and_type record).

(** The excluded list of a package name. *)
Definition excluded_of (p : Provider) (n : string) : list (nat * Reason) :=
  excluded (default candidates_default (records p !! n)).

(** Every exclusion names a solvable of the pool. *)
Definition ids_below (p : Provider) : Prop :=
  forall n x, x ∈ excluded_of p n -> fst x < length (pool p).

(** Vocabulary of the statements below (not code of the crate). *)
Definition solvable_name (s : SolverPackageRecord) : string :=
  match s with VirtualPackage n => n | Record_ r => name r end.

Definition cand_of (p : Provider) (n : string) : Candidates := default candidates_default (records p !! n).
Definition candidates_of (p : Provider) (n : string) : list nat := candidates (cand_of p n).
Definition hints_of (p : Provider) (n : string) : list nat := hint_dependencies_available (cand_of p n).
Definition favored_of (p : Provider) (n : string) : option nat := favored (cand_of p n).
Definition locked_of (p : Provider) (n : string) : option nat := locked (cand_of p n).

(** The cutoff exclusion of a record, and the channel exclusions it may get. *)
Definition cutoff_reasons (xn : option Z) (r : RepoDataRecord) : list Reason :=
  match xn with
  | Some x => if is_excluded (Some x) r then [UploadedAfterCutoff x] else []
  | None => []
  end.

Definition chan_ok (prio : ChannelPriority) (specs : list MatchSpec) (r : RepoDataRecord)
    (ch : list Reason) : Prop :=
  (in_requested_channel specs r = false /\ exists m, ch = [NotInRequestedChannel m]) \/
  (in_requested_channel specs r = true /\
   (ch = [] \/ (prio = Strict /\ ch = [StrictChannelPriority (channel r)]))).

(** The ids, from [base], of the elements of [l] named [n]. *)
Fixpoint named_ids {A} (f : A -> string) (n : string) (base : nat) (l : list A) : list nat :=
  match l with
  | [] => []
  | x :: l' => (if String.eqb (f x) n then [base] else []) ++ named_ids f n (S base) l'
  end.

Fixpoint excl_contrib (xn : option Z) (n : string) (base : nat) (rs : list RepoDataRecord)
    (chans : list (list Reason)) : list (nat * Reason) :=
  match rs, chans with
  | r :: rs', ch :: chans' =>
      (if String.eqb (name r) n then map (pair base) (cutoff_reasons xn r ++ ch) else [])
      ++ excl_contrib xn n (S base) rs' chans'
  | _, _ => []
  end.

Fixpoint hint_contrib (n : string) (base : nat) (rs : list RepoDataRecord)
    (chans : list (list Reason)) : list nat :=
  match rs, chans with
  | r :: rs', ch :: chans' =>
      (if String.eqb (name r) n then match ch with [] => [base] | _ => [] end else [])
      ++ hint_contrib n (S base) rs' chans'
  | _, _ => []
  end.

(** The index of the last record named [n]. *)
Fixpoint last_index (n : string) (rs : list RepoDataRecord) : option nat :=
  match rs with
  | [] => None
  | r :: rs' =>
      match last_index n rs' with
      | Some k => Some (S k)
      | None => if String.eqb (name r) n then Some 0 else None
      end
  end.

(** The invariant of the dedup loop over a repodata set [rs]. *)
Definition dedup_inv (rs : list RepoDataRecord) (st : DedupState) : Prop :=
  let '(ord, m) := st in
  NoDup (map stem ord) /\
  (forall r, r ∈ ord -> r ∈ rs) /\
  (forall k t idx b, m !! k = Some (t, idx, b) -> exists r, ord !! idx = Some r /\ stem r = k) /\
  (forall k, (exists v, m !! k = Some v) <-> k ∈ map stem ord).

End Resolvo.

Module ResolvoExamples.
Import Resolvo.
Local Open Scope string_scope.

Definition rec_c1 : RepoDataRecord := mkRecord "n" "n-1.0-0.conda" "c1" None.
Definition rec_c2 : RepoDataRecord := mkRecord "n" "n-1.0-0.conda" "c2" None.
(** A spec [c2::n]. *)
Definition spec_c2 : MatchSpec := mkMatchSpec (Some "n") (Some (mkChannel "c2" None)).

(** The same package as a [.tar.bz2] and as a [.conda]. *)
Definition rec_bz2 : RepoDataRecord := mkRecord "n" "n-1.0-0.tar.bz2" "c1" (Some 20%Z).
Definition rec_conda : RepoDataRecord := mkRecord "n" "n-1.0-0.conda" "c1" (Some 10%Z).

(** Two more packages, each as a [.tar.bz2] and as a [.conda]. *)
Definition rec_a_bz2 : RepoDataRecord := mkRecord "a" "a-1-0.tar.bz2" "c1" None.
Definition rec_a_conda : RepoDataRecord := mkRecord "a" "a-1-0.conda" "c1" None.
Definition rec_b_bz2 : RepoDataRecord := mkRecord "b" "b-2-0.tar.bz2" "c1" None.
Definition rec_b_conda : RepoDataRecord := mkRecord "b" "b-2-0.conda" "c1" None.

Definition provider_c1_c2 : Provider :=
  mkProvider [Record_ rec_c1; Record_ rec_c2]
    {[ "n" := mkCandidates [0; 1] None None [(0, NotInRequestedChannel "c2")] [1] ]}.

Definition provider_locked : Provider :=
  mkProvider [Record_ rec_c1; Record_ rec_c2]
    {[ "n" := mkCandidates [0; 1] None (Some 1) [] [0] ]}.

(** A cutoff of 15 with Disabled priority and the spec [c2::n]: [rec_c1]
    is not in the requested channel, [rec_new] is newer than the cutoff;
    [rec_c2] is also favored and [rec_m] locked, with a virtual package. *)
Definition rec_new : RepoDataRecord := mkRecord "n" "n-2.0-0.conda" "c2" (Some 20%Z).
Definition rec_m : RepoDataRecord := mkRecord "m" "m-1.0-0.conda" "c1" (Some 5%Z).
Definition mixed_repodata : list (list RepoDataRecord) := [[rec_c1; rec_m]; [rec_c2; rec_new]].

Definition provider_mixed : Provider :=
  mkProvider [VirtualPackage "__unix"; Record_ rec_c1; Record_ rec_m; Record_ rec_c2; Record_ rec_new;
              Record_ rec_c2; Record_ rec_m]
    {[ "__unix" := mkCandidates [0] None None [] [];
       "m" := mkCandidates [2; 6] None (Some 6) [] [2];
       "n" := mkCandidates [1; 3; 4; 5] (Some 5) None
                [(1, NotInRequestedChannel "c2"); (4, UploadedAfterCutoff 15%Z)] [3; 4] ]}.

(** Strict priority with no specs: [rec_c2] comes after [rec_c1] of [c1]
    and is excluded; [rec_c2] is also favored and [rec_m] locked. *)
Definition provider_strict : Provider :=
  mkProvider [VirtualPackage "__unix"; Record_ rec_c1; Record_ rec_c2; Record_ rec_m;
              Record_ rec_c2; Record_ rec_m]
    {[ "__unix"%string := mkCandidates [0] None None [] [];
       "m"%string := mkCandidates [3; 5] None (Some 5) [] [3];
       "n"%string := mkCandidates [1; 2; 4] (Some 4) None [(2, StrictChannelPriority "c2"%string)] [1] ]}.

End ResolvoExamples.

(* ================================================================== *)
(** * Proofs *)

(** ** Clobber registry *)
Module ClobberFacts.
Import Clobber.

Lemma contains_spec (l : list string) (n : string) : contains l n = true <-> n ∈ l.
Proof.
  unfold contains. rewrite existsb_exists, list_elem_of_In. split.
  - intros (x & Hx & Heq). apply String.eqb_eq in Heq. subst. done.
  - intros H. exists n. split; [done | apply String.eqb_refl].
Qed.

Lemma contains_false (l : list string) (n : string) : contains l n = false <-> n ∉ l.
Proof.
  rewrite <- contains_spec. destruct (contains l n); split; congruence || done.
Qed.

Lemma register_path_at (reg : ClobberRegistry) (ren : gmap string string) (idx : nat) (a : string) :
  let '(reg', ren') := register_path idx (reg, ren) a in
  package_names reg' = package_names reg /\
  paths_registry reg' !! a = owner_after reg idx a /\
  clobbers reg' !! a = clobbers_after reg idx a /\
  ren' !! a = rename_after reg idx ren a /\
  (forall p, p <> a ->
     paths_registry reg' !! p = paths_registry reg !! p /\
     clobbers reg' !! p = clobbers reg !! p /\ ren' !! p = ren !! p).
Proof.
  unfold register_path, owner_after, clobbers_after, rename_after.
  destruct (paths_registry reg !! a) as [e|] eqn:He;
    [destruct (Nat.eqb e idx) eqn:Hei|]; simpl; rewrite ?He;
    repeat split; try intros p Hp;
    rewrite ?lookup_insert_eq, ?lookup_insert_ne by done; try done.
Qed.

Lemma register_fold_spec (idx : nat) (Ps : list string) :
  NoDup Ps ->
  forall (reg : ClobberRegistry) (ren : gmap string string),
  let '(reg', ren') := foldl (register_path idx) (reg, ren) Ps in
  package_names reg' = package_names reg /\
  forall p,
    (p ∈ Ps ->
       paths_registry reg' !! p = owner_after reg idx p /\
       clobbers reg' !! p = clobbers_after reg idx p /\
       ren' !! p = rename_after reg idx ren p) /\
    (p ∉ Ps ->
       paths_registry reg' !! p = paths_registry reg !! p /\
       clobbers reg' !! p = clobbers reg !! p /\ ren' !! p = ren !! p).
Proof.
  induction 1 as [|a Ps Ha HS IH]; intros reg ren.
  - simpl. split; [done|]. intros p. split; [intros Hp; by apply not_elem_of_nil in Hp | done].
  - cbn [foldl]. pose proof (register_path_at reg ren idx a) as Hstep.
    destruct (register_path idx (reg, ren) a) as [reg1 ren1] eqn:E1.
    destruct Hstep as (Hn1 & Ho1 & Hc1 & Hr1 & Hoth1).
    specialize (IH reg1 ren1).
    destruct (foldl (register_path idx) (reg1, ren1) Ps) as [reg' ren'].
    simpl in IH. destruct IH as [Hn' Hp']. split; [congruence|]. intros p. split.
    + intros Hin. rewrite elem_of_cons in Hin. destruct Hin as [->|Hin].
      * destruct (Hp' a) as [_ Hout]. destruct (Hout Ha) as (A1 & A2 & A3).
        rewrite A1, A2, A3. done.
      * assert (p <> a) as Hpa by (intros ->; done).
        destruct (Hp' p) as [Hin' _]. destruct (Hin' Hin) as (A1 & A2 & A3).
        destruct (Hoth1 p Hpa) as (B1 & B2 & B3).
        unfold owner_after, clobbers_after, rename_after in *.
        rewrite A1, A2, A3, B1, B2, B3, Hn1. done.
    + intros Hout. rewrite not_elem_of_cons in Hout. destruct Hout as [Hpa Hout].
      destruct (Hp' p) as [_ Hout']. destruct (Hout' Hout) as (A1 & A2 & A3).
      destruct (Hoth1 p Hpa) as (B1 & B2 & B3). rewrite A1, A2, A3, B1, B2, B3. done.
Qed.

Lemma position_spec (name : string) (l : list string) (i : nat) :
  position name l = Some i -> nth i l ""%string = name /\ i < length l.
Proof.
  revert i. induction l as [|n l IH]; intros i; simpl; [done|].
  destruct (String.eqb n name) eqn:E.
  - intros [= <-]. apply String.eqb_eq in E. split; [done | lia].
  - destruct (position name l) as [j|] eqn:Ej; simpl; [|done].
    intros [= <-]. destruct (IH j eq_refl). split; [done | lia].
Qed.

Lemma position_none (name : string) (l : list string) :
  position name l = None -> name ∉ l.
Proof.
  induction l as [|n l IH]; simpl; [intros _; apply not_elem_of_nil|].
  destruct (String.eqb n name) eqn:E; [done|].
  destruct (position name l); simpl; [done|]. intros _.
  apply not_elem_of_cons. split; [|by apply IH].
  intros ->. rewrite String.eqb_refl in E. done.
Qed.

Lemma name_index_spec (reg : ClobberRegistry) (name : string) :
  let '(reg1, idx) := name_index reg name in
  paths_registry reg1 = paths_registry reg /\ clobbers reg1 = clobbers reg /\
  nth idx (package_names reg1) ""%string = name /\
  (package_names reg1 = package_names reg \/ package_names reg1 = package_names reg ++ [name]).
Proof.
  unfold name_index. destruct (position name (package_names reg)) as [i|] eqn:E.
  - destruct (position_spec _ _ _ E). auto.
  - simpl. repeat split; auto. rewrite app_nth2 by lia.
    rewrite Nat.sub_diag. done.
Qed.

(** *** Lists *)

Lemma hold_idx_from_app (i : nat) (L : list Package) (X : Package) (p : string) :
  hold_idx_from i (L ++ [X]) p =
  hold_idx_from i L p ++ (if holds p X then [i + length L] else []).
Proof.
  revert i. induction L as [|pk L IH]; intros i; simpl.
  - rewrite Nat.add_0_r. destruct (holds p X); done.
  - rewrite IH, app_assoc. replace (S i + length L) with (i + S (length L)) by lia. done.
Qed.

Lemma hold_idx_app (L : list Package) (X : Package) (p : string) :
  hold_idx (L ++ [X]) p = hold_idx L p ++ (if holds p X then [length L] else []).
Proof. apply hold_idx_from_app. Qed.

Lemma hold_idx_from_bound (i : nat) (L : list Package) (p : string) (j : nat) :
  j ∈ hold_idx_from i L p -> i <= j < i + length L.
Proof.
  revert i. induction L as [|pk L IH]; intros i; simpl.
  - intros H. by apply not_elem_of_nil in H.
  - intros H. apply elem_of_app in H as [H|H].
    + destruct (holds p pk); [|by apply not_elem_of_nil in H].
      apply list_elem_of_singleton in H. lia.
    + apply IH in H. lia.
Qed.

Lemma hold_app (L : list Package) (X : Package) (p : string) :
  hold (L ++ [X]) p = hold L p ++ (if holds p X then [pkg_name X] else []).
Proof.
  unfold hold. rewrite List.filter_app, map_app. simpl. destruct (holds p X); done.
Qed.

Lemma hold_idx_names_from (pre : list string) (L : list Package) (p : string) :
  map (fun j => nth j (pre ++ map pkg_name L) ""%string) (hold_idx_from (length pre) L p) =
  hold L p.
Proof.
  revert pre. induction L as [|pk L IH]; intros pre; simpl; [done|].
  unfold hold in *. simpl. rewrite map_app.
  specialize (IH (pre ++ [pkg_name pk])). rewrite length_app, <- app_assoc in IH.
  simpl in IH. rewrite Nat.add_1_r in IH. rewrite IH.
  destruct (holds p pk); simpl; [|done].
  rewrite app_nth2, Nat.sub_diag by lia. done.
Qed.

Lemma hold_idx_names (L : list Package) (p : string) :
  map (fun j => nth j (map pkg_name L) ""%string) (hold_idx L p) = hold L p.
Proof. apply (hold_idx_names_from []). Qed.

Lemma length_hold (L : list Package) (p : string) :
  length (hold_idx L p) = length (hold L p).
Proof. rewrite <- hold_idx_names, length_map. done. Qed.

Lemma holds_spec (p : string) (pkg : Package) : holds p pkg = true <-> p ∈ pkg_paths pkg.
Proof. apply contains_spec. Qed.

Lemma elem_of_hold (L : list Package) (p n : string) :
  n ∈ hold L p <-> exists pk, pk ∈ L /\ pkg_name pk = n /\ p ∈ pkg_paths pk.
Proof.
  unfold hold. rewrite list_elem_of_In, in_map_iff. split.
  - intros (pk & <- & Hin). apply filter_In in Hin as [Hin Hh].
    apply holds_spec in Hh. exists pk. rewrite list_elem_of_In. done.
  - intros (pk & Hin & <- & Hp). exists pk. split; [done|].
    apply filter_In. rewrite <- list_elem_of_In, holds_spec. done.
Qed.

Lemma last_opt_app1 {A} (l : list A) (x : A) : last_opt (l ++ [x]) = Some x.
Proof.
  induction l as [|y l IH]; [done|]. simpl. rewrite IH.
  destruct l; done.
Qed.

Lemma last_opt_nonempty {A} (l : list A) :
  l <> [] -> exists x, last_opt l = Some x /\ x ∈ l.
Proof.
  intros Hl. destruct (exists_last Hl) as (l' & x & ->).
  exists x. rewrite last_opt_app1. split; [done|]. apply elem_of_app. right. by left.
Qed.

Lemma last_opt_map {A B} (f : A -> B) (l : list A) :
  last_opt (map f l) = option_map f (last_opt l).
Proof.
  induction l as [|x l IH]; [done|]. simpl. rewrite IH.
  destruct l; done.
Qed.

Lemma enumerate_from_snd {A} (i : nat) (l : list A) : map snd (enumerate_from i l) = l.
Proof. revert i. induction l as [|x l IH]; intros i; simpl; [done|]. by rewrite IH. Qed.

Lemma enumerate_from_lookup {A} (i : nat) (l : list A) (j : nat) (x : A) :
  (j, x) ∈ enumerate_from i l -> i <= j /\ l !! (j - i) = Some x.
Proof.
  revert i. induction l as [|y l IH]; intros i; simpl.
  - intros H. by apply not_elem_of_nil in H.
  - intros H. apply elem_of_cons in H as [[= -> ->]|H].
    + rewrite Nat.sub_diag. done.
    + apply IH in H as [Hle Hl]. split; [lia|].
      replace (j - i) with (S (j - S i)) by lia. done.
Qed.

Lemma filter_snd_map {A} (f : A -> bool) (l : list (nat * A)) :
  map snd (List.filter (fun '(_, n) => f n) l) = List.filter f (map snd l).
Proof.
  induction l as [|[i x] l IH]; [done|]. simpl. destruct (f x); simpl; by rewrite IH.
Qed.

Lemma find_name_spec (n : string) (l : list (nat * string)) :
  n ∈ map snd l -> exists i, find_name n l = Some (i, n) /\ (i, n) ∈ l.
Proof.
  induction l as [|[i m] l IH]; simpl.
  - intros H. by apply not_elem_of_nil in H.
  - destruct (String.eqb m n) eqn:E.
    + intros _. apply String.eqb_eq in E as ->. exists i. split; [done | by left].
    + intros H. apply elem_of_cons in H as [->|H].
      * rewrite String.eqb_refl in E. done.
      * destruct (IH H) as (j & Hj & Hin). exists j. split; [done | by right].
Qed.

Lemma filter_Permutation_bool {A} (f : A -> bool) (l l' : list A) :
  l ≡ₚ l' -> List.filter f l ≡ₚ List.filter f l'.
Proof.
  induction 1; simpl.
  - done.
  - destruct (f x); [by constructor|done].
  - destruct (f x), (f y); try constructor; done.
  - by etrans.
Qed.

Lemma contains_Permutation (l l' : list string) (n : string) :
  l ≡ₚ l' -> contains l n = contains l' n.
Proof.
  intros Hp. destruct (contains l n) eqn:E1, (contains l' n) eqn:E2; try done.
  - apply contains_spec in E1. apply contains_false in E2. rewrite Hp in E1. done.
  - apply contains_false in E1. apply contains_spec in E2. rewrite Hp in E1. done.
Qed.

(** *** Registration of an install sequence *)

Lemma position_in (name : string) (l : list string) (i : nat) :
  position name l = Some i -> name ∈ l.
Proof.
  intros H. destruct (position_spec _ _ _ H) as [Hn Hi].
  rewrite <- Hn. apply list_elem_of_In. apply nth_In. done.
Qed.

Lemma registry_of_nil : registry_of [] registry_default.
Proof. split_and!; done. Qed.

Lemma register_step (L : list Package) (X : Package) (reg reg' : ClobberRegistry)
    (ren : gmap string string) :
  registry_of L reg -> pkg_name X ∉ map pkg_name L -> NoDup (pkg_paths X) ->
  register_paths reg (pkg_name X) (pkg_paths X) = (reg', ren) ->
  registry_of (L ++ [X]) reg' /\
  forall p, ren !! p =
    if holds p X then
      match hold_idx L p with [] => None | _ => Some (clobber_name p (pkg_name X)) end
    else None.
Proof.
  intros (Hn & Hpr & Hcl) Hfresh Hnd Hreg.
  unfold register_paths, name_index in Hreg.
  destruct (position (pkg_name X) (package_names reg)) as [i|] eqn:Hpos.
  { apply position_in in Hpos. rewrite Hn in Hpos. done. }
  pose proof (register_fold_spec (length (package_names reg)) (pkg_paths X) Hnd
                (mkRegistry (paths_registry reg) (clobbers reg)
                            (package_names reg ++ [pkg_name X])) ∅) as Hf.
  rewrite Hreg in Hf. destruct Hf as [Hn' Hf]. simpl in Hn'.
  rewrite Hn in Hf. rewrite length_map in Hf.
  unfold owner_after, clobbers_after, rename_after in Hf. simpl in Hf.
  split; [split_and!|].
  - rewrite Hn', Hn, map_app. done.
  - intros p. rewrite hold_idx_app. destruct (Hf p) as [Hin Hout].
    destruct (holds p X) eqn:Hh.
    + apply holds_spec in Hh. destruct (Hin Hh) as (A & _ & _). rewrite A, Hpr.
      destruct (hold_idx L p); done.
    + apply contains_false in Hh. destruct (Hout Hh) as (A & _ & _). rewrite A, Hpr, app_nil_r. done.
  - intros p. rewrite hold_idx_app. destruct (Hf p) as [Hin Hout].
    destruct (holds p X) eqn:Hh.
    + apply holds_spec in Hh. destruct (Hin Hh) as (_ & A & _). rewrite A, Hpr, Hcl.
      destruct (hold_idx L p) as [|e rest] eqn:Hl; [done|]. simpl.
      assert (e < length L) as He.
      { pose proof (hold_idx_from_bound 0 L p e) as Hb. unfold hold_idx in Hl. rewrite Hl in Hb.
        assert (e ∈ e :: rest) as Hel by left. apply Hb in Hel. lia. }
      assert (Nat.eqb e (length L) = false) as Hne by (apply Nat.eqb_neq; lia).
      rewrite Hne. destruct rest as [|e' rest]; simpl; [done|].
      simpl. done.
    + apply contains_false in Hh. destruct (Hout Hh) as (_ & A & _). rewrite A, Hcl, app_nil_r. done.
  - intros p. destruct (Hf p) as [Hin Hout].
    destruct (holds p X) eqn:Hh.
    + apply holds_spec in Hh. destruct (Hin Hh) as (_ & _ & A). rewrite A, Hpr.
      destruct (hold_idx L p) as [|e rest] eqn:Hl; [done|]. simpl.
      assert (e < length L) as He.
      { pose proof (hold_idx_from_bound 0 L p e) as Hb. unfold hold_idx in Hl. rewrite Hl in Hb.
        assert (e ∈ e :: rest) as Hel by left. apply Hb in Hel. lia. }
      assert (Nat.eqb e (length L) = false) as Hne by (apply Nat.eqb_neq; lia).
      rewrite Hne, app_nth2, length_map, Nat.sub_diag by (rewrite length_map; lia). done.
    + apply contains_false in Hh. destruct (Hout Hh) as (_ & _ & A). done.
Qed.

(** C3. [register_paths name paths], for a package whose paths are distinct
    (a [paths.json] lists each path once), with [name_idx] the index of [name]
    (reused, or appended): an input path owned by another index gets the rename
    [p -> p__clobber-from-name] and [clobbers[p]] becomes the old list, or
    [[owner]] when there was none, with [name_idx] appended, the owner being
    kept; an unowned input path becomes owned by [name_idx], without rename; an
    input path owned by [name_idx] itself is skipped (no rename, no change);
    other paths get no rename and keep their entries. *)
Theorem register_paths_spec (reg : ClobberRegistry) (name : string) (paths : list string) :
  NoDup paths ->
  let '(_, name_idx) := name_index reg name in
  let '(reg', ren) := register_paths reg name paths in
  nth name_idx (package_names reg') ""%string = name /\
  forall p,
    (p ∈ paths -> forall e, paths_registry reg !! p = Some e -> e <> name_idx ->
       ren !! p = Some (clobber_name p name) /\
       clobbers reg' !! p = Some (default [e] (clobbers reg !! p) ++ [name_idx]) /\
       paths_registry reg' !! p = Some e) /\
    (p ∈ paths -> paths_registry reg !! p = None ->
       ren !! p = None /\ paths_registry reg' !! p = Some name_idx /\
       clobbers reg' !! p = clobbers reg !! p) /\
    (p ∈ paths -> paths_registry reg !! p = Some name_idx ->
       ren !! p = None /\ paths_registry reg' !! p = Some name_idx /\
       clobbers reg' !! p = clobbers reg !! p) /\
    (p ∉ paths ->
       ren !! p = None /\ paths_registry reg' !! p = paths_registry reg !! p /\
       clobbers reg' !! p = clobbers reg !! p).
Proof.
  intros Hnd. unfold register_paths.
  pose proof (name_index_spec reg name) as Hni.
  destruct (name_index reg name) as [reg1 idx].
  destruct Hni as (Hpr & Hcl & Hnth & _).
  pose proof (register_fold_spec idx paths Hnd reg1 ∅) as Hf.
  destruct (foldl (register_path idx) (reg1, ∅) paths) as [reg' ren].
  destruct Hf as [Hn Hf]. rewrite Hn. split; [done|]. intros p.
  destruct (Hf p) as [Hin Hout].
  unfold owner_after, clobbers_after, rename_after in Hin.
  rewrite Hpr, Hcl in Hin. rewrite Hpr, Hcl in Hout.
  split_and!.
  - intros Hp e He Hne. destruct (Hin Hp) as (A1 & A2 & A3).
    rewrite He in A1, A2, A3. apply Nat.eqb_neq in Hne. rewrite Hne in A2, A3.
    rewrite Hnth in A3. done.
  - intros Hp He. destruct (Hin Hp) as (A1 & A2 & A3). rewrite He in A1, A2, A3.
    rewrite lookup_empty in A3. done.
  - intros Hp He. destruct (Hin Hp) as (A1 & A2 & A3). rewrite He in A1, A2, A3.
    rewrite Nat.eqb_refl in A2, A3. rewrite lookup_empty in A3. done.
  - intros Hp. destruct (Hout Hp) as (A1 & A2 & A3). rewrite lookup_empty in A3. done.
Qed.

(** *** Linking into free destinations *)

Lemma link_package_fresh (pol : on_existing) (name : string) (ren : gmap string string)
    (ps : list string) :
  NoDup ps ->
  (forall p p', p ∈ ps -> p' ∈ ps -> link_dest ren p = link_dest ren p' -> p = p') ->
  forall fs, (forall p, p ∈ ps -> fs !! link_dest ren p = None) ->
  exists fs', link_package pol name ren ps fs = Ok fs' /\
    (forall p, p ∈ ps -> fs' !! link_dest ren p = Some (name, p)) /\
    (forall q, (forall p, p ∈ ps -> link_dest ren p <> q) -> fs' !! q = fs !! q).
Proof.
  induction ps as [|a ps IH]; intros Hnd Hinj fs Hfree; simpl.
  - exists fs. split_and!; [done | intros p Hp; by apply not_elem_of_nil in Hp | done].
  - apply NoDup_cons in Hnd as [Ha Hnd].
    assert (forall p, p ∈ ps -> link_dest ren p <> link_dest ren a) as Hne.
    { intros p Hp Heq. apply Hinj in Heq; [subst; done | by right | by left]. }
    unfold link_file at 1. rewrite (Hfree a) by by left.
    destruct (IH Hnd) with (fs := <[link_dest ren a := (name, a)]> fs) as (fs' & Hl & Hin & Hout).
    { intros p p' Hp Hp'. apply Hinj; by right. }
    { intros p Hp. rewrite lookup_insert_ne by (symmetry; by apply Hne). apply Hfree. by right. }
    exists fs'. split_and!.
    + exact Hl.
    + intros p Hp. apply elem_of_cons in Hp as [->|Hp]; [|by apply Hin].
      rewrite Hout by (intros p Hp; by apply Hne). apply lookup_insert_eq.
    + intros q Hq. rewrite Hout by (intros p Hp; apply Hq; by right).
      apply lookup_insert_ne. apply Hq. by left.
Qed.

(** *** Facts on the holders of a path *)

Lemma hold_perm (L L' : list Package) (p : string) : L ≡ₚ L' -> hold L p ≡ₚ hold L' p.
Proof. intros H. unfold hold. apply Permutation_map, filter_Permutation_bool, H. Qed.

Lemma hold_nil_perm (L L' : list Package) (p : string) :
  L ≡ₚ L' -> hold L p = [] -> hold L' p = [].
Proof. intros H E. apply Permutation_nil_r. rewrite <- (hold_perm L L' p H), E. done. Qed.

Lemma head_elem {A} (l : list A) (x : A) : head l = Some x -> x ∈ l.
Proof. destruct l; simpl; [done|]. intros [= ->]. by left. Qed.

Lemma head_hold_app (L : list Package) (X : Package) (p : string) :
  hold L p <> [] -> head (hold (L ++ [X]) p) = head (hold L p).
Proof. rewrite hold_app. destruct (hold L p); done. Qed.

Lemma hold_names (L : list Package) (p n : string) : n ∈ hold L p -> n ∈ map pkg_name L.
Proof.
  intros H. apply elem_of_hold in H as (pk & Hpk & <- & _).
  apply list_elem_of_In, in_map, list_elem_of_In, Hpk.
Qed.

Lemma all_paths_spec (U : list Package) (p : string) :
  p ∈ all_paths U <-> exists pk, pk ∈ U /\ p ∈ pkg_paths pk.
Proof.
  unfold all_paths. rewrite list_elem_of_In, in_flat_map. split.
  - intros (pk & H1 & H2). exists pk. rewrite !list_elem_of_In. done.
  - intros (pk & H1 & H2). exists pk. rewrite <- !list_elem_of_In. done.
Qed.

Lemma nonempty_elem {A} (l : list A) : l <> [] -> exists x, x ∈ l.
Proof. destruct l as [|x l]; [done|]. intros _. exists x. by left. Qed.

Lemma files_placed_ext (L : list Package) (o o' : string -> option string)
    (fs : gmap string Content) :
  (forall q, o q = o' q) -> files_placed L o fs -> files_placed L o' fs.
Proof.
  intros Ho (Ha & Hb & Hc). split_and!.
  - intros p n. rewrite <- Ho. apply Ha.
  - intros p n. rewrite <- Ho. apply Hb.
  - intros q c Hq. destruct (Hc q c Hq) as [H|(p & n & H1 & H2 & H3)]; [by left|].
    right. exists p, n. rewrite <- Ho. done.
Qed.

Lemma files_placed_perm (L L' : list Package) (o : string -> option string)
    (fs : gmap string Content) :
  L ≡ₚ L' -> files_placed L o fs -> files_placed L' o fs.
Proof.
  intros HL (Ha & Hb & Hc). split_and!.
  - done.
  - intros p n Hn. apply Hb. rewrite (hold_perm L L' p HL). done.
  - intros q c Hq. destruct (Hc q c Hq) as [H|(p & n & H1 & H2 & H3)].
    + left. intros E. apply H. apply (hold_nil_perm L' L); [by symmetry|done].
    + right. exists p, n. rewrite <- (hold_perm L L' p HL). done.
Qed.

Lemma files_placed_unique (L : list Package) (o : string -> option string)
    (fs1 fs2 : gmap string Content) :
  owner_wf L o -> files_placed L o fs1 -> files_placed L o fs2 -> fs1 = fs2.
Proof.
  intros Hwf H1 H2.
  assert (forall fs fs' : gmap string Content, files_placed L o fs -> files_placed L o fs' ->
            forall q c, fs !! q = Some c -> fs' !! q = Some c) as Hone.
  { intros fs fs' (Ha & Hb & Hc) (Ha' & Hb' & _) q c Hq.
    destruct (Hc q c Hq) as [H|(p & n & -> & Hn & Ho)].
    - destruct (proj2 (Hwf q) H) as (n & Hn & _).
      rewrite (Ha q n Hn) in Hq. rewrite (Ha' q n Hn). done.
    - rewrite (Hb p n Hn Ho) in Hq. rewrite (Hb' p n Hn Ho). done. }
  apply map_eq. intros q.
  destruct (fs1 !! q) as [c|] eqn:E1.
  - symmetry. apply (Hone fs1 fs2 H1 H2 q c E1).
  - destruct (fs2 !! q) as [c|] eqn:E2; [|done].
    rewrite (Hone fs2 fs1 H2 H1 q c E2) in E1. done.
Qed.

Lemma fs_rename_some (fs : gmap string Content) (a b : string) (c : Content) :
  fs !! a = Some c -> fs_rename fs a b = Ok (<[b := c]> (delete a fs)).
Proof. intros H. unfold fs_rename. rewrite H. done. Qed.

Lemma files_placed_nil : files_placed [] (fun p => head (hold [] p)) ∅.
Proof.
  split_and!.
  - intros p n H. done.
  - intros p n H. by apply not_elem_of_nil in H.
  - intros q c H. by rewrite lookup_empty in H.
Qed.

Lemma owner_wf_head (L : list Package) : owner_wf L (fun p => head (hold L p)).
Proof.
  intros p. split.
  - intros ->. done.
  - destruct (hold L p) as [|n l]; [done|]. intros _. exists n. split; [done|by left].
Qed.

Lemma fmap_map_list {A B} (f : A -> B) (l : list A) : f <$> l = map f l.
Proof. induction l as [|x l IH]; [done|]. simpl. rewrite <- IH. done. Qed.

Lemma clobber_keys_spec (reg : ClobberRegistry) (p : string) :
  p ∈ clobber_keys reg <-> clobbers reg !! p <> None.
Proof.
  unfold clobber_keys. rewrite list_elem_of_In, in_map_iff. split.
  - intros ([k v] & <- & Hin). simpl. apply list_elem_of_In, elem_of_map_to_list in Hin.
    rewrite Hin. done.
  - destruct (clobbers reg !! p) as [v|] eqn:E; [|done]. intros _.
    exists (p, v). split; [done|]. apply list_elem_of_In, elem_of_map_to_list, E.
Qed.

Lemma clobber_keys_NoDup (reg : ClobberRegistry) : NoDup (clobber_keys reg).
Proof. unfold clobber_keys. rewrite <- fmap_map_list. apply NoDup_fst_map_to_list. Qed.

Lemma sorted_winner_perm (sn l l' : list string) :
  l ≡ₚ l' -> sorted_winner sn l = sorted_winner sn l'.
Proof.
  intros H. unfold sorted_winner. f_equal. apply List.filter_ext.
  intros n. apply contains_Permutation, H.
Qed.

Lemma sorted_winner_spec (sn l : list string) :
  (exists n, n ∈ l) -> (forall n, n ∈ l -> n ∈ sn) ->
  exists w, sorted_winner sn l = Some w /\ w ∈ l.
Proof.
  intros (n & Hn) Hsub. unfold sorted_winner.
  destruct (last_opt_nonempty (List.filter (contains l) sn)) as (w & Hw & Hin).
  { intros E. assert (n ∈ List.filter (contains l) sn) as Hf.
    { apply list_elem_of_In, filter_In. split; [apply list_elem_of_In, Hsub, Hn|].
      apply contains_spec, Hn. }
    rewrite E in Hf. by apply not_elem_of_nil in Hf. }
  exists w. split; [done|]. apply list_elem_of_In, filter_In in Hin as [_ Hc].
  apply contains_spec, Hc.
Qed.

(** *** Install order and the post-process *)
Section Determinism.

Variable U : list Package.
Variable sorted_prefix_records : list PrefixRecord.

(** The set of packages: distinct names, each [paths.json] lists a path once. *)
Hypothesis U_names : NoDup (map pkg_name U).
Hypothesis U_paths : Forall (fun pk => NoDup (pkg_paths pk)) U.
(** No package path is the clobber name of a path of the set. *)
Hypothesis U_fresh :
  Forall (fun p => Forall (fun q => Forall (fun n => p <> clobber_name q n)
    (map pkg_name U)) (all_paths U)) (all_paths U).
(** Clobber names of distinct (path, package) pairs of the set differ. *)
Hypothesis U_inj :
  Forall (fun p => Forall (fun p' => Forall (fun n => Forall (fun n' =>
    clobber_name p n = clobber_name p' n' -> p = p' /\ n = n')
    (map pkg_name U)) (map pkg_name U)) (all_paths U)) (all_paths U).
(** Every installed package has a prefix record. *)
Hypothesis U_sorted : Forall (fun n => n ∈ map pr_name sorted_prefix_records) (map pkg_name U).

Let sn := map pr_name sorted_prefix_records.

Lemma fresh (p q n : string) :
  p ∈ all_paths U -> q ∈ all_paths U -> n ∈ map pkg_name U -> p <> clobber_name q n.
Proof.
  intros Hp Hq Hn. rewrite Forall_forall in U_fresh.
  specialize (U_fresh p Hp). rewrite Forall_forall in U_fresh.
  specialize (U_fresh q Hq). rewrite Forall_forall in U_fresh. by apply U_fresh.
Qed.

Lemma inj (p p' n n' : string) :
  p ∈ all_paths U -> p' ∈ all_paths U -> n ∈ map pkg_name U -> n' ∈ map pkg_name U ->
  clobber_name p n = clobber_name p' n' -> p = p' /\ n = n'.
Proof.
  intros Hp Hp' Hn Hn'. rewrite Forall_forall in U_inj.
  specialize (U_inj p Hp). rewrite Forall_forall in U_inj.
  specialize (U_inj p' Hp'). rewrite Forall_forall in U_inj.
  specialize (U_inj n Hn). rewrite Forall_forall in U_inj. by apply U_inj.
Qed.

(** Packages drawn from [U]. *)
Definition sub (L : list Package) : Prop := forall pk, pk ∈ L -> pk ∈ U.

Lemma sub_path (L : list Package) (pk : Package) (p : string) :
  sub L -> pk ∈ L -> p ∈ pkg_paths pk -> p ∈ all_paths U.
Proof. intros HL Hpk Hp. apply all_paths_spec. exists pk. split; [by apply HL|done]. Qed.

Lemma sub_name (L : list Package) (pk : Package) :
  sub L -> pk ∈ L -> pkg_name pk ∈ map pkg_name U.
Proof. intros HL Hpk. apply list_elem_of_In, in_map, list_elem_of_In, HL, Hpk. Qed.

Lemma hold_path (L : list Package) (p n : string) :
  sub L -> n ∈ hold L p -> p ∈ all_paths U /\ n ∈ map pkg_name U.
Proof.
  intros HL Hn. apply elem_of_hold in Hn as (pk & Hpk & <- & Hp).
  split; [by apply (sub_path L pk) | by apply (sub_name L)].
Qed.

Lemma hold_ne_path (L : list Package) (p : string) :
  sub L -> hold L p <> [] -> p ∈ all_paths U.
Proof. intros HL H. destruct (nonempty_elem _ H) as (n & Hn). by apply (hold_path L p n). Qed.

Lemma install_step (pol : on_existing) (L : list Package) (X : Package)
    (reg : ClobberRegistry) (fs : gmap string Content) :
  sub (L ++ [X]) -> NoDup (map pkg_name (L ++ [X])) ->
  registry_of L reg -> files_placed L (fun p => head (hold L p)) fs ->
  exists reg' fs', install_package pol (reg, fs) X = Ok (reg', fs') /\
    registry_of (L ++ [X]) reg' /\
    files_placed (L ++ [X]) (fun p => head (hold (L ++ [X]) p)) fs'.
Proof.
  intros Hsub Hnd Hreg Hfs.
  assert (X ∈ U) as HXU by (apply Hsub, elem_of_app; right; by left).
  assert (sub L) as HsubL by (intros pk Hpk; apply Hsub, elem_of_app; by left).
  rewrite map_app in Hnd. apply NoDup_app in Hnd as (_ & Hdisj & _).
  assert (pkg_name X ∉ map pkg_name L) as HxL.
  { intros H. apply (Hdisj _ H). by left. }
  assert (NoDup (pkg_paths X)) as HndX by (rewrite Forall_forall in U_paths; by apply U_paths).
  assert (forall p, p ∈ pkg_paths X -> p ∈ all_paths U) as HXp.
  { intros p Hp. apply all_paths_spec. exists X. done. }
  assert (pkg_name X ∈ map pkg_name U) as HxU.
  { apply list_elem_of_In, in_map, list_elem_of_In, HXU. }
  unfold install_package.
  set (x := pkg_name X) in *.
  destruct (register_paths reg x (pkg_paths X)) as [reg' ren] eqn:Hr.
  destruct (register_step L X reg reg' ren Hreg HxL HndX Hr) as [Hreg' Hren].
  assert (forall p, p ∈ pkg_paths X ->
            (hold L p = [] /\ link_dest ren p = p) \/
            (hold L p <> [] /\ link_dest ren p = clobber_name p x)) as Hd.
  { intros p Hp. unfold link_dest. rewrite Hren.
    assert (holds p X = true) as Hh by (apply holds_spec, Hp). rewrite Hh.
    pose proof (length_hold L p) as Hlen.
    destruct (hold_idx L p) as [|e rest]; destruct (hold L p) as [|m l]; simpl in Hlen;
      try discriminate; [left|right]; done. }
  destruct Hfs as (Ha & Hb & Hc).
  destruct (link_package_fresh pol x ren (pkg_paths X) HndX) with (fs := fs)
    as (fs' & Hl & Hin & Hout).
  { intros p p' Hp Hp' E.
    destruct (Hd p Hp) as [(H1 & E1)|(H1 & E1)], (Hd p' Hp') as [(H2 & E2)|(H2 & E2)];
      rewrite E1, E2 in E.
    - done.
    - exfalso. by apply (fresh p p' x); [apply HXp | apply HXp | |].
    - exfalso. by apply (fresh p' p x); [apply HXp | apply HXp | |].
    - by apply (inj p p' x x (HXp p Hp) (HXp p' Hp') HxU HxU E). }
  { intros p Hp. destruct (fs !! link_dest ren p) as [c|] eqn:E; [exfalso|done].
    destruct (Hd p Hp) as [(H1 & E1)|(H1 & E1)]; rewrite E1 in E;
      destruct (Hc _ _ E) as [H|(q & n & Hq & Hn & Ho)].
    - done.
    - destruct (hold_path L q n HsubL Hn). by apply (fresh p q n); [apply HXp| | |].
    - apply (fresh (clobber_name p x) p x); [|apply HXp| |]; try done.
      by apply (hold_ne_path L).
    - destruct (hold_path L q n HsubL Hn) as [HqU HnU].
      destruct (inj p q x n (HXp p Hp) HqU HxU HnU Hq) as [_ <-].
      by apply HxL, (hold_names L q). }
  exists reg', fs'. rewrite Hl. split_and!; [done|done|].
  assert (forall p, p ∈ all_paths U -> hold L p <> [] ->
            forall p', p' ∈ pkg_paths X -> link_dest ren p' <> p) as Hnot.
  { intros p HpU Hne p' Hp' E.
    destruct (Hd p' Hp') as [(H1 & E1)|(H1 & E1)]; rewrite E1 in E.
    - subst. done.
    - by apply (fresh p p' x); [|apply HXp| |]. }
  split_and!.
  - intros p n Hown. destruct (decide (hold L p = [])) as [He|Hne].
    + rewrite hold_app, He in Hown. destruct (holds p X) eqn:Hh; simpl in Hown; [|done].
      injection Hown as <-. apply holds_spec in Hh.
      destruct (Hd p Hh) as [(_ & E1)|(H1 & _)]; [|done].
      pose proof (Hin p Hh) as Hl'. rewrite E1 in Hl'. exact Hl'.
    + rewrite (head_hold_app L X p Hne) in Hown.
      rewrite Hout; [by apply Ha|]. apply Hnot; [by apply (hold_ne_path L)|done].
  - intros p n Hn Hown. rewrite hold_app in Hn. apply elem_of_app in Hn as [Hn|Hn].
    + assert (hold L p <> []) as Hne by (intros E; rewrite E in Hn; by apply not_elem_of_nil in Hn).
      rewrite (head_hold_app L X p Hne) in Hown.
      destruct (hold_path L p n HsubL Hn) as [HpU HnU].
      rewrite Hout; [by apply Hb|]. intros p' Hp' E.
      destruct (Hd p' Hp') as [(H1 & E1)|(H1 & E1)]; rewrite E1 in E.
      * by apply (fresh p' p n); [apply HXp| | |].
      * destruct (inj p' p x n (HXp p' Hp') HpU HxU HnU E) as [_ <-].
        by apply HxL, (hold_names L p).
    + destruct (holds p X) eqn:Hh; [|by apply not_elem_of_nil in Hn].
      apply list_elem_of_singleton in Hn. subst n. apply holds_spec in Hh.
      destruct (Hd p Hh) as [(H1 & _)|(H1 & E1)].
      * rewrite hold_app, H1 in Hown. simpl in Hown. rewrite (proj2 (holds_spec p X) Hh) in Hown.
        done.
      * pose proof (Hin p Hh) as Hl'. rewrite E1 in Hl'. exact Hl'.
  - intros q c Hq.
    destruct (decide (q ∈ map (link_dest ren) (pkg_paths X))) as [Hm|Hm].
    + apply list_elem_of_In, in_map_iff in Hm as (p & <- & Hp). apply list_elem_of_In in Hp.
      assert (x ∈ hold (L ++ [X]) p) as HxH.
      { rewrite hold_app, (proj2 (holds_spec p X) Hp). apply elem_of_app. right. by left. }
      destruct (Hd p Hp) as [(H1 & E1)|(H1 & E1)]; rewrite E1.
      * left. intros E. rewrite E in HxH. by apply not_elem_of_nil in HxH.
      * right. exists p, x. split_and!; [done|done|].
        rewrite (head_hold_app L X p H1). intros E. apply head_elem, hold_names in E. done.
    + rewrite Hout in Hq.
      2:{ intros p Hp E. apply Hm. subst. apply list_elem_of_In, in_map, list_elem_of_In, Hp. }
      destruct (Hc q c Hq) as [H|(p & n & -> & Hn & Ho)].
      * left. rewrite hold_app. intros E. apply app_eq_nil in E as [E _]. done.
      * right. exists p, n. split_and!; [done| |].
        -- rewrite hold_app. apply elem_of_app. by left.
        -- assert (hold L p <> []) as Hne by (intros E; rewrite E in Hn; by apply not_elem_of_nil in Hn).
           rewrite (head_hold_app L X p Hne). done.
Qed.

Lemma install_all_spec (pol : on_existing) (ops L : list Package) :
  forall reg fs,
  sub (L ++ ops) -> NoDup (map pkg_name (L ++ ops)) ->
  registry_of L reg -> files_placed L (fun p => head (hold L p)) fs ->
  exists reg' fs', install_all pol (reg, fs) ops = Ok (reg', fs') /\
    registry_of (L ++ ops) reg' /\
    files_placed (L ++ ops) (fun p => head (hold (L ++ ops) p)) fs'.
Proof.
  revert L. induction ops as [|X ops IH]; intros L reg fs Hsub Hnd Hreg Hfs; cbn [install_all].
  - rewrite app_nil_r. exists reg, fs. done.
  - replace (L ++ X :: ops) with ((L ++ [X]) ++ ops) in * by (rewrite <- app_assoc; done).
    destruct (install_step pol L X reg fs) as (reg1 & fs1 & Hi & Hreg1 & Hfs1); try done.
    + intros pk Hpk. apply Hsub, elem_of_app. by left.
    + rewrite map_app in Hnd. apply NoDup_app in Hnd as (Hnd & _ & _). done.
    + rewrite Hi. cbn [mbind outcome_bind obind].
      apply (IH (L ++ [X]) reg1 fs1); done.
Qed.

Lemma unclobber_path_step (L : list Package) (reg : ClobberRegistry)
    (owner : string -> option string) (fs : gmap string Content)
    (meta : gmap string PrefixRecord) (p : string) :
  sub L -> registry_of L reg -> owner_wf L owner -> files_placed L owner fs ->
  2 <= length (hold L p) -> owner p = head (hold L p) ->
  exists st', unclobber_path (package_names reg) sorted_prefix_records (mkPrefix fs meta) p
                (default [] (clobbers reg !! p)) = Ok st' /\
    files_placed L (fupd owner p (sorted_winner sn (hold L p))) (prefix_files st').
Proof.
  intros Hsub (Hn & _ & Hcl) Hwf (Ha & Hb & Hc) Hlen Hown.
  assert (hold L p <> []) as Hne by (intros E; rewrite E in Hlen; simpl in Hlen; lia).
  assert (p ∈ all_paths U) as HpU by (by apply (hold_ne_path L)).
  assert (forall n, n ∈ hold L p -> n ∈ map pkg_name U) as HnU.
  { intros n H. apply (hold_path L p n Hsub H). }
  destruct (sorted_winner_spec sn (hold L p)) as (w & Hw & Hwin).
  { by apply nonempty_elem. }
  { intros n H. apply HnU in H. rewrite Forall_forall in U_sorted. by apply U_sorted. }
  rewrite Hw, Hcl. rewrite <- length_hold in Hlen.
  assert (Nat.leb 2 (length (hold_idx L p)) = true) as Hle by (apply Nat.leb_le; lia).
  rewrite Hle. simpl default. unfold unclobber_path. rewrite Hn, hold_idx_names.
  set (sc := List.filter (fun '(_, n) => contains (hold L p) n) (enumerate sn)).
  assert (map snd sc = List.filter (contains (hold L p)) sn) as Hsc.
  { unfold sc. rewrite filter_snd_map. unfold enumerate. rewrite enumerate_from_snd. done. }
  assert (option_map snd (last_opt sc) = Some w) as Hlast.
  { rewrite <- last_opt_map, Hsc. exact Hw. }
  fold sn. fold sc.
  destruct (last_opt sc) as [[wi wn]|]; simpl in Hlast; [|done].
  injection Hlast as ->.
  destruct (hold L p) as [|loser rest] eqn:Hh; [done|].
  cbn iota beta. simpl in Hown.
  destruct (String.eqb w loser) eqn:Ewl.
  - apply String.eqb_eq in Ewl as ->. exists (mkPrefix fs meta). split; [done|].
    apply (files_placed_ext L owner); [|done].
    intros q. unfold fupd. destruct (String.eqb q p) eqn:E; [|done].
    apply String.eqb_eq in E as ->. done.
  - apply String.eqb_neq in Ewl.
    assert (loser ∈ hold L p) as Hlos by (rewrite Hh; by left).
    assert (w ∈ map pkg_name U) as HwU by (by apply HnU).
    assert (loser ∈ map pkg_name U) as HlU by (apply HnU; by left).
    assert (clobber_name p w <> clobber_name p loser) as Hd1.
    { intros E. apply Ewl. exact (proj2 (inj p p w loser HpU HpU HwU HlU E)). }
    assert (clobber_name p w <> p) as Hd2.
    { intros E. by apply (fresh p p w). }
    assert (clobber_name p loser <> p) as Hd3.
    { intros E. by apply (fresh p p loser). }
    cbn [prefix_files conda_meta]. rewrite (Ha p loser Hown).
    rewrite (fs_rename_some _ _ _ _ (Ha p loser Hown)).
    cbn [mbind outcome_bind obind].
    destruct (find_name_spec loser sc) as (li & Hli & _).
    { rewrite Hsc. apply list_elem_of_In, filter_In. split.
      - apply list_elem_of_In. rewrite Forall_forall in U_sorted. by apply U_sorted.
      - apply contains_spec. by left. }
    rewrite Hli. cbn [mbind outcome_bind obind prefix_files].
    assert (fs !! clobber_name p w = Some (w, p)) as Hwfs.
    { apply Hb; [by rewrite Hh|]. rewrite Hown. intros [= E]. done. }
    rewrite fs_rename_some with (c := (w, p)).
    2:{ rewrite lookup_insert_ne by done. rewrite lookup_delete_ne by done. exact Hwfs. }
    cbn [mbind outcome_bind obind].
    eexists. split; [reflexivity|]. simpl.
    set (o' := fupd owner p (Some w)).
    assert (o' p = Some w) as Ho'p by (unfold o', fupd; rewrite String.eqb_refl; done).
    assert (forall q, q <> p -> o' q = owner q) as Ho'q.
    { intros q Hq. unfold o', fupd. apply String.eqb_neq in Hq. rewrite Hq. done. }
    assert (forall q n, owner q = Some n -> q ∈ all_paths U) as HoU.
    { intros q n Hq. apply (hold_ne_path L q Hsub). intros E.
      rewrite (proj1 (Hwf q) E) in Hq. done. }
    split_and!.
    + intros q n Hq. destruct (decide (q = p)) as [->|Hqp].
      * rewrite Ho'p in Hq. injection Hq as <-. apply lookup_insert_eq.
      * rewrite Ho'q in Hq by done. pose proof (HoU q n Hq) as HqU.
        rewrite lookup_insert_ne by done.
        rewrite lookup_delete_ne by (intros E; by apply (fresh q p w)).
        rewrite lookup_insert_ne by (intros E; by apply (fresh q p loser)).
        rewrite lookup_delete_ne by done. by apply Ha.
    + intros q n Hnq Hq. destruct (hold_path L q n Hsub Hnq) as [HqU HnqU].
      destruct (decide (q = p)) as [->|Hqp].
      * rewrite Ho'p in Hq. assert (n <> w) as Hnw by (intros ->; done).
        rewrite lookup_insert_ne by (intros E; by apply (fresh p p n)).
        rewrite lookup_delete_ne by (intros E; apply Hnw; symmetry; exact (proj2 (inj p p w n HpU HpU HwU HnqU E))).
        destruct (decide (n = loser)) as [->|Hnl].
        -- apply lookup_insert_eq.
        -- rewrite lookup_insert_ne by (intros E; apply Hnl; symmetry; exact (proj2 (inj p p loser n HpU HpU HlU HnqU E))).
           rewrite lookup_delete_ne by (intros E; by apply (fresh p p n)).
           apply Hb; [done|]. rewrite Hown. intros [= E]. done.
      * rewrite Ho'q in Hq by done.
        rewrite lookup_insert_ne by (intros E; by apply (fresh p q n)).
        rewrite lookup_delete_ne by (intros E; apply Hqp; symmetry; exact (proj1 (inj p q w n HpU HqU HwU HnqU E))).
        rewrite lookup_insert_ne by (intros E; apply Hqp; symmetry; exact (proj1 (inj p q loser n HpU HqU HlU HnqU E))).
        rewrite lookup_delete_ne by (intros E; by apply (fresh p q n)).
        by apply Hb.
    + intros r c Hr. destruct (decide (r = p)) as [->|Hrp]; [left; by rewrite Hh|].
      rewrite lookup_insert_ne in Hr by done.
      destruct (decide (r = clobber_name p w)) as [->|Hrw].
      { rewrite lookup_delete_eq in Hr. done. }
      rewrite lookup_delete_ne in Hr by done.
      destruct (decide (r = clobber_name p loser)) as [->|Hrl].
      { right. exists p, loser. split_and!; [done|done|]. rewrite Ho'p. intros [= E]. done. }
      rewrite lookup_insert_ne in Hr by done. rewrite lookup_delete_ne in Hr by done.
      destruct (Hc r c Hr) as [H|(p0 & n0 & -> & Hn0 & Ho0)]; [by left|].
      right. exists p0, n0. split_and!; [done|done|].
      destruct (decide (p0 = p)) as [->|Hp0].
      * rewrite Ho'p. intros [= E]. subst. done.
      * rewrite Ho'q by done. done.
Qed.

Lemma owner_wf_fupd (L : list Package) (owner : string -> option string) (p : string) :
  sub L -> owner_wf L owner -> 2 <= length (hold L p) ->
  owner_wf L (fupd owner p (sorted_winner sn (hold L p))).
Proof.
  intros Hsub Hwf Hlen q. unfold fupd. destruct (String.eqb q p) eqn:E; [|apply Hwf].
  apply String.eqb_eq in E as ->.
  assert (hold L p <> []) as Hne by (intros E; rewrite E in Hlen; simpl in Hlen; lia).
  destruct (sorted_winner_spec sn (hold L p)) as (w & Hw & Hwin).
  { by apply nonempty_elem. }
  { intros n H. apply (hold_path L p n Hsub) in H as [_ H].
    rewrite Forall_forall in U_sorted. by apply U_sorted. }
  split; [done|]. intros _. exists w. done.
Qed.

Lemma unclobber_loop (L : list Package) (reg : ClobberRegistry) (keys : list string) :
  forall owner fs meta,
  sub L -> registry_of L reg -> NoDup keys ->
  (forall k, k ∈ keys -> 2 <= length (hold L k) /\ owner k = head (hold L k)) ->
  owner_wf L owner -> files_placed L owner fs ->
  exists st', unclobber_in_order reg sorted_prefix_records keys (mkPrefix fs meta) = Ok st' /\
    files_placed L (fun q => if decide (q ∈ keys) then sorted_winner sn (hold L q) else owner q)
      (prefix_files st').
Proof.
  induction keys as [|k keys IH]; intros owner fs meta Hsub Hreg Hnd Hk Hwf Hfs;
    cbn [unclobber_in_order].
  - exists (mkPrefix fs meta). split; [done|].
    apply (files_placed_ext L owner); [|done].
    intros q. rewrite decide_False; [done|]. apply not_elem_of_nil.
  - apply NoDup_cons in Hnd as [Hkn Hnd].
    destruct (Hk k) as [Hlen Hown]; [by left|].
    destruct (unclobber_path_step L reg owner fs meta k Hsub Hreg Hwf Hfs Hlen Hown)
      as ([fs1 meta1] & Hst & Hfs1).
    rewrite Hst. cbn [mbind outcome_bind obind].
    destruct (IH (fupd owner k (sorted_winner sn (hold L k))) fs1 meta1) as (st' & Hrun & Hfs');
      try done.
    + intros k' Hk'. destruct (Hk k') as [H1 H2]; [by right|]. split; [done|].
      unfold fupd. destruct (String.eqb k' k) eqn:E; [|done].
      apply String.eqb_eq in E as ->. done.
    + by apply owner_wf_fupd.
    + exists st'. split; [done|].
      eapply files_placed_ext; [|exact Hfs'].
      intros q. unfold fupd. destruct (String.eqb q k) eqn:E.
      * apply String.eqb_eq in E as ->. rewrite decide_False by done.
        rewrite decide_True by by left. done.
      * apply String.eqb_neq in E.
        destruct (decide (q ∈ keys)) as [Hq|Hq].
        -- rewrite decide_True by by right. done.
        -- rewrite decide_False; [done|]. intros H. apply elem_of_cons in H as [H|H]; done.
Qed.

Lemma perm_short (l l' : list string) : l ≡ₚ l' -> length l' < 2 -> l = l'.
Proof.
  intros Hp Hl. destruct l' as [|a [|b l']].
  - by apply Permutation_nil_r.
  - by apply Permutation_singleton_r.
  - simpl in Hl. lia.
Qed.

Lemma owner_wf_final : owner_wf U (final_owner sn U).
Proof.
  intros p. unfold final_owner. split.
  - intros ->. done.
  - intros Hne. destruct (Nat.leb 2 (length (hold U p))) eqn:E.
    + destruct (sorted_winner_spec sn (hold U p)) as (w & Hw & Hwin).
      { by apply nonempty_elem. }
      { intros n H. apply (hold_path U p n) in H as [_ H]; [|by intros pk Hpk].
        rewrite Forall_forall in U_sorted. by apply U_sorted. }
      exists w. done.
    + destruct (hold U p) as [|n l]; [done|]. exists n. split; [done|by left].
Qed.

(** The files after the Install operations [π] and the post-process, for any
    iteration order of [clobbers]: the final owner of every path is placed. *)
Lemma post_process_spec (pol : on_existing) (π : list Package) :
  π ≡ₚ U ->
  (exists fs, executes pol π sorted_prefix_records fs) /\
  (forall fs, executes pol π sorted_prefix_records fs -> files_placed U (final_owner sn U) fs).
Proof.
  intros Hπ.
  assert (sub π) as Hsub by (intros pk Hpk; by rewrite <- Hπ).
  assert (NoDup (map pkg_name π)) as Hnd by (by rewrite (Permutation_map pkg_name Hπ)).
  destruct (install_all_spec pol π [] registry_default ∅ Hsub Hnd registry_of_nil files_placed_nil)
    as (reg & fs0 & Hinst & Hreg & Hfs0).
  simpl in Hreg, Hfs0.
  assert (forall keys, keys ≡ₚ clobber_keys reg -> forall meta, exists st',
            unclobber_in_order reg sorted_prefix_records keys (mkPrefix fs0 meta) = Ok st' /\
            files_placed U (final_owner sn U) (prefix_files st')) as Hrun.
  { intros keys Hkeys meta.
    destruct (unclobber_loop π reg keys (fun p => head (hold π p)) fs0 meta)
      as (st' & Hst & Hfs'); try done.
    - rewrite Hkeys. apply clobber_keys_NoDup.
    - intros k Hk. rewrite Hkeys in Hk. apply clobber_keys_spec in Hk.
      destruct Hreg as (_ & _ & Hcl). rewrite Hcl in Hk.
      destruct (Nat.leb 2 (length (hold_idx π k))) eqn:E; [|done].
      apply Nat.leb_le in E. rewrite <- length_hold. done.
    - apply owner_wf_head.
    - exists st'. split; [done|].
      apply (files_placed_perm π U); [done|].
      eapply files_placed_ext; [|exact Hfs'].
      intros q. unfold final_owner.
      pose proof (hold_perm π U q Hπ) as Hh.
      rewrite <- (Permutation_length Hh).
      assert (q ∈ keys <-> 2 <= length (hold π q)) as Hkq.
      { rewrite Hkeys, clobber_keys_spec. destruct Hreg as (_ & _ & Hcl). rewrite Hcl.
        rewrite <- length_hold. destruct (Nat.leb 2 (length (hold_idx π q))) eqn:E.
        - apply Nat.leb_le in E. done.
        - apply Nat.leb_gt in E. split; [done|lia]. }
      destruct (decide (q ∈ keys)) as [Hq|Hq].
      + apply Hkq in Hq. apply Nat.leb_le in Hq. rewrite Hq. apply sorted_winner_perm, Hh.
      + assert (Nat.leb 2 (length (hold π q)) = false) as E.
        { apply Nat.leb_gt. destruct (Nat.lt_ge_cases (length (hold π q)) 2); [done|].
          exfalso. by apply Hq, Hkq. }
        rewrite E. apply Nat.leb_gt in E.
        rewrite (perm_short (hold π q) (hold U q)); [done|done|].
        by rewrite <- (Permutation_length Hh). }
  split.
  - destruct (Hrun (clobber_keys reg) ltac:(done) ∅) as ([fs meta] & Hst & _).
    exists fs, reg, fs0, (clobber_keys reg), meta. done.
  - intros fs (reg' & fs0' & keys & meta & Hinst' & Hkeys & Hun).
    rewrite Hinst in Hinst'. injection Hinst' as <- <-.
    destruct (Hrun keys Hkeys ∅) as (st' & Hst & Hfs').
    rewrite Hun in Hst. injection Hst as <-. exact Hfs'.
Qed.

(** C1 (amended). For a set [U] of packages with distinct names, each listing
    a path once, no package path being the clobber name
    [q__clobber-from-n] of a path [q] and a package [n] of the set, distinct
    pairs (path, package) having distinct clobber names, and every package
    having a prefix record: executing the Install operations of [U] in any
    order and then the post-process succeeds, and ends with the same package
    files, whatever the order and whatever the iteration order of the
    [clobbers] map. *)
Theorem install_order_independent (pol : on_existing) (π1 π2 : list Package) :
  π1 ≡ₚ U -> π2 ≡ₚ U ->
  (exists fs, executes pol π1 sorted_prefix_records fs) /\
  (forall fs1 fs2, executes pol π1 sorted_prefix_records fs1 ->
     executes pol π2 sorted_prefix_records fs2 -> fs1 = fs2).
Proof.
  intros H1 H2. split; [apply (post_process_spec pol π1 H1)|].
  intros fs1 fs2 E1 E2.
  apply (files_placed_unique U (final_owner sn U)); [apply owner_wf_final| |].
  - by apply (post_process_spec pol π1 H1).
  - by apply (post_process_spec pol π2 H2).
Qed.

End Determinism.

(** *** Examples *)
Import ClobberExamples.

(** A closed equation between two terms of the same value. *)
Ltac eval_eq :=
  lazymatch goal with
  | |- ?lhs = _ => vm_cast_no_check (@eq_refl _ lhs)
  end.

(** The run of a transaction, with the values named by the computations that
    produce them. *)
Ltac run_executes :=
  lazymatch goal with
  | |- exists fs, executes ?pol ?ops ?recs fs =>
      let st := constr:(outcome_default (registry_default, ∅) (install_all pol (registry_default, ∅) ops)) in
      let pre := constr:(outcome_default (mkPrefix ∅ ∅)
                   (unclobber_in_order st.1 recs (clobber_keys st.1) (mkPrefix st.2 ∅))) in
      exists (prefix_files pre), st.1, st.2, (clobber_keys st.1), (conda_meta pre);
      split; [eval_eq|]; split; [reflexivity|eval_eq]
  end.

(** Every run of a transaction with one clobbered path ends with the same
    files. *)
Ltac executes_inv H :=
  let reg := fresh "reg" in let fs0 := fresh "fs0" in let keys := fresh "keys" in
  let meta := fresh "meta" in let Hi := fresh "Hi" in let Hk := fresh "Hk" in
  let Hu := fresh "Hu" in
  destruct H as (reg & fs0 & keys & meta & Hi & Hk & Hu);
  lazymatch type of Hi with
  | install_all ?pol ?st0 ?ops = _ =>
      let st := constr:(outcome_default st0 (install_all pol st0 ops)) in
      let E := fresh "E" in
      assert (E : install_all pol st0 ops = Ok (st.1, st.2)) by eval_eq;
      rewrite E in Hi; clear E; injection Hi as <- <-
  end;
  vm_compute in Hk; apply Permutation_singleton_r in Hk; subst keys;
  lazymatch type of Hu with
  | unclobber_in_order ?reg ?recs ?ks ?pre0 = _ =>
      let pre := constr:(outcome_default pre0 (unclobber_in_order reg recs ks pre0)) in
      let E := fresh "E" in
      assert (E : unclobber_in_order reg recs ks pre0 = Ok (mkPrefix (prefix_files pre) (conda_meta pre))) by eval_eq;
      rewrite E in Hu; clear E;
      apply (f_equal (fun o => prefix_files (outcome_default (mkPrefix ∅ ∅) o))) in Hu;
      change (prefix_files (outcome_default _ (Ok (mkPrefix ?a _))) =
              prefix_files (outcome_default _ (Ok (mkPrefix ?c _)))) with (a = c) in Hu;
      subst
  end.

(** C1. The set [x: a], [y: a], [z: a__clobber-from-x]: in the order
    [x, y, z] the post-process moves [x]'s copy of [a] onto
    [a__clobber-from-x], over [z]'s file; in another order [z]'s file stays
    there (the linker replacing or keeping an existing file), or the
    transaction fails (the linker refusing to). *)
Lemma install_order_collision :
  (exists fs, executes Replace [col_x; col_y; col_z] col_records fs) /\
  (forall fs, executes Replace [col_x; col_y; col_z] col_records fs ->
     fs !! "a__clobber-from-x" = Some ("x", "a")) /\
  (exists fs, executes Replace [col_y; col_x; col_z] col_records fs) /\
  (forall fs, executes Replace [col_y; col_x; col_z] col_records fs ->
     fs !! "a__clobber-from-x" = Some ("z", "a__clobber-from-x")) /\
  (exists fs, executes KeepExisting [col_x; col_y; col_z] col_records fs) /\
  (forall fs, executes KeepExisting [col_x; col_y; col_z] col_records fs ->
     fs !! "a__clobber-from-x" = Some ("x", "a")) /\
  (exists fs, executes KeepExisting [col_y; col_z; col_x] col_records fs) /\
  (forall fs, executes KeepExisting [col_y; col_z; col_x] col_records fs ->
     fs !! "a__clobber-from-x" = Some ("z", "a__clobber-from-x")) /\
  (exists fs, executes Refuse [col_x; col_y; col_z] col_records fs) /\
  (forall fs, ~ executes Refuse [col_y; col_x; col_z] col_records fs).
Proof.
  split_and!;
    try run_executes;
    try (intros fs H; executes_inv H; eval_eq).
  intros fs (reg & fs0 & keys & meta & Hi & _). vm_compute in Hi. discriminate.
Qed.

Lemma install_order_independent_witness :
  (exists fs, executes Replace [pkg_y; pkg_x] [record_x; record_y] fs) /\
  (forall fs1 fs2, executes Replace [pkg_y; pkg_x] [record_x; record_y] fs1 ->
     executes Replace [pkg_x; pkg_y] [record_x; record_y] fs2 -> fs1 = fs2).
Proof.
  apply (install_order_independent [pkg_x; pkg_y] [record_x; record_y]).
  all: first [reflexivity | apply perm_swap | by_decision].
Defined.

Lemma register_paths_spec_witness :
  let reg := fst (register_paths registry_default "x" ["a"]) in
  let name := "y"%string in
  let paths := ["a"; "b"]%string in
  NoDup paths /\
  let '(_, name_idx) := name_index reg name in
  let '(reg', ren) := register_paths reg name paths in
  nth name_idx (package_names reg') ""%string = name /\
  forall p,
    (p ∈ paths -> forall e, paths_registry reg !! p = Some e -> e <> name_idx ->
       ren !! p = Some (clobber_name p name) /\
       clobbers reg' !! p = Some (default [e] (clobbers reg !! p) ++ [name_idx]) /\
       paths_registry reg' !! p = Some e) /\
    (p ∈ paths -> paths_registry reg !! p = None ->
       ren !! p = None /\ paths_registry reg' !! p = Some name_idx /\
       clobbers reg' !! p = clobbers reg !! p) /\
    (p ∈ paths -> paths_registry reg !! p = Some name_idx ->
       ren !! p = None /\ paths_registry reg' !! p = Some name_idx /\
       clobbers reg' !! p = clobbers reg !! p) /\
    (p ∉ paths ->
       ren !! p = None /\ paths_registry reg' !! p = paths_registry reg !! p /\
       clobbers reg' !! p = clobbers reg !! p).
Proof.
  intros reg name paths. split; [unfold paths; by_decision|].
  apply (register_paths_spec reg name paths). unfold paths. by_decision.
Defined.


(** C2. [a] and then [b] install [f1] and [f2]; [b] wins both paths. Whatever
    the order in which [unclobber] visits [f1] and [f2], the files end where
    the rule puts them, but each record is rewritten from the record of
    [sorted_prefix_records], so the record written for the second path drops
    the rewrite made for the first: the [conda-meta] record of [a] lists the
    canonical path [b] now holds, with no [original_path], and the record of
    [b] a clobber name that no longer exists. *)
Lemma unclobber_second_path_drops_record_update :
  exists reg fs0,
    install_all Replace (registry_default, ∅) [two_a; two_b] = Ok (reg, fs0) /\
    clobber_keys reg ≡ₚ ["f1"; "f2"] /\
    (exists fs meta,
       unclobber_in_order reg two_records ["f1"; "f2"] (mkPrefix fs0 ∅) = Ok (mkPrefix fs meta) /\
       fs !! "f1" = Some ("b", "f1") /\ fs !! "f1__clobber-from-a" = Some ("a", "f1") /\
       fs !! "f2" = Some ("b", "f2") /\ fs !! "f2__clobber-from-a" = Some ("a", "f2") /\
       fs !! "f1__clobber-from-b" = None /\
       meta !! "a" = Some (mkRecord "a" ["f1"; "f2__clobber-from-a"]
                             [mkEntry "f1" None; mkEntry "f2__clobber-from-a" (Some "f2")]) /\
       meta !! "b" = Some (mkRecord "b" ["f1__clobber-from-b"; "f2"]
                             [mkEntry "f1__clobber-from-b" (Some "f1"); mkEntry "f2" None])) /\
    (exists fs meta,
       unclobber_in_order reg two_records ["f2"; "f1"] (mkPrefix fs0 ∅) = Ok (mkPrefix fs meta) /\
       fs !! "f1" = Some ("b", "f1") /\ fs !! "f1__clobber-from-a" = Some ("a", "f1") /\
       fs !! "f2" = Some ("b", "f2") /\ fs !! "f2__clobber-from-a" = Some ("a", "f2") /\
       fs !! "f2__clobber-from-b" = None /\
       meta !! "a" = Some (mkRecord "a" ["f1__clobber-from-a"; "f2"]
                             [mkEntry "f1__clobber-from-a" (Some "f1"); mkEntry "f2" None]) /\
       meta !! "b" = Some (mkRecord "b" ["f1"; "f2__clobber-from-b"]
                             [mkEntry "f1" None; mkEntry "f2__clobber-from-b" (Some "f2")])).
Proof.
  set (st := outcome_default (registry_default, ∅)
               (install_all Replace (registry_default, ∅) [two_a; two_b])).
  exists st.1, st.2. split; [unfold st; eval_eq|]. split.
  { assert (E : clobber_keys st.1 = ["f1"; "f2"] \/ clobber_keys st.1 = ["f2"; "f1"])
      by (unfold st; vm_compute; auto).
    destruct E as [-> | ->]; [reflexivity | apply perm_swap]. }
  split.
  - set (pre := outcome_default (mkPrefix ∅ ∅)
                  (unclobber_in_order st.1 two_records ["f1"; "f2"] (mkPrefix st.2 ∅))).
    exists (prefix_files pre), (conda_meta pre).
    split_and!; unfold pre, st; eval_eq.
  - set (pre := outcome_default (mkPrefix ∅ ∅)
                  (unclobber_in_order st.1 two_records ["f2"; "f1"] (mkPrefix st.2 ∅))).
    exists (prefix_files pre), (conda_meta pre).
    split_and!; unfold pre, st; eval_eq.
Qed.

(** C9. When the winner of [path] is not its provisional holder and no file is
    at [path], [unclobber] skips the holder's rename and record, and still
    renames the winner's [path__clobber-from-winner] to [path]: it fails with
    the error of that rename when this file is absent too. *)
Lemma unclobber_path_canonical_absent (names : list string) (recs : list PrefixRecord)
    (st : Prefix) (path : string) (clobbered_by : list nat) (loser : string)
    (rest : list string) (winner_idx : nat) (winner : string)
    (Hnames : map (fun idx => nth idx names ""%string) clobbered_by = loser :: rest)
    (Hwin : last_opt (List.filter (fun '(_, n) => contains (loser :: rest) n)
                        (enumerate (map pr_name recs))) = Some (winner_idx, winner))
    (Hne : winner <> loser)
    (Habs : prefix_files st !! path = None) :
  unclobber_path names recs st path clobbered_by =
    match prefix_files st !! clobber_name path winner with
    | None => IoErr
    | Some c =>
        let r := rename_path_in_prefix_record (nth winner_idx recs (mkRecord "" [] []))
                   (clobber_name path winner) path false in
        Ok (mkPrefix (<[path := c]> (delete (clobber_name path winner) (prefix_files st)))
              (<[pr_name r := r]> (conda_meta st)))
    end.
Proof.
  unfold unclobber_path. rewrite Hnames, Hwin.
  apply String.eqb_neq in Hne. rewrite Hne, Habs.
  cbn [mbind outcome_bind obind]. unfold fs_rename.
  destruct (prefix_files st !! clobber_name path winner); reflexivity.
Qed.

Lemma unclobber_path_canonical_absent_witness :
  let st := mkPrefix {[ "a__clobber-from-y" := ("y", "a") ]} ∅ in
  map (fun idx => nth idx ["x"; "y"] ""%string) [0; 1] = ["x"; "y"]%string /\
  last_opt (List.filter (fun '(_, n) => contains ["x"; "y"] n)
              (enumerate (map pr_name [record_x; record_y]))) = Some (1, "y"%string) /\
  "y"%string <> "x"%string /\
  prefix_files st !! "a" = None /\
  unclobber_path ["x"; "y"] [record_x; record_y] st "a" [0; 1] =
    match prefix_files st !! clobber_name "a" "y" with
    | None => IoErr
    | Some c =>
        let r := rename_path_in_prefix_record (nth 1 [record_x; record_y] (mkRecord "" [] []))
                   (clobber_name "a" "y") "a" false in
        Ok (mkPrefix (<["a" := c]> (delete (clobber_name "a" "y") (prefix_files st)))
              (<[pr_name r := r]> (conda_meta st)))
    end.
Proof.
  intros st.
  assert (Hn : map (fun idx => nth idx ["x"; "y"] ""%string) [0; 1] = ["x"; "y"]%string)
    by reflexivity.
  assert (Hw : last_opt (List.filter (fun '(_, n) => contains ["x"; "y"] n)
              (enumerate (map pr_name [record_x; record_y]))) = Some (1, "y"%string))
    by reflexivity.
  assert (Hne : "y"%string <> "x"%string) by discriminate.
  assert (Ha : prefix_files st !! "a" = None) by (unfold st; vm_compute; reflexivity).
  split_and!; [exact Hn | exact Hw | exact Hne | exact Ha |].
  exact (unclobber_path_canonical_absent ["x"; "y"] [record_x; record_y] st "a" [0; 1]
           "x" ["y"] 1 "y" Hn Hw Hne Ha).
Defined.

(** C9. [x] and then [y] install [a], [y] wins; with neither [a] nor
    [a__clobber-from-y] in the prefix, the post-process fails. *)
Lemma unclobber_absent_files_fail :
  let reg := fst (register_paths (fst (register_paths registry_default "x" ["a"])) "y" ["a"]) in
  clobbers reg !! "a" = Some [0; 1] /\
  unclobber_in_order reg [record_x; record_y] ["a"] (mkPrefix ∅ ∅) = IoErr.
Proof. split; vm_compute; reflexivity. Qed.

Lemma register_record_paths_spec idx name ps : forall pr temp,
  let '(pr', temp') := register_record_paths idx name ps (pr, temp) in
  temp' = temp ++ flat_map (fun e => match original_path e with Some o => [(o, name)] | None => [] end) ps /\
  forall p, pr' !! p = if existsb (owns_entry p) ps then Some idx else pr !! p.
Proof.
  induction ps as [|e ps IH]; intros pr temp; cbn [register_record_paths flat_map existsb].
  - split; [rewrite app_nil_r; reflexivity|reflexivity].
  - destruct (original_path e) as [o|] eqn:Eo.
    + specialize (IH pr (temp ++ [(o, name)])).
      destruct (register_record_paths idx name ps (pr, temp ++ [(o, name)])) as [pr' temp'].
      destruct IH as [Ht Hp]. split.
      * rewrite Ht, <- app_assoc. reflexivity.
      * intros p. rewrite Hp.
        assert (He : owns_entry p e = false) by (unfold owns_entry; rewrite Eo, andb_false_r; reflexivity).
        rewrite He. reflexivity.
    + specialize (IH (<[relative_path e := idx]> pr) temp).
      destruct (register_record_paths idx name ps (<[relative_path e := idx]> pr, temp)) as [pr' temp'].
      destruct IH as [Ht Hp]. split; [exact Ht|].
      intros p. rewrite Hp.
      assert (He : owns_entry p e = String.eqb (relative_path e) p)
        by (unfold owns_entry; rewrite Eo, andb_true_r; reflexivity).
      rewrite He.
      destruct (existsb (owns_entry p) ps); [rewrite orb_true_r; reflexivity|rewrite orb_false_r].
      destruct (String.eqb (relative_path e) p) eqn:Ep; cbn [orb].
      * apply String.eqb_eq in Ep. subst p. apply lookup_insert_eq.
      * apply String.eqb_neq in Ep. apply lookup_insert_ne, Ep.
Qed.

Lemma collect_records_spec rs : forall names pr temp,
  let '(names', pr', temp') := collect_records rs names pr temp in
  names' = names ++ map pr_name rs /\
  temp' = temp ++ clobber_entries rs /\
  forall p, pr' !! p = match last_owner rs p with Some i => Some (length names + i) | None => pr !! p end.
Proof.
  induction rs as [|r rs IH]; intros names pr temp; cbn [collect_records].
  - split; [rewrite app_nil_r; reflexivity|]. split; [rewrite app_nil_r; reflexivity|reflexivity].
  - pose proof (register_record_paths_spec (length (names ++ [pr_name r]) - 1) (pr_name r) (paths_data r) pr temp) as Hr.
    destruct (register_record_paths _ _ _ _) as [pr1 temp1].
    destruct Hr as [Ht1 Hp1].
    specialize (IH (names ++ [pr_name r]) pr1 temp1).
    destruct (collect_records rs (names ++ [pr_name r]) pr1 temp1) as [[names' pr'] temp'].
    destruct IH as [Hn [Ht Hp]].
    split; [rewrite Hn, <- app_assoc; reflexivity|].
    split; [rewrite Ht, Ht1, <- app_assoc; reflexivity|].
    intros p. rewrite Hp, Hp1, length_app. cbn [length last_owner].
    destruct (last_owner rs p) as [i|]; [f_equal; lia|].
    destruct (existsb (owns_entry p) (paths_data r)); [f_equal; lia|reflexivity].
Qed.

Lemma position_some n l : n ∈ l -> exists i, position n l = Some i.
Proof.
  induction l as [|m l IH]; intros H; [apply elem_of_nil in H; contradiction|].
  cbn [position]. destruct (String.eqb m n) eqn:E; [eauto|].
  apply elem_of_cons in H as [->|H]; [rewrite String.eqb_refl in E; discriminate|].
  destruct (IH H) as [i ->]. eauto.
Qed.

Lemma add_temp_clobbers_spec names pr temp : forall cl,
  (forall x, x ∈ temp -> snd x ∈ names) ->
  exists cl', add_temp_clobbers names pr temp cl = Ok cl' /\
  forall p, cl' !! p =
    match List.filter (fun x => String.eqb (fst x) p) temp with
    | [] => cl !! p
    | l => Some (match cl !! p with Some v => v | None => option_list (pr !! p) end
                 ++ map (fun x => default 0 (position (snd x) names)) l)
    end.
Proof.
  induction temp as [|[path orig] temp IH]; intros cl Hin.
  - exists cl. split; reflexivity.
  - cbn [add_temp_clobbers].
    assert (Horig : orig ∈ names) by (apply (Hin (path, orig)); apply elem_of_cons; left; reflexivity).
    destruct (position_some orig names Horig) as [idx Hidx]. rewrite Hidx.
    set (entry := match cl !! path with
                  | Some v => v
                  | None => match pr !! path with Some other_idx => [other_idx] | None => [] end
                  end).
    destruct (IH (<[path := entry ++ [idx]]> cl)) as [cl' [Hrun Hcl']].
    { intros x Hx. apply Hin. apply elem_of_cons; right; exact Hx. }
    exists cl'. split; [exact Hrun|].
    intros p. rewrite Hcl'. cbn [List.filter fst snd].
    destruct (String.eqb path p) eqn:Ep.
    + apply String.eqb_eq in Ep. subst p. rewrite lookup_insert_eq. cbn [map]. cbn [snd]. rewrite Hidx. cbn [default].
      assert (Hentry : entry = match cl !! path with Some v => v | None => option_list (pr !! path) end)
        by (unfold entry; destruct (cl !! path); [reflexivity|destruct (pr !! path); reflexivity]).
      destruct (List.filter (fun x => String.eqb (fst x) path) temp) as [|y l].
      * rewrite Hentry. reflexivity.
      * rewrite Hentry, <- app_assoc. reflexivity.
    + apply String.eqb_neq in Ep. rewrite lookup_insert_ne by exact Ep. reflexivity.
Qed.

Lemma from_prefix_records_run (rs : list PrefixRecord) :
  exists reg, from_prefix_records rs = Ok reg /\
    package_names reg = map pr_name rs /\
    (forall p, paths_registry reg !! p = last_owner rs p) /\
    (forall p, clobbers reg !! p =
       match List.filter (fun x => String.eqb (fst x) p) (clobber_entries rs) with
       | [] => None
       | l => Some (option_list (last_owner rs p)
                    ++ map (fun x => default 0 (position (snd x) (map pr_name rs))) l)
       end).
Proof.
  unfold from_prefix_records.
  pose proof (collect_records_spec rs [] ∅ []) as Hc.
  destruct (collect_records rs [] ∅ []) as [[names pr] temp].
  destruct Hc as [Hn [Ht Hp]]. cbn [app] in Hn, Ht. subst names temp.
  assert (Hpr : forall p, pr !! p = last_owner rs p).
  { intros p. rewrite Hp. destruct (last_owner rs p); [reflexivity|apply lookup_empty]. }
  destruct (add_temp_clobbers_spec (map pr_name rs) pr (clobber_entries rs) ∅) as [cl [Hrun Hcl]].
  { intros [o n] Hx. unfold clobber_entries in Hx. apply list_elem_of_In in Hx.
    apply in_flat_map in Hx as [r [Hr Hx]].
    unfold record_clobbers in Hx. apply in_flat_map in Hx as [e [_ Hx]].
    destruct (original_path e); [|contradiction].
    destruct Hx as [Hx|[]]. injection Hx as _ <-. cbn [snd].
    apply list_elem_of_In, in_map, Hr. }
  rewrite Hrun. cbn. eexists. split; [reflexivity|].
  split; [reflexivity|]. split; [exact Hpr|].
  intros p. rewrite Hcl, lookup_empty, Hpr. reflexivity.
Qed.

(** [from_prefix_records] never reaches its [expect]: it registers the package
    names in the order of the records, and a path shipped at its own path
    belongs to the last record that ships it so. *)
Theorem from_prefix_records_registry (rs : list PrefixRecord) :
  exists reg, from_prefix_records rs = Ok reg /\
    package_names reg = map pr_name rs /\
    forall p, paths_registry reg !! p = last_owner rs p.
Proof.
  destruct (from_prefix_records_run rs) as (reg & Hrun & Hn & Hp & _).
  exists reg. auto.
Qed.

(** [from_prefix_records] records a clobber list for [p] exactly when some
    record has a clobbered copy of [p]; the list starts with the owner of [p]
    at its own path, if any, followed by the index of the first package of
    that name for each clobbered copy, in record order. *)
Theorem from_prefix_records_clobbers (rs : list PrefixRecord) (p : string) :
  exists reg, from_prefix_records rs = Ok reg /\
    clobbers reg !! p =
      match List.filter (fun x => String.eqb (fst x) p) (clobber_entries rs) with
      | [] => None
      | l => Some (option_list (last_owner rs p)
                   ++ map (fun x => default 0 (position (snd x) (map pr_name rs))) l)
      end.
Proof.
  destruct (from_prefix_records_run rs) as (reg & Hrun & _ & _ & Hc).
  exists reg. auto.
Qed.

(** Renaming [p] to [q] as a clobber, then [q] back to [p] as the canonical
    path, gives back the record, when [q] is not already one of its paths and
    its entries at [p] were at their own path. *)
Theorem rename_path_round_trip (r : PrefixRecord) (p q : string)
  (Hfiles : q ∉ files r)
  (Hq : Forall (fun e => relative_path e <> q) (paths_data r))
  (Hp : Forall (fun e => relative_path e = p -> original_path e = None) (paths_data r)) :
  rename_path_in_prefix_record (rename_path_in_prefix_record r p q true) q p false = r.
Proof.
  destruct r as [n fs ps]. cbn [files paths_data] in *. unfold rename_path_in_prefix_record.
  cbn [pr_name files paths_data]. rewrite !map_map. f_equal.
  - rewrite <- (map_id fs) at 2. apply map_ext_in. intros x Hx.
    destruct (String.eqb x p) eqn:E1.
    + rewrite String.eqb_refl. symmetry. apply String.eqb_eq, E1.
    + destruct (String.eqb x q) eqn:E2; [|reflexivity].
      apply String.eqb_eq in E2. subst x. exfalso. apply Hfiles, list_elem_of_In, Hx.
  - rewrite <- (map_id ps) at 2. apply map_ext_in. intros [rp op] Hx.
    rewrite Forall_forall in Hq, Hp.
    assert (Hx' : mkEntry rp op ∈ ps) by (apply list_elem_of_In, Hx).
    specialize (Hq _ Hx'). specialize (Hp _ Hx'). cbn [relative_path original_path] in Hq, Hp |- *.
    destruct (String.eqb rp p) eqn:E1.
    + cbn [relative_path]. rewrite String.eqb_refl. apply String.eqb_eq in E1. subst rp.
      rewrite Hp by reflexivity. reflexivity.
    + cbn [relative_path]. destruct (String.eqb rp q) eqn:E2; [|reflexivity].
      apply String.eqb_eq in E2. contradiction.
Qed.

Lemma rename_path_round_trip_witness :
  (clobber_name "a" "x" ∉ files record_x) /\
  Forall (fun e => relative_path e <> clobber_name "a" "x") (paths_data record_x) /\
  Forall (fun e => relative_path e = "a"%string -> original_path e = None) (paths_data record_x) /\
  rename_path_in_prefix_record
    (rename_path_in_prefix_record record_x "a" (clobber_name "a" "x") true)
    (clobber_name "a" "x") "a" false = record_x.
Proof.
  assert (H1 : clobber_name "a" "x" ∉ files record_x) by by_decision.
  assert (H2 : Forall (fun e => relative_path e <> clobber_name "a" "x") (paths_data record_x))
    by by_decision.
  assert (H3 : Forall (fun e => relative_path e = "a"%string -> original_path e = None)
                 (paths_data record_x)) by by_decision.
  split_and!; [exact H1 | exact H2 | exact H3 |].
  exact (rename_path_round_trip record_x "a" (clobber_name "a" "x") H1 H2 H3).
Defined.

End ClobberFacts.

(** ** JLAP *)
Module JlapFacts.
Import Cache Jlap.

Lemma upd_length (v : list Z) (i : nat) (x : Z) : length (Blake2b.upd v i x) = length v.
Proof. revert i. induction v as [|y v IH]; intros [|i]; simpl; auto. Qed.

Lemma F_length h m t last : length (Blake2b.F h m t last) = 8.
Proof. unfold Blake2b.F. rewrite length_map, length_seq. reflexivity. Qed.

Lemma compress_all_length h bl i t : length h = 8 -> length (Blake2b.compress_all h bl i t) = 8.
Proof.
  revert h i. induction bl as [|b bl IH]; intros h i Hh; [exact Hh|].
  destruct bl as [|b' bl']; [apply F_length|]. apply IH, F_length.
Qed.

Lemma le_bytes_length w : length (Blake2b.le_bytes w) = 8.
Proof. unfold Blake2b.le_bytes. rewrite length_map, length_seq. reflexivity. Qed.

Lemma flat_map_le_bytes_length ws : length (flat_map Blake2b.le_bytes ws) = 8 * length ws.
Proof. induction ws as [|w ws IH]; cbn [flat_map]; [reflexivity|]. rewrite length_app, le_bytes_length, IH. cbn [length]. lia. Qed.

Lemma blake2b_length nn key data : nn <= 64 -> length (Blake2b.blake2b nn key data) = nn.
Proof.
  intros Hnn. unfold Blake2b.blake2b. rewrite length_firstn, flat_map_le_bytes_length.
  rewrite compress_all_length; [lia|]. rewrite upd_length. reflexivity.
Qed.

Lemma checksum_loop_some ivec k ls s :
  checksum_loop ivec (Some k) ls = JOk (Some s) -> s = running k ls.
Proof.
  revert k. induction ls as [|l ls IH]; intros k H; simpl in H.
  - injection H as <-. reflexivity.
  - unfold blake2b_256_hash_with_key in H.
    destruct (Nat.ltb 64 (length k)); [discriminate|]. exact (IH _ H).
Qed.

Lemma checksum_loop_total ivec k ls :
  length k <= 64 -> checksum_loop ivec (Some k) ls = JOk (Some (running k ls)).
Proof.
  revert k. induction ls as [|l ls IH]; intros k Hk; simpl; [reflexivity|].
  unfold blake2b_256_hash_with_key.
  replace (Nat.ltb 64 (length k)) with false by (symmetry; apply Nat.ltb_ge; lia).
  apply IH. rewrite blake2b_length; lia.
Qed.

(** The loop from [None] over a non-empty list: the running state from the
    initialization vector, or a panic for a key over 64 bytes. *)
Lemma checksum_loop_from_iv ivec l ls :
  checksum_loop ivec None (l :: ls) =
    if Nat.ltb 64 (length ivec) then JPanic else JOk (Some (running ivec (l :: ls))).
Proof.
  simpl. unfold blake2b_256_hash_with_key.
  destruct (Nat.ltb 64 (length ivec)); [reflexivity|].
  apply checksum_loop_total. rewrite blake2b_length; lia.
Qed.

Lemma parse_patches_length e ls ps : parse_patches e ls = JOk ps -> length ps = length ls.
Proof.
  revert ps. induction ls as [|l ls IH]; intros ps H; simpl in H.
  - injection H as <-. reflexivity.
  - destruct (parse_patch e l); [|discriminate].
    destruct (parse_patches e ls) eqn:E; try discriminate.
    injection H as <-. simpl. f_equal. apply IH. reflexivity.
Qed.

(** The fields of a parsed response. *)
Lemma jlap_new_ok e response iv0 j :
  jlap_new e response iv0 = JOk j ->
  let ls := split_nl response in
  let off := match hex_decode (nth 0 ls ""%string) with Some _ => 1 | None => 0 end in
  2 < length ls /\ lines e j = ls /\ offset e j = off /\
  initialization_vector e j = default iv0 (hex_decode (nth 0 ls ""%string)) /\
  checksum e j = default digest_default (parse_digest_from_hex (nth (length ls - 1) ls ""%string)) /\
  bytes_offset e j = get_bytes_offset ls /\
  parse_footer e (nth (length ls - 2) ls ""%string) = Some (footer e j) /\
  parse_patches e (slice ls off (length ls - 2)) = JOk (patches e j) /\
  patches e j <> [].
Proof.
  intros H ls off. unfold jlap_new in H. fold ls in H.
  destruct (Nat.ltb JLAP_FOOTER_OFFSET (length ls)) eqn:Hlt; [|discriminate].
  apply Nat.ltb_lt in Hlt. unfold JLAP_FOOTER_OFFSET in *.
  unfold off. destruct (hex_decode (nth 0 ls ""%string)) as [v|];
    (destruct (parse_footer e (nth (length ls - 2) ls ""%string)) as [f|]; [|discriminate]);
    (destruct (parse_patches e (slice ls _ (length ls - 2))) as [[|p ps]| |] eqn:Hp; try discriminate);
    injection H as <-; simpl; split_and!; auto; discriminate.
Qed.

(** C4. For a response parsed by [JLAP::new], [validate_checksum] runs the
    state from the initialization vector in effect ([s0]: the leading hex
    line, or the one passed in) over the lines between it and the footer,
    [s_i = Blake2b-256_MAC(key s_(i-1), line_i)], and returns
    [ChecksumMismatch] exactly when [s_n] differs from the digest of the
    last line, [s_n] otherwise; these lines are never empty. When
    [patch_repo_data] reaches validation (the footer's [latest] is not the
    hash of the cached file) it returns this error with [repodata.json]
    untouched. The key of the first MAC is at most 64 bytes (a 32-byte iv);
    a longer one makes [new_with_salt_and_personal(..).unwrap()] panic. *)
Theorem validate_checksum_spec (e : env) (server : Server) (st : RepoDataState)
    (file : option string) (position0 : N) (iv0 : list Z) (resp : Response) (position : N)
    (j : JLAP e)
    (Hpos : get_position_and_initialization_vector (jlap st) = JOk (position0, iv0))
    (Hfetch : fetch_jlap_with_retry server position0 = JOk (resp, position))
    (Hnew : jlap_new e (body resp) iv0 = JOk j)
    (Hkey : length (default iv0 (hex_decode (nth 0 (split_nl (body resp)) ""%string))) <= 64) :
  let ls := split_nl (body resp) in
  let off := match hex_decode (nth 0 ls ""%string) with Some _ => 1 | None => 0 end in
  let s0 := default iv0 (hex_decode (nth 0 ls ""%string)) in
  let patch_lines := slice ls off (length ls - 2) in
  let s_n := running s0 patch_lines in
  let checksum := default digest_default (parse_digest_from_hex (nth (length ls - 1) ls ""%string)) in
  patch_lines <> [] /\
  validate_checksum e j = (if bool_decide (s_n = checksum) then JOk s_n else JErr ChecksumMismatch) /\
  (default digest_default (latest (footer e j)) <> default digest_default (blake2_hash st) ->
   s_n <> checksum ->
   patch_repo_data e server st file = (JErr ChecksumMismatch, file)).
Proof.
  intros ls off s0 pl s_n cs.
  destruct (jlap_new_ok e (body resp) iv0 j Hnew)
    as (Hlen & Hlines & Hoff & Hiv & Hcs & _ & _ & Hpp & Hne).
  assert (Hpl : pl <> []).
  { intros E. apply Hne. apply length_zero_iff_nil.
    rewrite (parse_patches_length _ _ _ Hpp). fold ls off pl. rewrite E. reflexivity. }
  assert (Hval : validate_checksum e j =
                   (if bool_decide (s_n = cs) then JOk s_n else JErr ChecksumMismatch)).
  { unfold validate_checksum, JLAP_FOOTER_OFFSET. rewrite Hlines, Hoff, Hiv, Hcs.
    fold ls off s0 pl cs. destruct pl as [|l ls'] eqn:Epl; [contradiction|].
    rewrite checksum_loop_from_iv.
    replace (Nat.ltb 64 (length s0)) with false by (symmetry; apply Nat.ltb_ge; exact Hkey).
    reflexivity. }
  split_and!; [exact Hpl | exact Hval |].
  intros Hlatest Hneq.
  unfold patch_repo_data. rewrite Hpos, Hfetch, Hnew.
  cbv beta iota zeta. rewrite bool_decide_false by exact Hlatest.
  rewrite Hval, bool_decide_false by exact Hneq. reflexivity.
Qed.

Lemma fold_add_acc (l : list N) (a : N) : fold_left N.add l a = (a + fold_left N.add l 0)%N.
Proof.
  revert a. induction l as [|x l IH]; intros a; cbn [fold_left]; [lia|].
  rewrite (IH (a + x)%N), (IH (0 + x)%N). lia.
Qed.

Lemma line_bytes_app l1 l2 : line_bytes (l1 ++ l2) = (line_bytes l1 + line_bytes l2)%N.
Proof.
  unfold line_bytes. rewrite map_app, fold_left_app, fold_add_acc. reflexivity.
Qed.

(** The bytes before the footer: the leading iv line, if any, and the patch
    lines. *)
Lemma get_bytes_offset_split (ls : list string) (off : nat) :
  off <= length ls - 2 -> 2 < length ls ->
  get_bytes_offset ls = (line_bytes (firstn off ls) + line_bytes (slice ls off (length ls - 2)))%N.
Proof.
  intros Hoff Hlen. unfold get_bytes_offset, JLAP_FOOTER_OFFSET.
  replace (Nat.leb 2 (length ls)) with true by (symmetry; apply Nat.leb_le; lia).
  rewrite <- line_bytes_app. unfold slice. rewrite Nat.sub_0_r, skipn_O.
  rewrite take_take_drop. replace (off + (length ls - 2 - off)) with (length ls - 2) by lia. reflexivity.
Qed.

Lemma fetch_jlap_with_retry_position server p r p' :
  fetch_jlap_with_retry server p = JOk (r, p') -> p' = p \/ p' = 0%N.
Proof.
  unfold fetch_jlap_with_retry. destruct (fetch_jlap server _) as [resp|err].
  - intros H. injection H as _ <-. auto.
  - destruct (_ && _); [|discriminate].
    destruct (fetch_jlap server "bytes=0-"); [|discriminate].
    intros H. injection H as _ <-. auto.
Qed.

(** C5 (corrected). A successful run of [patch_repo_data] answers from the
    position of the request (the stored one, or 0 after a retry): the new
    position is that position plus the bytes of every line before the footer,
    the leading iv line included when the response has one; the new [iv] is
    the running state [s_n] over the patch lines when patches were applied,
    and the initialization vector in effect for the response (the leading iv
    line, else the stored one) when the footer's [latest] is already the hash
    of the cached file, which is then left as it is. *)
Theorem patch_repo_data_state (e : env) (server : Server) (st : RepoDataState)
    (file : option string) (st' : JLAPState) (file' : option string)
    (H : patch_repo_data e server st file = (JOk st', file')) :
  exists position0 iv0 resp position j,
    get_position_and_initialization_vector (jlap st) = JOk (position0, iv0) /\
    fetch_jlap_with_retry server position0 = JOk (resp, position) /\
    (position = position0 \/ position = 0%N) /\
    jlap_new e (body resp) iv0 = JOk j /\
    let ls := split_nl (body resp) in
    let off := match hex_decode (nth 0 ls ""%string) with Some _ => 1 | None => 0 end in
    let s0 := default iv0 (hex_decode (nth 0 ls ""%string)) in
    let patch_lines := slice ls off (length ls - 2) in
    pos st' = ((position + line_bytes (firstn off ls) + line_bytes patch_lines) mod 2 ^ 64)%N /\
    Cache.footer st' = footer e j /\
    (default digest_default (latest (footer e j)) = default digest_default (blake2_hash st) ->
       iv st' = hex_encode s0 /\ file' = file) /\
    (default digest_default (latest (footer e j)) <> default digest_default (blake2_hash st) ->
       iv st' = hex_encode (running s0 patch_lines)).
Proof.
  unfold patch_repo_data in H.
  destruct (get_position_and_initialization_vector (jlap st)) as [[position0 iv0]| |] eqn:Hpos;
    [|discriminate|discriminate].
  destruct (fetch_jlap_with_retry server position0) as [[resp position]| |] eqn:Hfetch;
    [|discriminate|discriminate].
  destruct (jlap_new e (body resp) iv0) as [j| |] eqn:Hnew; [|discriminate|discriminate].
  exists position0, iv0, resp, position, j.
  split; [first [exact Hpos | reflexivity]|].
  split; [first [exact Hfetch | reflexivity]|].
  split; [exact (fetch_jlap_with_retry_position _ _ _ _ Hfetch)|].
  split; [first [exact Hnew | reflexivity]|].
  destruct (jlap_new_ok e (body resp) iv0 j Hnew)
    as (Hlen & Hlines & Hoff & Hiv & Hcs & Hbo & _ & Hpp & Hne).
  intros ls off s0 pl.
  assert (Hpl : pl <> []).
  { intros E. apply Hne. apply length_zero_iff_nil.
    rewrite (parse_patches_length _ _ _ Hpp). fold ls off pl. rewrite E. reflexivity. }
  assert (Hoff_le : off <= length ls - 2).
  { unfold pl, slice in Hpl. destruct (decide (off <= length ls - 2)); [assumption|].
    exfalso. apply Hpl. replace (length ls - 2 - off) with 0 by lia. reflexivity. }
  assert (Hpos' : forall v, pos (get_state e j position v) =
                    ((position + line_bytes (firstn off ls) + line_bytes pl) mod 2 ^ 64)%N).
  { intros v. unfold get_state. cbn [pos]. rewrite Hbo. fold ls.
    rewrite (get_bytes_offset_split ls off Hoff_le Hlen). unfold pl. rewrite N.add_assoc. reflexivity. }
  case_bool_decide as Hlatest.
  - injection H as <- <-. split_and!; [apply Hpos' | reflexivity | | ].
    + intros _. split; [|reflexivity]. simpl. rewrite Hiv. reflexivity.
    + intros Hne'. exfalso. exact (Hne' Hlatest).
  - destruct (validate_checksum e j) as [new_iv| |] eqn:Hval; [|discriminate|discriminate].
    destruct (jlap_apply e j file _) as [[[]| |] file''] eqn:Happ; [|discriminate|discriminate].
    injection H as <- <-. split_and!; [apply Hpos' | reflexivity | |].
    + intros E. exfalso. exact (Hlatest E).
    + intros _. simpl. f_equal.
      unfold validate_checksum, JLAP_FOOTER_OFFSET in Hval.
      rewrite Hlines, Hoff, Hiv in Hval. fold ls off s0 pl in Hval.
      destruct pl as [|l ls'] eqn:Epl; [discriminate|].
      rewrite checksum_loop_from_iv in Hval.
      destruct (Nat.ltb 64 (length s0)); [discriminate|].
      case_bool_decide; [|discriminate]. injection Hval as <-. reflexivity.
Qed.

(** C10 (corrected). [JLAP::new] gives [NoPatchesFound] for a response of at
    most two lines, and for a longer one with no line between the optional
    leading hex line and the footer whose footer parses; when the footer
    does not parse it gives [JSONParse], whatever the lines before it. A
    parsed response has at least one patch. *)
Theorem jlap_new_no_patches (e : env) (response : string) (iv0 : list Z) :
  let ls := split_nl response in
  let off := match hex_decode (nth 0 ls ""%string) with Some _ => 1 | None => 0 end in
  (length ls <= 2 -> jlap_new e response iv0 = JErr NoPatchesFound) /\
  (2 < length ls -> slice ls off (length ls - 2) = [] ->
     parse_footer e (nth (length ls - 2) ls ""%string) <> None ->
     jlap_new e response iv0 = JErr NoPatchesFound) /\
  (2 < length ls -> parse_footer e (nth (length ls - 2) ls ""%string) = None ->
     jlap_new e response iv0 = JErr JSONParse) /\
  (forall j, jlap_new e response iv0 = JOk j -> patches e j <> []).
Proof.
  intros ls off. unfold jlap_new. fold ls. unfold JLAP_FOOTER_OFFSET.
  split_and!.
  - intros Hle. replace (Nat.ltb 2 (length ls)) with false by (symmetry; apply Nat.ltb_ge; lia).
    reflexivity.
  - intros Hlt Hsl Hf. replace (Nat.ltb 2 (length ls)) with true by (symmetry; apply Nat.ltb_lt; lia).
    destruct (parse_footer e _) as [f|]; [|contradiction].
    unfold off in Hsl. destruct (hex_decode (nth 0 ls ""%string)); cbv beta iota zeta;
      rewrite ?Hsl; reflexivity.
  - intros Hlt Hf. replace (Nat.ltb 2 (length ls)) with true by (symmetry; apply Nat.ltb_lt; lia).
    destruct (hex_decode (nth 0 ls ""%string)); cbv beta iota zeta; rewrite Hf; reflexivity.
  - intros j Hj. exact (proj2 (proj2 (proj2 (proj2 (proj2 (proj2 (proj2 (proj2
                          (jlap_new_ok e response iv0 j Hj))))))))).
Qed.

(** C6. [send] resolves to [Ok] for a reply of any status, so the retry
    branch of [fetch_jlap_with_retry] is never taken: a 416 reply is
    returned as the response, with the position unchanged, after a single
    request; a failed request has no status and is returned as [HTTP]. With
    the range gone from the server, [patch_repo_data] parses the empty body
    of the 416 reply and fails with [NoPatchesFound], although the request
    from 0 would have been answered with the whole log. *)
Theorem fetch_jlap_416_not_retried :
  (forall (server : Server) (position : N),
     fetch_jlap_with_retry server position =
       match server ("bytes=" ++ N_to_string position ++ "-")%string with
       | Some response => JOk (response, position)
       | None => JErr (HTTP (mkReqwestError None))
       end) /\
  JlapExamples.ex_server "bytes=5-" = Some (mkResponse 416 "") /\
  JlapExamples.ex_server "bytes=0-" = Some (mkResponse 200 JlapExamples.response) /\
  fetch_jlap_with_retry JlapExamples.ex_server 5 = JOk (mkResponse 416 "", 5%N) /\
  patch_repo_data JlapExamples.ex_env JlapExamples.ex_server JlapExamples.ex_state5
    (Some JlapExamples.repodata0) = (JErr NoPatchesFound, Some JlapExamples.repodata0).
Proof.
  split_and!; [|vm_compute; reflexivity ..].
  intros server position. unfold fetch_jlap_with_retry, fetch_jlap.
  destruct (server _); reflexivity.
Qed.

(** *** Examples *)
Import JlapExamples.

(** BLAKE2b against RFC 7693 (appendix A: BLAKE2b-512 of "abc"), the keyed
    test vector of the reference implementation, and a keyed 32-byte digest
    of three blocks. *)
Lemma blake2b_test_vectors :
  hex_encode (Blake2b.blake2b 64 [] (as_bytes "abc")) =
    "ba80a53f981c4d0d6a2797b69f12f6e94c212f14685ac4b74b12bb6fdbffa2d17d87c5392aab792dc252d5de4533cc9518d38aa8dbf1925ab92386edd4009923"%string /\
  hex_encode (Blake2b.blake2b 64 (map Z.of_nat (seq 0 64)) []) =
    "10ebb67700b1868efb4417987acf4690ae9d972fb7a590c2f02871799aaa4786b5e996e8f0f4eb981fc214b005f42d2ff4233499391653df7aefcbc13fc51568"%string /\
  hex_encode (Blake2b.blake2b 32 (map Z.of_nat (seq 1 32)) (map (fun n => Z.of_nat (n mod 256)) (seq 0 300))) =
    "95cb87089d0d6c8b94c24a4b28badb5b21369a2e3e2a7b6e3a856c8034bc9008"%string.
Proof. split_and!; vm_compute; reflexivity. Qed.

(** The digests of the example. *)
Lemma example_digests :
  hex_encode H0 = "235f39119e6330a32dca23b58e651fcc477c1918f75a100093eee91cf3e9f345"%string /\
  hex_encode H1 = "714a2e93e7e17e9ae9ea085fdb5704860add88c656857efa3b9d923322c87086"%string /\
  checksum_line = "00b523462b27183b4926f241d63e98bc3e65c80201ae259d3d91e8364a0ef851"%string.
Proof. split_and!; vm_compute; reflexivity. Qed.

Lemma validate_checksum_spec_witness :
  get_position_and_initialization_vector (jlap ex_state) = JOk (0%N, JLAP_START_INITIALIZATION_VECTOR) /\
  fetch_jlap_with_retry ex_server 0 = JOk (mkResponse 200 response, 0%N) /\
  jlap_new ex_env (body (mkResponse 200 response)) JLAP_START_INITIALIZATION_VECTOR = JOk ex_jlap /\
  length (default JLAP_START_INITIALIZATION_VECTOR
            (hex_decode (nth 0 (split_nl (body (mkResponse 200 response))) ""%string))) <= 64 /\
  let ls := split_nl (body (mkResponse 200 response)) in
  let off := match hex_decode (nth 0 ls ""%string) with Some _ => 1 | None => 0 end in
  let s0 := default JLAP_START_INITIALIZATION_VECTOR (hex_decode (nth 0 ls ""%string)) in
  let patch_lines := slice ls off (length ls - 2) in
  let s_n := running s0 patch_lines in
  let checksum := default digest_default (parse_digest_from_hex (nth (length ls - 1) ls ""%string)) in
  patch_lines <> [] /\
  validate_checksum ex_env ex_jlap =
    (if bool_decide (s_n = checksum) then JOk s_n else JErr ChecksumMismatch) /\
  (default digest_default (latest (footer ex_env ex_jlap)) <>
     default digest_default (blake2_hash ex_state) ->
   s_n <> checksum ->
   patch_repo_data ex_env ex_server ex_state (Some repodata0) = (JErr ChecksumMismatch, Some repodata0)).
Proof.
  assert (H1 : get_position_and_initialization_vector (jlap ex_state) =
                 JOk (0%N, JLAP_START_INITIALIZATION_VECTOR)) by reflexivity.
  assert (H2 : fetch_jlap_with_retry ex_server 0 = JOk (mkResponse 200 response, 0%N))
    by (vm_compute; reflexivity).
  assert (H3 : jlap_new ex_env (body (mkResponse 200 response)) JLAP_START_INITIALIZATION_VECTOR =
                 JOk ex_jlap) by (vm_compute; reflexivity).
  assert (H4 : length (default JLAP_START_INITIALIZATION_VECTOR
            (hex_decode (nth 0 (split_nl (body (mkResponse 200 response))) ""%string))) <= 64)
    by (apply Nat.leb_le; vm_compute; reflexivity).
  exact (conj H1 (conj H2 (conj H3 (conj H4
           (validate_checksum_spec ex_env ex_server ex_state (Some repodata0) 0
              JLAP_START_INITIALIZATION_VECTOR (mkResponse 200 response) 0 ex_jlap H1 H2 H3 H4))))).
Defined.

(** C5. From position 0, the response [iv, patch, footer, checksum] gives the
    position of the bytes of the iv line and of the patch line, 65 + 203, not
    the 203 bytes of the patch line alone. *)
Lemma jlap_state_counts_iv_line :
  patch_repo_data ex_env ex_server ex_state (Some repodata0) =
    (JOk (mkJLAPState (line_bytes [hex_encode ex_iv] + line_bytes [patch_line])
            (hex_encode (running ex_iv [patch_line])) (mkFooter "repodata.json" (Some H1))),
     Some (doc1 ++ nl)%string) /\
  line_bytes [hex_encode ex_iv] = 65%N /\ line_bytes [patch_line] = 203%N /\
  (0 + line_bytes [patch_line])%N <> (line_bytes [hex_encode ex_iv] + line_bytes [patch_line])%N.
Proof. split_and!; vm_compute; first [reflexivity | discriminate]. Qed.

Lemma patch_repo_data_state_witness :
  patch_repo_data ex_env ex_server ex_state (Some repodata0) =
    (JOk (mkJLAPState 268 checksum_line (mkFooter "repodata.json" (Some H1))), Some (doc1 ++ nl)%string) /\
  exists position0 iv0 resp position j,
    get_position_and_initialization_vector (jlap ex_state) = JOk (position0, iv0) /\
    fetch_jlap_with_retry ex_server position0 = JOk (resp, position) /\
    (position = position0 \/ position = 0%N) /\
    jlap_new ex_env (body resp) iv0 = JOk j /\
    let ls := split_nl (body resp) in
    let off := match hex_decode (nth 0 ls ""%string) with Some _ => 1 | None => 0 end in
    let s0 := default iv0 (hex_decode (nth 0 ls ""%string)) in
    let patch_lines := slice ls off (length ls - 2) in
    pos (mkJLAPState 268 checksum_line (mkFooter "repodata.json" (Some H1))) =
      ((position + line_bytes (firstn off ls) + line_bytes patch_lines) mod 2 ^ 64)%N /\
    Cache.footer (mkJLAPState 268 checksum_line (mkFooter "repodata.json" (Some H1))) = footer ex_env j /\
    (default digest_default (latest (footer ex_env j)) = default digest_default (blake2_hash ex_state) ->
       iv (mkJLAPState 268 checksum_line (mkFooter "repodata.json" (Some H1))) = hex_encode s0 /\
       Some (doc1 ++ nl)%string = Some repodata0) /\
    (default digest_default (latest (footer ex_env j)) <> default digest_default (blake2_hash ex_state) ->
       iv (mkJLAPState 268 checksum_line (mkFooter "repodata.json" (Some H1))) =
         hex_encode (running s0 patch_lines)).
Proof.
  assert (H : patch_repo_data ex_env ex_server ex_state (Some repodata0) =
    (JOk (mkJLAPState 268 checksum_line (mkFooter "repodata.json" (Some H1))), Some (doc1 ++ nl)%string))
    by (vm_compute; reflexivity).
  exact (conj H (patch_repo_data_state ex_env ex_server ex_state (Some repodata0) _ _ H)).
Defined.

(** C10. A response whose only line between the hex line and the checksum is
    an empty footer line: no patch line, and [JSONParse]. *)
Lemma jlap_new_empty_segment_bad_footer :
  let r := (hex_encode digest_default ++ nl ++ nl ++ hex_encode digest_default)%string in
  split_nl r = [hex_encode digest_default; ""%string; hex_encode digest_default] /\
  hex_decode (hex_encode digest_default) = Some digest_default /\
  slice (split_nl r) 1 (length (split_nl r) - 2) = [] /\
  parse_footer ex_env "" = None /\
  jlap_new ex_env r JLAP_START_INITIALIZATION_VECTOR = JErr JSONParse.
Proof. split_and!; vm_compute; reflexivity. Qed.

Lemma hex_val_digit (d : Z) : (0 <= d < 16)%Z -> hex_val (hex_digit d) = Some d.
Proof.
  intros Hd.
  assert (d = 0 \/ d = 1 \/ d = 2 \/ d = 3 \/ d = 4 \/ d = 5 \/ d = 6 \/ d = 7 \/ d = 8 \/
          d = 9 \/ d = 10 \/ d = 11 \/ d = 12 \/ d = 13 \/ d = 14 \/ d = 15)%Z as Hc by lia.
  repeat destruct Hc as [-> | Hc]; subst; reflexivity.
Qed.

Lemma hex_decode_encode (bs : list Z) :
  Forall (fun b => 0 <= b < 256)%Z bs -> hex_decode (hex_encode bs) = Some bs.
Proof.
  unfold hex_decode, hex_encode. rewrite list_ascii_of_string_of_list_ascii.
  induction bs as [|b bs IH]; intros Hb; [reflexivity|].
  apply Forall_cons in Hb as [Hb Hbs]. cbn [flat_map app hex_decode_list].
  rewrite !hex_val_digit, IH by (auto; first [apply Z.mod_pos_bound; lia | split; [apply Z.div_pos; lia | apply Z.div_lt_upper_bound; lia]]).
  f_equal. f_equal. pose proof (Z.div_mod b 16). lia.
Qed.

(** The state [get_state] stores is read back by the next run's
    [get_position_and_initialization_vector]: the position after the bytes
    read (a [u64], modulo 2^64), and the iv that was hex encoded, when its
    elements are bytes. *)
Theorem get_state_round_trip (e : env) (j : JLAP e) (position : N) (iv0 : option Digest)
  (Hbytes : Forall (fun b => 0 <= b < 256)%Z (default (initialization_vector e j) iv0)) :
  get_position_and_initialization_vector (Some (get_state e j position iv0)) =
    JOk (((position + bytes_offset e j) mod 2 ^ 64)%N, default (initialization_vector e j) iv0).
Proof.
  unfold get_position_and_initialization_vector, get_state. cbn [iv pos].
  destruct iv0 as [v|]; cbn [default] in *; rewrite hex_decode_encode by exact Hbytes; reflexivity.
Qed.

Lemma split_nl_nonempty s : split_nl s <> [].
Proof.
  destruct s as [|c s]; cbn [split_nl]; [discriminate|].
  destruct (Ascii.eqb c "010"%char); [discriminate|]. destruct (split_nl s); discriminate.
Qed.

Lemma line_bytes_cons l ls : line_bytes (l :: ls) = (N.of_nat (String.length l + 1) + line_bytes ls)%N.
Proof. apply (line_bytes_app [l] ls). Qed.

Lemma line_bytes_split_nl s : line_bytes (split_nl s) = (N.of_nat (String.length s) + 1)%N.
Proof.
  induction s as [|c s IH]; [reflexivity|]. cbn [split_nl String.length].
  destruct (Ascii.eqb c "010"%char).
  - rewrite line_bytes_cons, IH. cbn [String.length]. lia.
  - pose proof (split_nl_nonempty s) as Hne.
    destruct (split_nl s) as [|seg rest]; [contradiction|].
    rewrite line_bytes_cons in IH |- *. cbn [String.length]. lia.
Qed.

(** For a response of at least two lines, [get_bytes_offset] is the offset
    in the response of the start of the footer line: the footer, its newline
    and the checksum line make up the rest of the response. *)
Theorem get_bytes_offset_footer_start (response : string)
  (Hlen : 2 <= length (split_nl response)) :
  let ls := split_nl response in
  let n := length ls in
  (get_bytes_offset ls + N.of_nat (String.length (nth (n - 2) ls ""%string) + 1
                                   + String.length (nth (n - 1) ls ""%string)))%N =
    N.of_nat (String.length response).
Proof.
  intros ls n. pose proof (line_bytes_split_nl response) as Hall. fold ls in Hall.
  unfold get_bytes_offset, JLAP_FOOTER_OFFSET. fold n.
  replace (Nat.leb 2 n) with true by (symmetry; apply Nat.leb_le; exact Hlen).
  unfold slice. rewrite Nat.sub_0_r, skipn_O.
  rewrite <- (take_drop (n - 2) ls) in Hall.
  rewrite line_bytes_app in Hall. fold (line_bytes (take (n - 2) ls)).
  assert (Hd : drop (n - 2) ls = [nth (n - 2) ls ""%string; nth (n - 1) ls ""%string]).
  { apply (list_eq_same_length _ _ 2).
    all: try reflexivity. 1: (rewrite length_drop; unfold n, ls in *; lia).
    intros i x y Hi Hx Hy. rewrite lookup_drop in Hx.
    apply (nth_lookup_Some _ _ ""%string) in Hx.
    destruct i as [|[|i]]; [| |lia]; cbn in Hy; injection Hy as <-; rewrite <- Hx;
      f_equal; unfold n, ls in *; lia. }
  rewrite Hd, line_bytes_cons, line_bytes_cons in Hall. change (line_bytes []) with 0%N in Hall.
  lia.
Qed.

(** The file after a failed write: a prefix of the patched document. *)
Lemma apply_jlap_patches_result e ps file r file' :
  apply_jlap_patches e ps file = (r, file') ->
  (exists err, r = JErr err /\ err <> HashesNotMatching /\
     (file' = file \/
      (err = FileSystem /\ exists n doc, write_outcome e = WriteFails n /\
         file' = Some (substring 0 n (to_string_pretty e doc ++ String "010" EmptyString))))) \/
  (exists s, r = JOk (compute_bytes_digest (as_bytes s)) /\
     ((write_outcome e = WriteOk /\ file' = Some s) \/
      (exists n, write_outcome e = LastWriteLost n /\ file' = Some (substring 0 n s)))).
Proof.
  unfold apply_jlap_patches. intros H.
  destruct file as [c|]; [|injection H as <- <-; left; exists FileSystem; split_and!; auto; discriminate].
  destruct (parse_doc e c) as [d|]; [|injection H as <- <-; left; exists JSONParse; split_and!; auto; discriminate].
  destruct (apply_patches e d ps) as [d'|];
    [|injection H as <- <-; left; exists JSONPatch; split_and!; auto; discriminate].
  destruct (write_outcome e) as [| |n|n] eqn:Ew; injection H as <- <-.
  - right. eexists. split; [reflexivity|]. left. split; reflexivity.
  - left. exists FileSystem. split_and!; auto; discriminate.
  - left. exists FileSystem. split_and!; [reflexivity|discriminate|]. right. split; [reflexivity|]. eauto.
  - right. eexists. split; [reflexivity|]. right. eauto.
Qed.

Lemma jlap_apply_result e j file hash r file' :
  jlap_apply e j file hash = (r, file') ->
  (exists err, r = JErr err /\ err <> HashesNotMatching /\
     (file' = file \/
      (err = FileSystem /\ exists n doc, write_outcome e = WriteFails n /\
         file' = Some (substring 0 n (to_string_pretty e doc ++ String "010" EmptyString))))) \/
  (r = JErr HashesNotMatching /\ exists s, file' = Some s) \/
  (r = JOk tt /\ exists s,
     compute_bytes_digest (as_bytes s) = default digest_default (latest (footer e j)) /\
     ((write_outcome e = WriteOk /\ file' = Some s) \/
      (exists n, write_outcome e = LastWriteLost n /\ file' = Some (substring 0 n s)))).
Proof.
  unfold jlap_apply. intros H.
  destruct (find_current_patch_index e (patches e j) hash) as [idx|];
    [|injection H as <- <-; left; exists NoHashFound; split_and!; [reflexivity|discriminate|left; reflexivity]].
  destruct (apply_jlap_patches e (skipn idx (patches e j)) file) as [r0 f0] eqn:Ha.
  destruct (apply_jlap_patches_result _ _ _ _ _ Ha) as [(err & -> & Hne & Hf) | (s & -> & Hw)].
  - injection H as <- <-. left. exists err. auto.
  - case_bool_decide as Hh; injection H as <- <-; right; [right|left].
    + split; [reflexivity|]. exists s. split; [exact Hh|exact Hw].
    + split; [reflexivity|]. destruct Hw as [[_ ->] | (n & _ & ->)]; eauto.
Qed.


(** After a successful [patch_repo_data], either [repodata.json] was left as
    it was and the footer's [latest] is the cached hash, or patches were
    applied and [latest] is the Blake2b-256 digest of the patched document
    in memory: the file holds that document when every write succeeded, and
    only its first bytes when the last, unawaited write failed. *)
Theorem patch_repo_data_file_digest (e : env) (server : Server) (st : RepoDataState)
    (file : option string) (st' : JLAPState) (file' : option string)
    (H : patch_repo_data e server st file = (JOk st', file')) :
  (file' = file /\
   default digest_default (latest (Cache.footer st')) = default digest_default (blake2_hash st)) \/
  (exists s, compute_bytes_digest (as_bytes s) = default digest_default (latest (Cache.footer st')) /\
   ((write_outcome e = WriteOk /\ file' = Some s) \/
    (exists n, write_outcome e = LastWriteLost n /\ file' = Some (substring 0 n s)))).
Proof.
  unfold patch_repo_data in H.
  destruct (get_position_and_initialization_vector (jlap st)) as [[position0 iv0]| |];
    [|discriminate|discriminate].
  destruct (fetch_jlap_with_retry server position0) as [[resp position]| |]; [|discriminate|discriminate].
  destruct (jlap_new e (body resp) iv0) as [j| |]; [|discriminate|discriminate].
  case_bool_decide as Hl; [injection H as <- <-; left; split; [reflexivity|exact Hl]|].
  destruct (validate_checksum e j) as [new_iv| |]; [|discriminate|discriminate].
  destruct (jlap_apply e j file _) as [r f0] eqn:Happ.
  destruct (jlap_apply_result _ _ _ _ _ _ Happ) as [(err' & -> & _ & _) | [(-> & _) | (-> & s & Hs & Hw)]];
    [discriminate|discriminate|].
  injection H as <- <-. right. exists s. split; [exact Hs|exact Hw].
Qed.

Lemma get_state_round_trip_witness :
  Forall (fun b => 0 <= b < 256)%Z (default (initialization_vector ex_env ex_jlap) None) /\
  get_position_and_initialization_vector (Some (get_state ex_env ex_jlap 7 None)) =
    JOk (((7 + bytes_offset ex_env ex_jlap) mod 2 ^ 64)%N, default (initialization_vector ex_env ex_jlap) None).
Proof.
  assert (H : Forall (fun b => 0 <= b < 256)%Z (default (initialization_vector ex_env ex_jlap) None))
    by by_decision.
  exact (conj H (get_state_round_trip ex_env ex_jlap 7 None H)).
Defined.

Lemma get_bytes_offset_footer_start_witness :
  2 <= length (split_nl response) /\
  (let ls := split_nl response in
   let n := length ls in
   (get_bytes_offset ls + N.of_nat (String.length (nth (n - 2) ls ""%string) + 1
                                    + String.length (nth (n - 1) ls ""%string)))%N =
     N.of_nat (String.length response)).
Proof.
  assert (H : 2 <= length (split_nl response)) by (vm_compute; lia).
  exact (conj H (get_bytes_offset_footer_start response H)).
Defined.


(** The last write lost after 10 bytes: [Ok], with the file cut short. *)
Lemma patch_repo_data_file_digest_witness :
  let st' := mkJLAPState 268 checksum_line (mkFooter "repodata.json" (Some H1)) in
  patch_repo_data (ex_env_write (LastWriteLost 10)) ex_server ex_state (Some repodata0) =
    (JOk st', Some (substring 0 10 (doc1 ++ nl))%string) /\
  ((Some (substring 0 10 (doc1 ++ nl))%string = Some repodata0 /\
    default digest_default (latest (Cache.footer st')) = default digest_default (blake2_hash ex_state)) \/
   (exists s, compute_bytes_digest (as_bytes s) = default digest_default (latest (Cache.footer st')) /\
    ((write_outcome (ex_env_write (LastWriteLost 10)) = WriteOk /\
      Some (substring 0 10 (doc1 ++ nl))%string = Some s) \/
     (exists n, write_outcome (ex_env_write (LastWriteLost 10)) = LastWriteLost n /\
      Some (substring 0 10 (doc1 ++ nl))%string = Some (substring 0 n s))))).
Proof.
  intros st'.
  assert (H : patch_repo_data (ex_env_write (LastWriteLost 10)) ex_server ex_state (Some repodata0) =
                (JOk st', Some (substring 0 10 (doc1 ++ nl))%string))
    by (vm_compute; reflexivity).
  exact (conj H (patch_repo_data_file_digest _ _ _ _ _ _ H)).
Defined.

End JlapFacts.

(** ** Candidate construction *)
Module ResolvoFacts.
Import Resolvo ResolvoExamples.

Lemma dedup_loop_app xn st l1 l2 :
  dedup_loop xn st (l1 ++ l2) =
  match dedup_loop xn st l1 with ROk st' => dedup_loop xn st' l2 | RErr e => RErr e | RPanic => RPanic end.
Proof.
  revert st; induction l1 as [|r l1 IH]; intros st; simpl; [reflexivity|].
  destruct (dedup_step xn st r); [apply IH|reflexivity|reflexivity].
Qed.

Lemma dedup_step_fresh xn ord m r :
  m !! stem r = None ->
  dedup_step xn (ord, m) r = ROk (ord ++ [r], <[stem r := (snd (stem_and_type r), length ord, is_excluded xn r)]> m).
Proof.
  unfold stem, dedup_step. fold (stem_and_type r).
  destruct (stem_and_type r) as [s t]; simpl. intros ->. reflexivity.
Qed.

Ltac add_record_finish :=
  split; [reflexivity|]; split; [intros n Hn; cbn; apply lookup_insert_ne; congruence|];
  split; [|first [reflexivity | match goal with |- _ = match ?m with _ => _ end => destruct m; reflexivity end]];
  unfold excluded_of; cbn [records]; rewrite lookup_insert_eq; cbn [default];
  match goal with |- context [default candidates_default ?o] =>
    destruct (default candidates_default o) as [c_cand c_fav c_lock c_excl c_hint] end;
  eexists; split; [simpl; rewrite <- ?app_assoc; first [reflexivity | symmetry; apply app_nil_r]|];
  split; [repeat constructor|];
  rewrite ?elem_of_app, ?list_elem_of_singleton, ?elem_of_nil;
  naive_solver.

Ltac add_record_found H :=
  match goal with |- context [?found !! name ?r] =>
    destruct (found !! name r) as [first|] eqn:Ef;
    [destruct (String.eqb first (channel r)) eqn:Eq;
     [apply String.eqb_eq in Eq | apply String.eqb_neq in Eq] |];
    cbn [negb] in H
  end.

Lemma add_record_ok xn specs p found r p1 f1 :
  add_record xn Strict specs (p, found) r = ROk (p1, f1) ->
  pool p1 = pool p ++ [Record_ r] /\
  (forall n, n <> name r -> records p1 !! n = records p !! n) /\
  (exists new, excluded_of p1 (name r) = excluded_of p (name r) ++ new /\
     Forall (fun x => fst x = length (pool p)) new /\
     ((length (pool p), StrictChannelPriority (channel r)) ∈ new <->
      in_requested_channel specs r = true /\ exists c, found !! name r = Some c /\ c <> channel r)) /\
  f1 = match found !! name r with
       | Some _ => found
       | None => if in_requested_channel specs r then <[name r := channel r]> found else found
       end.
Proof.
  intros H. unfold add_record in H. unfold in_requested_channel.
  cbv zeta in H.
  destruct (channel_specific_specs specs) as [|s0 css] eqn:Ecs.
  - cbn [find_spec]. add_record_found H.
    all: destruct xn as [x|]; [destruct (is_excluded (Some x) r)|]; injection H as <- <-.
    all: add_record_finish.
  - destruct (find_spec (s0 :: css) (name r)) as [[spec|]|] eqn:Efs; [| |discriminate H].
    + destruct (spec_channel spec) as [ch|];
        [destruct (String.eqb (channel r) (base_url ch)) eqn:Ech; cbn [negb] in H|].
      * add_record_found H.
        all: destruct xn as [x|]; [destruct (is_excluded (Some x) r)|]; injection H as <- <-.
        all: add_record_finish.
      * destruct xn as [x|]; [destruct (is_excluded (Some x) r)|]; injection H as <- <-.
        all: add_record_finish.
      * add_record_found H.
        all: destruct xn as [x|]; [destruct (is_excluded (Some x) r)|]; injection H as <- <-.
        all: add_record_finish.
    + add_record_found H.
      all: destruct xn as [x|]; [destruct (is_excluded (Some x) r)|]; injection H as <- <-.
      all: add_record_finish.
Qed.

Lemma from_found_step specs found r rs n :
  from_found specs
    (match found !! name r with
     | Some _ => found
     | None => if in_requested_channel specs r then <[name r := channel r]> found else found
     end) rs n = from_found specs found (r :: rs) n.
Proof.
  unfold from_found. cbn [first_channel].
  destruct (String.eqb (name r) n) eqn:En.
  - apply String.eqb_eq in En. subst n.
    destruct (found !! name r) as [c|] eqn:Ef; [rewrite Ef; reflexivity|].
    destruct (in_requested_channel specs r); cbn [andb].
    + rewrite lookup_insert_eq. reflexivity.
    + rewrite Ef. reflexivity.
  - apply String.eqb_neq in En. cbn [andb].
    destruct (found !! name r); [reflexivity|].
    destruct (in_requested_channel specs r); [|reflexivity].
    rewrite lookup_insert_ne by exact En. reflexivity.
Qed.

Lemma add_records_spec xn specs rs : forall p found p' found',
  add_records xn Strict specs (p, found) rs = ROk (p', found') ->
  length (pool p') = length (pool p) + length rs /\
  (forall n, exists suf, excluded_of p' n = excluded_of p n ++ suf /\
     Forall (fun x => length (pool p) <= fst x) suf) /\
  (ids_below p -> ids_below p') /\
  (forall n, found' !! n = from_found specs found rs n) /\
  (ids_below p -> forall i r, rs !! i = Some r ->
     ((length (pool p) + i, StrictChannelPriority (channel r)) ∈ excluded_of p' (name r) <->
      in_requested_channel specs r = true /\
      exists c, from_found specs found (take i rs) (name r) = Some c /\ c <> channel r)).
Proof.
  induction rs as [|r rs IH]; intros p found p' found' H.
  - injection H as <- <-. split; [cbn; lia|]. split.
    { intros n. exists []. split; [symmetry; apply app_nil_r | constructor]. }
    split; [tauto|]. split; [intros n; unfold from_found; destruct (found !! n); reflexivity|].
    intros _ i r Hi. rewrite lookup_nil in Hi. discriminate.
  - cbn [add_records] in H.
    destruct (add_record xn Strict specs (p, found) r) as [[p1 f1]| |] eqn:Hstep;
      try discriminate H.
    destruct (add_record_ok _ _ _ _ _ _ _ Hstep) as [Hpool [Hother [[new [Hnew [Hids Hstrict]]] Hf1]]].
    destruct (IH _ _ _ _ H) as [Hlen [Hsuf [Hwf [Hfound Hrec]]]].
    rewrite Hpool, length_app in Hlen. cbn [length] in Hlen.
    assert (Hex1 : forall n, excluded_of p1 n = excluded_of p n \/ n = name r).
    { intros n. destruct (String.eqb n (name r)) eqn:En.
      - right. apply String.eqb_eq, En.
      - left. unfold excluded_of. rewrite Hother by (apply String.eqb_neq, En). reflexivity. }
    assert (Hwf1 : ids_below p -> ids_below p1).
    { intros Hb n x Hx. rewrite Hpool, length_app. cbn [length].
      destruct (Hex1 n) as [Hn| ->].
      - rewrite Hn in Hx. specialize (Hb _ _ Hx). lia.
      - rewrite Hnew in Hx. apply elem_of_app in Hx as [Hx|Hx].
        + specialize (Hb _ _ Hx). lia.
        + rewrite Forall_forall in Hids. rewrite (Hids _ Hx). lia. }
    split; [cbn [length]; lia|].
    split.
    { intros n. destruct (Hsuf n) as [suf [Hs Hf]].
      destruct (Hex1 n) as [Hn| ->].
      - exists suf. rewrite Hs, Hn. split; [reflexivity|].
        rewrite Hpool, length_app in Hf. cbn [length] in Hf.
        eapply Forall_impl; [exact Hf|]. intros x Hx; cbn in Hx; lia.
      - exists (new ++ suf). rewrite Hs, Hnew, app_assoc. split; [reflexivity|].
        apply Forall_app. split.
        + eapply Forall_impl; [exact Hids|]. intros x Hx; cbn in Hx; lia.
        + rewrite Hpool, length_app in Hf. cbn [length] in Hf.
          eapply Forall_impl; [exact Hf|]. intros x Hx; cbn in Hx; lia. }
    split; [intros Hb; apply Hwf, Hwf1, Hb|].
    split.
    { intros n. rewrite Hfound, Hf1. apply from_found_step. }
    intros Hb i r' Hi.
    destruct i as [|i].
    + cbn in Hi. injection Hi as <-.
      destruct (Hsuf (name r)) as [suf [Hs Hf]].
      rewrite Hs, Hnew, Nat.add_0_r.
      rewrite elem_of_app, elem_of_app.
      rewrite Hpool, length_app in Hf. cbn [length] in Hf.
      rewrite Forall_forall in Hf.
      split.
      * intros [[Hx|Hx]|Hx].
        -- specialize (Hb _ _ Hx). cbn in Hb. lia.
        -- apply Hstrict in Hx. unfold from_found. cbn [take first_channel].
           destruct Hx as [Hin [c [Hc Hne]]]. rewrite Hc. split; [exact Hin|].
           exists c. split; [reflexivity|exact Hne].
        -- specialize (Hf _ Hx). cbn in Hf. lia.
      * intros [Hin [c [Hc Hne]]]. left; right. apply Hstrict.
        split; [exact Hin|]. exists c. split; [|exact Hne].
        unfold from_found in Hc. cbn [take first_channel] in Hc.
        destruct (found !! name r); [exact Hc|discriminate Hc].
    + cbn in Hi.
      specialize (Hrec (Hwf1 Hb) i r' Hi).
      rewrite Hpool, length_app in Hrec. cbn [length] in Hrec.
      replace (length (pool p) + S i) with (length (pool p) + 1 + i) by lia.
      rewrite Hrec.
      assert (Hff : forall m, from_found specs f1 (take i rs) m = from_found specs found (take (S i) (r :: rs)) m).
      { intros m. rewrite Hf1, from_found_step. reflexivity. }
      rewrite Hff. reflexivity.
Qed.

Lemma add_records_app xn prio specs st l1 l2 :
  add_records xn prio specs st (l1 ++ l2) =
  match add_records xn prio specs st l1 with
  | ROk st' => add_records xn prio specs st' l2 | RErr e => RErr e | RPanic => RPanic end.
Proof.
  revert st; induction l1 as [|r l1 IH]; intros st; cbn [add_records app]; [reflexivity|].
  destruct (add_record xn prio specs st r); [apply IH|reflexivity|reflexivity].
Qed.

Lemma add_repodata_concat xn prio specs repodata : forall st st',
  add_repodata xn prio specs st repodata = ROk st' ->
  exists ordered, Forall2 (fun rs o => dedup xn rs = ROk o) repodata ordered /\
    add_records xn prio specs st (concat ordered) = ROk st'.
Proof.
  induction repodata as [|rs repodata IH]; intros st st' H; cbn [add_repodata] in H.
  - injection H as <-. exists []. split; [constructor|reflexivity].
  - destruct (dedup xn rs) as [o| |] eqn:Ed; try discriminate H.
    destruct (add_records xn prio specs st o) as [st1| |] eqn:Ea; try discriminate H.
    destruct (IH _ _ H) as [os [Hf Hr]].
    exists (o :: os). split; [constructor; assumption|].
    cbn [concat]. rewrite add_records_app, Ea. exact Hr.
Qed.

Lemma add_virtual_fold vps : forall p,
  length (pool (fold_left add_virtual vps p)) = length (pool p) + length vps /\
  forall n, excluded_of (fold_left add_virtual vps p) n = excluded_of p n.
Proof.
  induction vps as [|vp vps IH]; intros p; cbn [fold_left length].
  - split; [lia|reflexivity].
  - destruct (IH (add_virtual p vp)) as [Hl He]. split.
    + rewrite Hl. cbn. rewrite length_app. cbn. lia.
    + intros n. rewrite He. unfold excluded_of, add_virtual. cbn [records].
      destruct (String.eqb n vp) eqn:En.
      * apply String.eqb_eq in En. subst n. rewrite lookup_insert_eq. reflexivity.
      * apply String.eqb_neq in En. rewrite lookup_insert_ne by congruence. reflexivity.
Qed.

Lemma add_favored_fold rs : forall p n,
  excluded_of (fold_left add_favored rs p) n = excluded_of p n.
Proof.
  induction rs as [|r rs IH]; intros p n; cbn [fold_left]; [reflexivity|].
  rewrite IH. unfold excluded_of, add_favored. cbn [records].
  destruct (String.eqb n (name r)) eqn:En.
  - apply String.eqb_eq in En. subst n. rewrite lookup_insert_eq. reflexivity.
  - apply String.eqb_neq in En. rewrite lookup_insert_ne by congruence. reflexivity.
Qed.

Lemma add_locked_fold rs : forall p n,
  excluded_of (fold_left add_locked rs p) n = excluded_of p n.
Proof.
  induction rs as [|r rs IH]; intros p n; cbn [fold_left]; [reflexivity|].
  rewrite IH. unfold excluded_of, add_locked. cbn [records].
  destruct (String.eqb n (name r)) eqn:En.
  - apply String.eqb_eq in En. subst n. rewrite lookup_insert_eq. reflexivity.
  - apply String.eqb_neq in En. rewrite lookup_insert_ne by congruence. reflexivity.
Qed.

(** The strict channel priority exclusions of the repodata records, and a
    bound on the ids of all exclusions. *)
Lemma strict_priority_core xn specs repodata favored_records locked_records virtual_packages p :
  from_solver_task xn Strict specs repodata favored_records locked_records virtual_packages = ROk p ->
  exists ordered,
    Forall2 (fun rs o => dedup xn rs = ROk o) repodata ordered /\
    (forall i r, concat ordered !! i = Some r ->
       ((length virtual_packages + i, StrictChannelPriority (channel r)) ∈ excluded_of p (name r) <->
        in_requested_channel specs r = true /\
        exists c, first_channel specs (take i (concat ordered)) (name r) = Some c /\ c <> channel r)) /\
    (forall n x, x ∈ excluded_of p n -> fst x < length virtual_packages + length (concat ordered)).
Proof.
  unfold from_solver_task. intros H.
  destruct (add_virtual_fold virtual_packages (mkProvider [] ∅)) as [Hvl Hve].
  set (p0 := fold_left add_virtual virtual_packages (mkProvider [] ∅)) in *.
  destruct (add_repodata xn Strict specs (p0, ∅) repodata) as [[p1 f1]| |] eqn:Ha; try discriminate H.
  injection H as <-.
  destruct (add_repodata_concat _ _ _ _ _ _ Ha) as [os [Hos Hrun]].
  destruct (add_records_spec _ _ _ _ _ _ _ Hrun) as [Hlen [_ [Hwf [_ Hrec]]]].
  assert (Hb0 : ids_below p0).
  { intros n x Hx. rewrite Hve in Hx. unfold excluded_of in Hx. cbn in Hx.
    rewrite lookup_empty in Hx. cbn in Hx. apply elem_of_nil in Hx. contradiction. }
  cbn [pool length] in Hvl.
  exists os. split; [exact Hos|]. split.
  - intros i r Hi. rewrite add_locked_fold, add_favored_fold.
    rewrite Hvl in Hrec. rewrite (Hrec Hb0 i r Hi).
    unfold from_found. rewrite lookup_empty. reflexivity.
  - intros n x Hx. rewrite add_locked_fold, add_favored_fold in Hx.
    specialize (Hwf Hb0 n x Hx). rewrite Hlen, Hvl in Hwf. exact Hwf.
Qed.

(** C7 (counterexample). Under strict priority, with the spec [c2::n], the
    record of [n] from [c2] is a candidate without exclusion although [n]
    first appeared in [c1] (whose record is excluded as not requested); and
    a locked record of [n] from [c2] is never excluded. *)
Lemma channel_spec_bypasses_strict_priority :
  from_solver_task None Strict [spec_c2] [[rec_c1]; [rec_c2]] [] [] [] = ROk provider_c1_c2 /\
  channel rec_c1 = "c1"%string /\ channel rec_c2 = "c2"%string /\
  excluded_of provider_c1_c2 "n" = [(0, NotInRequestedChannel "c2")] /\
  from_solver_task None Strict [] [[rec_c1]] [] [rec_c2] [] = ROk provider_locked /\
  excluded_of provider_locked "n" = [].
Proof. split_and!; vm_compute; reflexivity. Qed.

Lemma map_insert_same {A B} (f : A -> B) (l : list A) i x y :
  l !! i = Some y -> f y = f x -> map f (<[i := x]> l) = map f l.
Proof.
  revert i; induction l as [|a l IH]; intros [|i] Hi Hf; try discriminate; cbn in *.
  - injection Hi as ->. rewrite Hf. reflexivity.
  - rewrite IH by assumption. reflexivity.
Qed.

Lemma elem_of_insert_list {A} (l : list A) i x r : r ∈ <[i := x]> l -> r = x \/ r ∈ l.
Proof.
  revert i; induction l as [|a l IH]; intros [|i] H; cbn in H; try (right; exact H).
  - apply elem_of_cons in H as [->|H]; [left; reflexivity|right; apply elem_of_cons; right; exact H].
  - apply elem_of_cons in H as [->|H]; [right; apply elem_of_cons; left; reflexivity|].
    destruct (IH i H) as [->|H']; [left; reflexivity|right; apply elem_of_cons; right; exact H'].
Qed.

Lemma dedup_step_inv xn rs st r st' :
  r ∈ rs -> dedup_inv rs st -> dedup_step xn st r = ROk st' -> dedup_inv rs st'.
Proof.
  destruct st as [ord m]. intros Hr (Hnd & Hsub & Hidx & Hdom) H.
  unfold dedup_step in H. fold (stem_and_type r) in H.
  assert (Hs : stem r = fst (stem_and_type r)) by reflexivity.
  destruct (stem_and_type r) as [s t] eqn:Est. cbn [fst] in Hs.
  destruct (m !! s) as [[[pt idx] pe]|] eqn:Em.
  - destruct (Hidx _ _ _ _ Em) as (r0 & Hr0 & Hs0).
    assert (Hrep : forall b, dedup_inv rs (<[idx := r]> ord, <[s := (t, idx, b)]> m)).
    { intros b. split_and!.
      - rewrite (map_insert_same _ _ _ _ _ Hr0) by congruence. exact Hnd.
      - intros r' Hr'. apply elem_of_insert_list in Hr' as [->|Hr']; auto.
      - intros k t' i' b' Hk. destruct (decide (k = s)) as [->|Hne].
        + rewrite lookup_insert_eq in Hk. injection Hk as <- <- <-. exists r. split; [|congruence].
          apply list_lookup_insert_eq. apply lookup_lt_is_Some. eauto.
        + rewrite lookup_insert_ne in Hk by congruence. destruct (Hidx _ _ _ _ Hk) as (r1 & Hr1 & Hs1).
          destruct (decide (i' = idx)) as [->|Hi].
          * congruence.
          * exists r1. rewrite list_lookup_insert_ne by congruence. auto.
      - intros k. rewrite (map_insert_same _ _ _ _ _ Hr0) by congruence. rewrite <- Hdom.
        destruct (decide (k = s)) as [->|Hne].
        + rewrite lookup_insert_eq. split; [intros _; eauto|intros _; eauto].
        + rewrite lookup_insert_ne by congruence. reflexivity. }
    destruct (pe && negb (is_excluded xn r)); [injection H as <-; apply Hrep|].
    destruct (is_excluded xn r && negb pe); [injection H as <-; exact (conj Hnd (conj Hsub (conj Hidx Hdom)))|].
    destruct (archive_cmp t pt); try discriminate; injection H as <-; [exact (conj Hnd (conj Hsub (conj Hidx Hdom)))|apply Hrep].
  - injection H as <-. split_and!.
    + rewrite map_app. apply NoDup_app. split_and!; [exact Hnd| |apply NoDup_singleton].
      intros k Hk Hk'. apply list_elem_of_singleton in Hk'. subst k.
      apply Hdom in Hk as [v Hv]. congruence.
    + intros r' Hr'. apply elem_of_app in Hr' as [Hr'|Hr']; [auto|apply list_elem_of_singleton in Hr'; subst; exact Hr].
    + intros k t' i' b' Hk. destruct (decide (k = s)) as [->|Hne].
      * rewrite lookup_insert_eq in Hk. injection Hk as <- <- <-. exists r.
        rewrite lookup_app_r, Nat.sub_diag by lia. split; [reflexivity|congruence].
      * rewrite lookup_insert_ne in Hk by congruence. destruct (Hidx _ _ _ _ Hk) as (r1 & Hr1 & Hs1).
        exists r1. split; [|exact Hs1]. apply lookup_app_l_Some, Hr1.
    + intros k. rewrite map_app, elem_of_app. cbn [map]. rewrite list_elem_of_singleton, <- Hdom, <- Hs.
      destruct (decide (k = stem r)) as [->|Hne].
      * rewrite lookup_insert_eq. split; [intros _; right; reflexivity|intros _; eauto].
      * rewrite lookup_insert_ne by congruence. split; [intros H'; left; exact H'|].
        intros [H'|H']; [exact H'|contradiction].
Qed.

Lemma dedup_step_cover xn rs ord m r ord' m' :
  dedup_inv rs (ord, m) -> dedup_step xn (ord, m) r = ROk (ord', m') ->
  forall k, k ∈ map stem ord \/ k = stem r -> exists v, m' !! k = Some v.
Proof.
  intros (_ & _ & _ & Hdom) H k Hk.
  assert (Hold : k ∈ map stem ord -> exists v, m !! k = Some v) by (intros; apply Hdom; assumption).
  unfold dedup_step in H. fold (stem_and_type r) in H. unfold stem in Hk.
  destruct (stem_and_type r) as [s t]. cbn [fst] in Hk.
  assert (Hins : forall v, exists v', <[s := v]> m !! k = Some v').
  { intros v. destruct (decide (k = s)) as [->|Hne]; [rewrite lookup_insert_eq; eauto|].
    rewrite lookup_insert_ne by congruence. destruct Hk as [Hk|Hk]; [apply Hold, Hk|congruence]. }
  destruct (m !! s) as [[[pt idx] pe]|] eqn:Em; [|injection H as _ <-; apply Hins].
  assert (Hkeep : exists v, m !! k = Some v) by (destruct Hk as [Hk| ->]; [apply Hold, Hk|eauto]).
  destruct (pe && negb (is_excluded xn r)); [injection H as _ <-; apply Hins|].
  destruct (is_excluded xn r && negb pe); [injection H as _ <-; exact Hkeep|].
  destruct (archive_cmp t pt); try discriminate; injection H as _ <-; [exact Hkeep|apply Hins].
Qed.

Lemma dedup_loop_inv xn rs l : forall ord m,
  (forall r, r ∈ l -> r ∈ rs) -> dedup_inv rs (ord, m) ->
  match dedup_loop xn (ord, m) l with
  | ROk (ord', m') => dedup_inv rs (ord', m') /\
      forall k, k ∈ map stem ord \/ k ∈ map stem l -> k ∈ map stem ord'
  | RErr (DuplicateRecords f) => exists r, r ∈ rs /\ file_name r = f
  | RPanic => False
  end.
Proof.
  induction l as [|r l IH]; intros ord m Hl Hinv; cbn [dedup_loop].
  { split; [exact Hinv|]. intros k [Hk|Hk]; [exact Hk|apply elem_of_nil in Hk; contradiction]. }
  assert (Hr : r ∈ rs) by (apply Hl, elem_of_cons; left; reflexivity).
  destruct (dedup_step xn (ord, m) r) as [[ord1 m1]|[f]|] eqn:Hs.
  - pose proof (dedup_step_inv xn rs (ord, m) r (ord1, m1) Hr Hinv Hs) as Hinv1.
    specialize (IH ord1 m1 ltac:(intros r' Hr'; apply Hl, elem_of_cons; right; exact Hr') Hinv1).
    destruct (dedup_loop xn (ord1, m1) l) as [[ord' m']|[f]|]; [|exact IH|exact IH].
    destruct IH as [Hinv' Hcov]. split; [exact Hinv'|].
    intros k Hk. apply Hcov.
    destruct Hk as [Hk|Hk]; [left|cbn [map] in Hk; apply elem_of_cons in Hk as [Hk|Hk]; [left|right; exact Hk]];
      destruct Hinv1 as (_ & _ & _ & Hdom1); apply Hdom1;
      apply (dedup_step_cover xn rs ord m r ord1 m1 Hinv Hs); auto.
  - exists r. split; [exact Hr|]. unfold dedup_step in Hs.
    destruct (default _ _) as [s t]. destruct (m !! s) as [[[pt idx] pe]|]; [|discriminate].
    destruct (_ && _); [discriminate|]. destruct (_ && _); [discriminate|].
    destruct (archive_cmp t pt); try discriminate. injection Hs as <-. reflexivity.
  - unfold dedup_step in Hs.
    destruct (default _ _) as [s t]. destruct (m !! s) as [[[pt idx] pe]|]; [|discriminate].
    destruct (_ && _); [discriminate|]. destruct (_ && _); [discriminate|].
    destruct (archive_cmp t pt); discriminate.
Qed.

Lemma dedup_inv_empty rs : dedup_inv rs ([], ∅).
Proof.
  split_and!; [constructor | intros r H; apply elem_of_nil in H; contradiction | |].
  - intros k t idx b H. rewrite lookup_empty in H. discriminate.
  - intros k. rewrite lookup_empty. split; [intros [v H]; discriminate|intros H; apply elem_of_nil in H; contradiction].
Qed.

Lemma dedup_sim_step xn rs s idx w vw r o1 m1 :
  r ∈ rs -> stem r <> s -> dedup_inv rs (o1, m1) ->
  (exists r0, o1 !! idx = Some r0 /\ stem r0 = s) ->
  match dedup_step xn (o1, m1) r with
  | ROk (o1', m1') =>
      dedup_step xn (<[idx := w]> o1, <[s := vw]> m1) r = ROk (<[idx := w]> o1', <[s := vw]> m1') /\
      m1' !! s = m1 !! s /\ o1' !! idx = o1 !! idx
  | RErr e => dedup_step xn (<[idx := w]> o1, <[s := vw]> m1) r = RErr e
  | RPanic => dedup_step xn (<[idx := w]> o1, <[s := vw]> m1) r = RPanic
  end.
Proof.
  intros _ Hrs (_ & _ & Hidx & _) (r0 & Hr0 & Hs0).
  assert (Hlt : idx < length o1) by (apply lookup_lt_is_Some; eauto).
  unfold dedup_step. fold (stem_and_type r).
  assert (Hk : stem r = fst (stem_and_type r)) by reflexivity.
  destruct (stem_and_type r) as [k t] eqn:Est. cbn [fst] in Hk. subst k.
  rewrite (lookup_insert_ne _ s (stem r)) by congruence.
  destruct (m1 !! stem r) as [[[pt idx'] pe]|] eqn:Em.
  - destruct (Hidx _ _ _ _ Em) as (r' & Hr' & Hs').
    assert (Hne : idx' <> idx) by (intros ->; congruence).
    assert (Hrep : forall b,
      <[idx' := r]> (<[idx := w]> o1) = <[idx := w]> (<[idx' := r]> o1) /\
      <[stem r := (t, idx', b)]> (<[s := vw]> m1) = <[s := vw]> (<[stem r := (t, idx', b)]> m1) /\
      (<[stem r := (t, idx', b)]> m1) !! s = m1 !! s /\ (<[idx' := r]> o1) !! idx = o1 !! idx).
    { intros b. split_and!.
      - apply list_insert_insert_ne. exact Hne.
      - apply insert_insert_ne. congruence.
      - apply lookup_insert_ne. congruence.
      - apply list_lookup_insert_ne. congruence. }
    destruct (pe && negb (is_excluded xn r)).
    { destruct (Hrep false) as (E1 & E2 & E3 & E4). rewrite E1, E2. auto. }
    destruct (is_excluded xn r && negb pe); [auto|].
    destruct (archive_cmp t pt); [reflexivity| auto |].
    destruct (Hrep (is_excluded xn r)) as (E1 & E2 & E3 & E4). rewrite E1, E2. auto.
  - rewrite length_insert. split_and!.
    + rewrite insert_app_l by exact Hlt. rewrite insert_insert_ne by congruence. reflexivity.
    + apply lookup_insert_ne. congruence.
    + apply lookup_app_l. exact Hlt.
Qed.

Lemma dedup_sim_loop xn rs s idx w vw l : forall o1 m1,
  (forall r, r ∈ l -> r ∈ rs) -> Forall (fun r => stem r <> s) l -> dedup_inv rs (o1, m1) ->
  (exists r0, o1 !! idx = Some r0 /\ stem r0 = s) ->
  match dedup_loop xn (o1, m1) l with
  | ROk (o1', m1') =>
      dedup_loop xn (<[idx := w]> o1, <[s := vw]> m1) l = ROk (<[idx := w]> o1', <[s := vw]> m1') /\
      m1' !! s = m1 !! s /\ o1' !! idx = o1 !! idx
  | RErr e => dedup_loop xn (<[idx := w]> o1, <[s := vw]> m1) l = RErr e
  | RPanic => dedup_loop xn (<[idx := w]> o1, <[s := vw]> m1) l = RPanic
  end.
Proof.
  induction l as [|r l IH]; intros o1 m1 Hl Hf Hinv Hr0; cbn [dedup_loop]; [auto|].
  apply Forall_cons in Hf as [Hrs Hf].
  assert (Hr : r ∈ rs) by (apply Hl, elem_of_cons; left; reflexivity).
  pose proof (dedup_sim_step xn rs s idx w vw r o1 m1 Hr Hrs Hinv Hr0) as Hs.
  destruct (dedup_step xn (o1, m1) r) as [[o1a m1a]| |] eqn:Est; rewrite ?Hs; [|reflexivity|reflexivity].
  destruct Hs as (-> & Hm & Ho).
  pose proof (dedup_step_inv xn rs (o1, m1) r (o1a, m1a) Hr Hinv Est) as Hinv1.
  specialize (IH o1a m1a ltac:(intros r' Hr'; apply Hl, elem_of_cons; right; exact Hr') Hf Hinv1
                ltac:(rewrite Ho; exact Hr0)).
  destruct (dedup_loop xn (o1a, m1a) l) as [[o' m']| |]; [|exact IH|exact IH].
  destruct IH as (-> & Hm' & Ho'). split_and!; [reflexivity|congruence|congruence].
Qed.

Lemma stem_not_in_forall s l : s ∉ map stem l -> Forall (fun r => stem r <> s) l.
Proof.
  intros Hs. apply Forall_forall. intros r Hr Heq. apply Hs. rewrite <- Heq.
  apply list_elem_of_In, in_map, list_elem_of_In, Hr.
Qed.

Lemma dedup_prefix xn rs pre s :
  (forall r, r ∈ pre -> r ∈ rs) -> s ∉ map stem pre ->
  match dedup_loop xn ([], ∅) pre with
  | ROk (o, m) => dedup_inv rs (o, m) /\ m !! s = None
  | _ => True
  end.
Proof.
  intros Hsub Hs.
  pose proof (dedup_loop_inv xn rs pre [] ∅ Hsub (dedup_inv_empty rs)) as H1.
  pose proof (dedup_loop_inv xn pre pre [] ∅ (fun r H => H) (dedup_inv_empty pre)) as H2.
  destruct (dedup_loop xn ([], ∅) pre) as [[o m]| |]; [|exact I|exact I].
  destruct H1 as [Hinv _]. destruct H2 as [(_ & Hsub2 & _ & Hdom) _].
  split; [exact Hinv|]. destruct (m !! s) as [v|] eqn:Em; [|reflexivity].
  exfalso. assert (Hin : s ∈ map stem o) by (apply Hdom; eauto).
  apply list_elem_of_In, in_map_iff in Hin as (r & <- & Hr).
  apply Hs, list_elem_of_In, in_map, list_elem_of_In, Hsub2, list_elem_of_In, Hr.
Qed.

Lemma dedup_after_pair xn pre r1 mid r2 post s o m :
  stem r1 = s -> stem r2 = s -> s ∉ map stem (pre ++ mid ++ post) ->
  dedup_loop xn ([], ∅) pre = ROk (o, m) ->
  m !! s = None /\
  forall w vw,
  let v1 := (snd (stem_and_type r1), length o, is_excluded xn r1) in
  match dedup_loop xn (o ++ [r1], <[s := v1]> m) mid with
  | ROk (o1', m1') =>
      dedup_loop xn (o ++ [w], <[s := vw]> m) mid = ROk (<[length o := w]> o1', <[s := vw]> m1') /\
      m1' !! s = Some v1 /\ o1' !! length o = Some r1
  | RErr e => dedup_loop xn (o ++ [w], <[s := vw]> m) mid = RErr e
  | RPanic => dedup_loop xn (o ++ [w], <[s := vw]> m) mid = RPanic
  end.
Proof.
  intros H1 H2 Hs Hrun.
  set (full := pre ++ r1 :: mid ++ r2 :: post).
  assert (Hpre : forall r, r ∈ pre -> r ∈ full)
    by (intros r Hr; unfold full; apply elem_of_app; left; exact Hr).
  assert (Hmid : forall r, r ∈ mid -> r ∈ full)
    by (intros r Hr; unfold full; apply elem_of_app; right; apply elem_of_cons; right;
        apply elem_of_app; left; exact Hr).
  rewrite !map_app in Hs.
  assert (Hs_pre : s ∉ map stem pre) by (intros Hin; apply Hs, elem_of_app; left; exact Hin).
  assert (Hs_mid : s ∉ map stem mid)
    by (intros Hin; apply Hs, elem_of_app; right; apply elem_of_app; left; exact Hin).
  pose proof (dedup_prefix xn full pre s Hpre Hs_pre) as Hp. rewrite Hrun in Hp.
  destruct Hp as [Hinv Hnone]. split; [exact Hnone|]. intros w vw. cbv zeta.
  assert (Hst : dedup_step xn (o, m) r1 =
                ROk (o ++ [r1], <[s := (snd (stem_and_type r1), length o, is_excluded xn r1)]> m)).
  { rewrite dedup_step_fresh by (rewrite H1; exact Hnone). rewrite H1. reflexivity. }
  assert (Hinv1 := dedup_step_inv xn full (o, m) r1 _
                     ltac:(unfold full; apply elem_of_app; right; apply elem_of_cons; left; reflexivity)
                     Hinv Hst).
  assert (Hr0 : exists r0, (o ++ [r1]) !! length o = Some r0 /\ stem r0 = s).
  { exists r1. rewrite lookup_app_r, Nat.sub_diag by lia. auto. }
  pose proof (dedup_sim_loop xn full s (length o) w vw mid _ _ Hmid (stem_not_in_forall _ _ Hs_mid)
                Hinv1 Hr0) as Hsim.
  assert (Eo : <[length o := w]> (o ++ [r1]) = o ++ [w]).
  { rewrite insert_app_r_alt, Nat.sub_diag by lia. reflexivity. }
  rewrite Eo, insert_insert_eq in Hsim.
  destruct (dedup_loop xn _ mid) as [[o1' m1']| |]; [|exact Hsim|exact Hsim].
  destruct Hsim as (-> & Hm & Ho). split_and!; [reflexivity| |].
  - rewrite Hm. apply lookup_insert_eq.
  - rewrite Ho, lookup_app_r, Nat.sub_diag by lia. reflexivity.
Qed.

Lemma dedup_drop_loser xn pre r1 mid r2 post s w :
  stem r1 = s -> stem r2 = s -> stem w = s -> s ∉ map stem (pre ++ mid ++ post) ->
  (forall o m idx, m !! s = Some (snd (stem_and_type r1), idx, is_excluded xn r1) -> o !! idx = Some r1 ->
     dedup_step xn (o, m) r2 =
       ROk (<[idx := w]> o, <[s := (snd (stem_and_type w), idx, is_excluded xn w)]> m)) ->
  dedup xn (pre ++ r1 :: mid ++ r2 :: post) = dedup xn (pre ++ w :: mid ++ post).
Proof.
  intros H1 H2 Hw Hs Hstep.
  unfold dedup. rewrite !dedup_loop_app.
  destruct (dedup_loop xn ([], ∅) pre) as [[o m]| |] eqn:Hrun; [|reflexivity|reflexivity].
  destruct (dedup_after_pair xn pre r1 mid r2 post s o m H1 H2 Hs Hrun) as [Hnone Ha].
  specialize (Ha w (snd (stem_and_type w), length o, is_excluded xn w)). cbv zeta in Ha.
  cbn [dedup_loop].
  rewrite !dedup_step_fresh by (rewrite ?H1, ?Hw; exact Hnone). rewrite H1, Hw.
  rewrite !dedup_loop_app.
  destruct (dedup_loop xn (o ++ [r1], _) mid) as [[o1' m1']| |]; [|rewrite Ha; reflexivity|rewrite Ha; reflexivity].
  destruct Ha as (Hrun2 & Hm & Ho). rewrite Hrun2. cbn [dedup_loop]. rewrite (Hstep _ _ _ Hm Ho). reflexivity.
Qed.

Lemma dedup_tie xn pre r1 mid r2 post s err :
  stem r1 = s -> stem r2 = s -> s ∉ map stem (pre ++ mid ++ post) ->
  (forall o m idx, m !! s = Some (snd (stem_and_type r1), idx, is_excluded xn r1) -> o !! idx = Some r1 ->
     dedup_step xn (o, m) r2 = RErr err) ->
  dedup xn (pre ++ r1 :: mid ++ r2 :: post) =
    match dedup xn (pre ++ r1 :: mid) with ROk _ => RErr err | RErr e => RErr e | RPanic => RPanic end.
Proof.
  intros H1 H2 Hs Hstep.
  unfold dedup. rewrite !dedup_loop_app.
  destruct (dedup_loop xn ([], ∅) pre) as [[o m]| |] eqn:Hrun; [|reflexivity|reflexivity].
  destruct (dedup_after_pair xn pre r1 mid r2 post s o m H1 H2 Hs Hrun) as [Hnone Ha].
  specialize (Ha r1 (snd (stem_and_type r1), length o, is_excluded xn r1)). cbv zeta in Ha.
  cbn [dedup_loop]. rewrite dedup_step_fresh by (rewrite H1; exact Hnone). rewrite H1.
  rewrite !dedup_loop_app.
  destruct (dedup_loop xn (o ++ [r1], _) mid) as [[o1' m1']| |]; [|reflexivity|reflexivity].
  destruct Ha as (_ & Hm & Ho). cbn [dedup_loop]. rewrite (Hstep _ _ _ Hm Ho). reflexivity.
Qed.

Lemma dedup_keeps_only xn pre w mid post s out :
  stem w = s -> s ∉ map stem (pre ++ mid ++ post) -> dedup xn (pre ++ w :: mid ++ post) = ROk out ->
  w ∈ out /\ forall r, r ∈ out -> stem r = s -> r = w.
Proof.
  intros Hw Hs H. set (red := pre ++ w :: mid ++ post) in *.
  assert (Honly : forall r, r ∈ red -> stem r = s -> r = w).
  { intros r Hr Hrs. unfold red in Hr. rewrite elem_of_app, elem_of_cons, elem_of_app in Hr.
    destruct Hr as [Hr|[->|[Hr|Hr]]]; [|reflexivity| |]; exfalso; apply Hs; rewrite <- Hrs;
      apply list_elem_of_In, in_map, list_elem_of_In; rewrite ?elem_of_app; auto. }
  unfold dedup in H.
  pose proof (dedup_loop_inv xn red red [] ∅ (fun r H => H) (dedup_inv_empty red)) as Hl.
  destruct (dedup_loop xn ([], ∅) red) as [[ord m]| |]; [|discriminate|discriminate].
  injection H as <-. destruct Hl as [(_ & Hsub & _ & _) Hcov].
  assert (Hr : forall r, r ∈ ord -> stem r = s -> r = w) by (intros r Hr Hrs; apply Honly; auto).
  split; [|exact Hr].
  assert (Hin : s ∈ map stem ord).
  { apply Hcov. right. rewrite <- Hw. apply list_elem_of_In, in_map, list_elem_of_In.
    unfold red. apply elem_of_app. right. apply elem_of_cons. left. reflexivity. }
  apply list_elem_of_In, in_map_iff in Hin as (r & Hrs & Hr').
  apply list_elem_of_In in Hr'. rewrite <- (Hr r Hr' Hrs). exact Hr'.
Qed.

(** C8. Two records of one repodata set with the same file stem, and no
    other record of that stem (the other records are arbitrary, pairs
    included). With different archive types and the same exclusion status,
    the dedup gives what it gives on the set without the [.tar.bz2] one: the
    [.conda] record is kept, in the place of the first. A non-excluded
    record is kept over an excluded one in the same way. With the same
    archive type and the same exclusion status (in particular neither
    excluded), the dedup fails with [DuplicateRecords] naming the second
    file, unless it already failed before it. On success the record kept is
    the only one of its stem in the output. *)
Theorem dedup_prefers_conda xn pre r1 mid r2 post s t1 t2 :
  stem_and_type r1 = (s, t1) -> stem_and_type r2 = (s, t2) ->
  s ∉ map stem (pre ++ mid ++ post) ->
  (t1 <> t2 -> is_excluded xn r1 = is_excluded xn r2 ->
   dedup xn (pre ++ r1 :: mid ++ r2 :: post) =
     dedup xn (pre ++ (match t2 with Conda => r2 | TarBz2 => r1 end) :: mid ++ post)) /\
  (is_excluded xn r1 <> is_excluded xn r2 ->
   dedup xn (pre ++ r1 :: mid ++ r2 :: post) =
     dedup xn (pre ++ (if is_excluded xn r1 then r2 else r1) :: mid ++ post)) /\
  (t1 = t2 -> is_excluded xn r1 = is_excluded xn r2 ->
   dedup xn (pre ++ r1 :: mid ++ r2 :: post) =
     match dedup xn (pre ++ r1 :: mid) with
     | ROk _ => RErr (DuplicateRecords (file_name r2))
     | RErr e => RErr e
     | RPanic => RPanic
     end) /\
  (forall w out, w = r1 \/ w = r2 -> dedup xn (pre ++ w :: mid ++ post) = ROk out ->
     w ∈ out /\ forall r, r ∈ out -> stem r = s -> r = w).
Proof.
  intros H1 H2 Hs.
  assert (S1 : stem r1 = s) by (unfold stem; rewrite H1; reflexivity).
  assert (S2 : stem r2 = s) by (unfold stem; rewrite H2; reflexivity).
  assert (Hstep : forall o m idx, m !! s = Some (snd (stem_and_type r1), idx, is_excluded xn r1) ->
            o !! idx = Some r1 ->
            dedup_step xn (o, m) r2 =
            let e1 := is_excluded xn r1 in
            let e2 := is_excluded xn r2 in
            if e1 && negb e2 then ROk (<[idx := r2]> o, <[s := (t2, idx, false)]> m)
            else if e2 && negb e1 then ROk (o, m)
            else match archive_cmp t2 t1 with
                 | Gt => ROk (<[idx := r2]> o, <[s := (t2, idx, e2)]> m)
                 | Lt => ROk (o, m)
                 | Eq => RErr (DuplicateRecords (file_name r2))
                 end).
  { intros o m idx Hm Ho. rewrite H1 in Hm. cbn [snd] in Hm.
    unfold dedup_step. fold (stem_and_type r2). rewrite H2. cbv beta iota zeta. rewrite Hm.
    reflexivity. }
  assert (Hkeep : forall (o : list RepoDataRecord) (m : gmap string (ArchiveType * nat * bool)) idx,
            m !! s = Some (snd (stem_and_type r1), idx, is_excluded xn r1) ->
            o !! idx = Some r1 ->
            ROk (o, m) = ROk (<[idx := r1]> o,
                              <[s := (snd (stem_and_type r1), idx, is_excluded xn r1)]> m) :> result DedupState).
  { intros o m idx Hm Ho. rewrite list_insert_id, insert_id by assumption. reflexivity. }
  split_and!.
  - intros Ht He. apply (dedup_drop_loser xn pre r1 mid r2 post s); [exact S1|exact S2| |exact Hs|].
    + destruct t2; assumption.
    + intros o m idx Hm Ho. rewrite (Hstep o m idx Hm Ho). cbv zeta. rewrite <- He.
      destruct t1, t2; try contradiction; cbn [archive_cmp archive_rank Nat.compare];
        destruct (is_excluded xn r1); cbn [andb negb].
      all: first [apply (Hkeep o m idx Hm Ho) | rewrite H2; cbn [snd]; rewrite <- He; reflexivity].
  - intros He. apply (dedup_drop_loser xn pre r1 mid r2 post s); [exact S1|exact S2| |exact Hs|].
    + destruct (is_excluded xn r1); assumption.
    + intros o m idx Hm Ho. rewrite (Hstep o m idx Hm Ho). cbv zeta.
      destruct (is_excluded xn r1) eqn:E1, (is_excluded xn r2) eqn:E2; try contradiction; cbn [andb negb].
      * rewrite H2. cbn [snd]. reflexivity.
      * rewrite list_insert_id, insert_id by (rewrite ?Hm, ?E1; first [exact Ho | reflexivity]). reflexivity.
  - intros <- He. apply (dedup_tie xn pre r1 mid r2 post s); [exact S1|exact S2|exact Hs|].
    intros o m idx Hm Ho. rewrite (Hstep o m idx Hm Ho). cbv zeta. rewrite <- He.
    destruct (is_excluded xn r1); cbn [andb negb]; destruct t1; reflexivity.
  - intros w out Hw. apply dedup_keeps_only; [|exact Hs]. destruct Hw as [->| ->]; assumption.
Qed.

Lemma dedup_prefers_conda_witness :
  stem_and_type rec_bz2 = ("n-1.0-0"%string, TarBz2) /\
  stem_and_type rec_conda = ("n-1.0-0"%string, Conda) /\
  ("n-1.0-0"%string ∉ map stem ([rec_a_bz2; rec_a_conda] ++ [rec_b_conda; rec_b_bz2] ++ [])) /\
  dedup None ([rec_a_bz2; rec_a_conda] ++ rec_bz2 :: [rec_b_conda; rec_b_bz2] ++ rec_conda :: []) =
    dedup None ([rec_a_bz2; rec_a_conda] ++ rec_conda :: [rec_b_conda; rec_b_bz2] ++ []) /\
  dedup None ([rec_a_bz2; rec_a_conda] ++ rec_conda :: [rec_b_conda; rec_b_bz2] ++ []) =
    ROk [rec_a_conda; rec_conda; rec_b_conda].
Proof.
  assert (H1 : stem_and_type rec_bz2 = ("n-1.0-0"%string, TarBz2)) by (vm_compute; reflexivity).
  assert (H2 : stem_and_type rec_conda = ("n-1.0-0"%string, Conda)) by (vm_compute; reflexivity).
  assert (Hs : "n-1.0-0"%string ∉ map stem ([rec_a_bz2; rec_a_conda] ++ [rec_b_conda; rec_b_bz2] ++ []))
    by by_decision.
  split; [exact H1|]. split; [exact H2|]. split; [exact Hs|]. split.
  - exact (proj1 (dedup_prefers_conda None [rec_a_bz2; rec_a_conda] rec_bz2 [rec_b_conda; rec_b_bz2]
                    rec_conda [] _ _ _ H1 H2 Hs) ltac:(discriminate) eq_refl).
  - vm_compute. reflexivity.
Defined.

(** The dedup loop never panics. It fails only with [DuplicateRecords] of
    the file name of an input record. On success it keeps one record per
    stem: the stems of its output are distinct and are exactly the stems of
    the input, and every output record is an input record. *)
Theorem dedup_result (xn : option Z) (rs : list RepoDataRecord) :
  match dedup xn rs with
  | ROk ordered =>
      NoDup (map stem ordered) /\ (forall r, r ∈ ordered -> r ∈ rs) /\
      (forall s, s ∈ map stem rs <-> s ∈ map stem ordered)
  | RErr (DuplicateRecords f) => exists r, r ∈ rs /\ file_name r = f
  | RPanic => False
  end.
Proof.
  unfold dedup.
  pose proof (dedup_loop_inv xn rs rs [] ∅ (fun r H => H) (dedup_inv_empty rs)) as Hl.
  destruct (dedup_loop xn ([], ∅) rs) as [[ord m]|[f]|]; [|exact Hl|exact Hl].
  destruct Hl as [(Hnd & Hsub & _ & _) Hcov]. split_and!; [exact Hnd|exact Hsub|].
  intros s. split; [intros Hs; apply Hcov; right; exact Hs|].
  intros Hs. apply list_elem_of_In in Hs. apply in_map_iff in Hs as (r & <- & Hr).
  apply list_elem_of_In, in_map, list_elem_of_In, Hsub, list_elem_of_In, Hr.
Qed.

Ltac step_leaf H Ec ch :=
  cbv beta iota zeta in H; injection H as <- <-; split; [reflexivity|];
  split; [intros n Hn; cbn [records]; apply lookup_insert_ne; congruence|];
  exists ch; split;
  [ | unfold cand_of; cbn [records]; rewrite lookup_insert_eq; cbn [default];
      unfold cutoff_reasons;
      repeat match goal with Hx : is_excluded _ _ = _ |- _ => rewrite Hx; clear Hx end;
      unfold push_excluded, push_candidate, push_hint; cbn;
      rewrite <- ?app_assoc, ?app_nil_r; reflexivity ].

Lemma add_record_step xn prio specs p found r p1 f1 :
  add_record xn prio specs (p, found) r = ROk (p1, f1) ->
  pool p1 = pool p ++ [Record_ r] /\
  (forall n, n <> name r -> records p1 !! n = records p !! n) /\
  exists ch, chan_ok prio specs r ch /\
    let c := cand_of p (name r) in
    cand_of p1 (name r) =
      mkCandidates (candidates c ++ [length (pool p)]) (favored c) (locked c)
        (excluded c ++ map (pair (length (pool p))) (cutoff_reasons xn r ++ ch))
        (hint_dependencies_available c ++ match ch with [] => [length (pool p)] | _ => [] end).
Proof.
  intros H. unfold add_record in H. cbv zeta in H.
  assert (Ec0 : cand_of p (name r) = default candidates_default (records p !! name r)) by reflexivity.
  destruct (default candidates_default (records p !! name r)) as [cc cf cl ce ch0] eqn:Ec.
  rewrite Ec0. cbn [candidates favored locked excluded hint_dependencies_available].
  unfold chan_ok, in_requested_channel.
  destruct xn as [x|]; [destruct (is_excluded (Some x) r) eqn:Ex|];
  (destruct (channel_specific_specs specs) as [|s0 css] eqn:Ecs;
   [cbn [find_spec] |
    destruct (find_spec (s0 :: css) (name r)) as [[spec|]|] eqn:Efs; [| |discriminate H];
    [destruct (spec_channel spec) as [chn|];
     [destruct (String.eqb (channel r) (base_url chn)) eqn:Ech; cbn [negb] in H|]|]]);
  try (step_leaf H Ec [NotInRequestedChannel (default (base_url chn) (channel_name chn))];
       left; split; [reflexivity|eauto]);
  (destruct (found !! name r) as [fc|]; [destruct prio; [destruct (String.eqb fc (channel r)) eqn:Efc; cbn [negb] in H|]|]);
  first [ step_leaf H Ec [StrictChannelPriority (channel r)]; right; split; [reflexivity|right; auto]
        | step_leaf H Ec (@nil Reason); right; split; [reflexivity|left; reflexivity] ].
Qed.

Lemma add_records_inv xn prio specs rs : forall p found p' found',
  add_records xn prio specs (p, found) rs = ROk (p', found') ->
  pool p' = pool p ++ map Record_ rs /\
  exists chans, Forall2 (chan_ok prio specs) rs chans /\
  forall n, cand_of p' n =
    let c := cand_of p n in
    let b := length (pool p) in
    mkCandidates (candidates c ++ named_ids name n b rs) (favored c) (locked c)
      (excluded c ++ excl_contrib xn n b rs chans)
      (hint_dependencies_available c ++ hint_contrib n b rs chans).
Proof.
  induction rs as [|r rs IH]; intros p found p' found' H; cbn [add_records] in H.
  - injection H as <- <-. split; [rewrite app_nil_r; reflexivity|].
    exists []. split; [constructor|]. intros n. cbn.
    destruct (cand_of p n); cbn. rewrite !app_nil_r. reflexivity.
  - destruct (add_record xn prio specs (p, found) r) as [[p1 f1]| |] eqn:Hr; try discriminate H.
    destruct (add_record_step _ _ _ _ _ _ _ _ Hr) as (Hpool & Hother & ch & Hch & Hc).
    destruct (IH _ _ _ _ H) as (Hpool' & chans & Hf & Hn).
    split; [rewrite Hpool', Hpool, <- app_assoc; reflexivity|].
    exists (ch :: chans). split; [constructor; assumption|].
    intros n. rewrite Hn. rewrite Hpool, length_app. cbn [length]. rewrite Nat.add_1_r.
    cbn [named_ids excl_contrib hint_contrib].
    destruct (String.eqb (name r) n) eqn:En.
    + apply String.eqb_eq in En. subst n. rewrite Hc. cbn.
      rewrite <- !app_assoc. reflexivity.
    + apply String.eqb_neq in En.
      assert (Hpn : cand_of p1 n = cand_of p n) by (unfold cand_of; rewrite Hother by congruence; reflexivity).
      rewrite Hpn. reflexivity.
Qed.

Lemma cand_of_insert p pl n m c :
  cand_of (mkProvider pl (<[m := c]> (records p))) n = if String.eqb m n then c else cand_of p n.
Proof.
  unfold cand_of. cbn [records]. destruct (String.eqb m n) eqn:En.
  - apply String.eqb_eq in En. subst. rewrite lookup_insert_eq. reflexivity.
  - apply String.eqb_neq in En. rewrite lookup_insert_ne by congruence. reflexivity.
Qed.

Lemma add_virtual_inv vps : forall p,
  pool (fold_left add_virtual vps p) = pool p ++ map VirtualPackage vps /\
  forall n, cand_of (fold_left add_virtual vps p) n =
    let c := cand_of p n in
    mkCandidates (candidates c ++ named_ids (fun v => v) n (length (pool p)) vps) (favored c) (locked c)
      (excluded c) (hint_dependencies_available c).
Proof.
  induction vps as [|vp vps IH]; intros p; cbn [fold_left].
  - split; [rewrite app_nil_r; reflexivity|]. intros n. cbn. destruct (cand_of p n); cbn.
    rewrite app_nil_r. reflexivity.
  - destruct (IH (add_virtual p vp)) as [Hp Hc]. split.
    + rewrite Hp. cbn. rewrite <- app_assoc. reflexivity.
    + intros n. rewrite Hc. unfold add_virtual. rewrite cand_of_insert. cbn [pool].
      rewrite length_app. cbn [length named_ids]. rewrite Nat.add_1_r.
      destruct (String.eqb vp n) eqn:En.
      * apply String.eqb_eq in En. subst n. fold (cand_of p vp).
        destruct (cand_of p vp); cbn. rewrite <- app_assoc. reflexivity.
      * reflexivity.
Qed.

Lemma add_favored_inv fs : forall p,
  pool (fold_left add_favored fs p) = pool p ++ map Record_ fs /\
  forall n, cand_of (fold_left add_favored fs p) n =
    let c := cand_of p n in
    mkCandidates (candidates c ++ named_ids name n (length (pool p)) fs)
      (match last_index n fs with Some k => Some (length (pool p) + k) | None => favored c end)
      (locked c) (excluded c) (hint_dependencies_available c).
Proof.
  induction fs as [|r fs IH]; intros p; cbn [fold_left].
  - split; [rewrite app_nil_r; reflexivity|]. intros n. cbn. destruct (cand_of p n); cbn.
    rewrite app_nil_r. reflexivity.
  - destruct (IH (add_favored p r)) as [Hp Hc]. split.
    + rewrite Hp. cbn. rewrite <- app_assoc. reflexivity.
    + intros n. rewrite Hc. unfold add_favored. rewrite cand_of_insert. cbn [pool].
      rewrite length_app. cbn [length named_ids last_index]. rewrite Nat.add_1_r.
      destruct (String.eqb (name r) n) eqn:En.
      * apply String.eqb_eq in En. subst n. fold (cand_of p (name r)).
        destruct (cand_of p (name r)); cbn.
        rewrite <- app_assoc. destruct (last_index (name r) fs); [do 2 f_equal; lia|].
        rewrite Nat.add_0_r. reflexivity.
      * destruct (last_index n fs); [do 2 f_equal; lia|reflexivity].
Qed.

Lemma add_locked_inv fs : forall p,
  pool (fold_left add_locked fs p) = pool p ++ map Record_ fs /\
  forall n, cand_of (fold_left add_locked fs p) n =
    let c := cand_of p n in
    mkCandidates (candidates c ++ named_ids name n (length (pool p)) fs) (favored c)
      (match last_index n fs with Some k => Some (length (pool p) + k) | None => locked c end)
      (excluded c) (hint_dependencies_available c).
Proof.
  induction fs as [|r fs IH]; intros p; cbn [fold_left].
  - split; [rewrite app_nil_r; reflexivity|]. intros n. cbn. destruct (cand_of p n); cbn.
    rewrite app_nil_r. reflexivity.
  - destruct (IH (add_locked p r)) as [Hp Hc]. split.
    + rewrite Hp. cbn. rewrite <- app_assoc. reflexivity.
    + intros n. rewrite Hc. unfold add_locked. rewrite cand_of_insert. cbn [pool].
      rewrite length_app. cbn [length named_ids last_index]. rewrite Nat.add_1_r.
      destruct (String.eqb (name r) n) eqn:En.
      * apply String.eqb_eq in En. subst n. fold (cand_of p (name r)).
        destruct (cand_of p (name r)); cbn.
        rewrite <- app_assoc. destruct (last_index (name r) fs); [do 2 f_equal; lia|].
        rewrite Nat.add_0_r. reflexivity.
      * destruct (last_index n fs); [do 2 f_equal; lia|reflexivity].
Qed.

Lemma from_solver_task_shape xn prio specs repodata fs ls vps p :
  from_solver_task xn prio specs repodata fs ls vps = ROk p ->
  exists ordered chans,
    Forall2 (fun rs o => dedup xn rs = ROk o) repodata ordered /\
    Forall2 (chan_ok prio specs) (concat ordered) chans /\
    pool p = map VirtualPackage vps ++ map Record_ (concat ordered ++ fs ++ ls) /\
    let V := length vps in
    let R := length (concat ordered) in
    forall n, cand_of p n =
      mkCandidates
        (named_ids (fun v => v) n 0 vps ++ named_ids name n V (concat ordered)
         ++ named_ids name n (V + R) fs ++ named_ids name n (V + R + length fs) ls)
        (option_map (fun k => V + R + k) (last_index n fs))
        (option_map (fun k => V + R + length fs + k) (last_index n ls))
        (excl_contrib xn n V (concat ordered) chans)
        (hint_contrib n V (concat ordered) chans).
Proof.
  unfold from_solver_task. intros H.
  destruct (add_virtual_inv vps (mkProvider [] ∅)) as [Hvp Hvc].
  destruct (add_repodata xn prio specs (fold_left add_virtual vps (mkProvider [] ∅), ∅) repodata)
    as [[p1 f1]| |] eqn:Ha; try discriminate H.
  injection H as <-.
  destruct (add_repodata_concat _ _ _ _ _ _ Ha) as (ordered & Hd & Hr).
  destruct (add_records_inv _ _ _ _ _ _ _ _ Hr) as (Hp1 & chans & Hch & Hc1).
  destruct (add_favored_inv fs p1) as [Hfp Hfc].
  destruct (add_locked_inv ls (fold_left add_favored fs p1)) as [Hlp Hlc].
  exists ordered, chans. split_and!; [exact Hd|exact Hch| |].
  - rewrite Hlp, Hfp, Hp1, Hvp. cbn [pool]. rewrite !map_app, <- !app_assoc. reflexivity.
  - cbv zeta. intros n. rewrite Hlc, Hfc, Hc1, Hvc, Hfp, Hp1, Hvp. cbn [pool].
    rewrite !length_app, !length_map. cbn [length].
    unfold cand_of at 1. cbn [records]. rewrite lookup_empty. cbn.
    rewrite <- !app_assoc.
    destruct (last_index n fs), (last_index n ls); cbn; reflexivity.
Qed.

Lemma excl_contrib_elem xn n rs : forall base chans x,
  length chans = length rs ->
  x ∈ excl_contrib xn n base rs chans <->
  exists i r ch, rs !! i = Some r /\ chans !! i = Some ch /\ name r = n /\
    fst x = base + i /\ snd x ∈ cutoff_reasons xn r ++ ch.
Proof.
  induction rs as [|r rs IH]; intros base chans x Hlen.
  - cbn. split; [intros H; apply elem_of_nil in H; contradiction|].
    intros (i & r & ch & Hr & _). rewrite lookup_nil in Hr. discriminate.
  - destruct chans as [|ch chans]; [discriminate|]. cbn in Hlen. injection Hlen as Hlen.
    cbn [excl_contrib]. rewrite elem_of_app, IH by exact Hlen. split.
    + intros [Hx|(i & r' & ch' & Hr & Hc & Hn & Hf & Hs)].
      * destruct (String.eqb (name r) n) eqn:En; [|apply elem_of_nil in Hx; contradiction].
        apply String.eqb_eq in En. apply list_elem_of_In, in_map_iff in Hx as (y & <- & Hy).
        exists 0, r, ch. split_and!; first [reflexivity | exact En | cbn; lia | apply list_elem_of_In, Hy].
      * exists (S i), r', ch'. split_and!; auto. lia.
    + intros ([|i] & r' & ch' & Hr & Hc & Hn & Hf & Hs).
      * cbn in Hr, Hc. injection Hr as <-. injection Hc as <-. left.
        rewrite Hn, String.eqb_refl. destruct x as [a y]. cbn in Hf, Hs.
        apply list_elem_of_In, in_map_iff. exists y. split; [f_equal; lia|apply list_elem_of_In, Hs].
      * right. exists i, r', ch'. split_and!; auto. lia.
Qed.

Lemma hint_contrib_elem n rs : forall base chans j,
  length chans = length rs ->
  j ∈ hint_contrib n base rs chans <->
  exists i r, rs !! i = Some r /\ chans !! i = Some [] /\ name r = n /\ j = base + i.
Proof.
  induction rs as [|r rs IH]; intros base chans j Hlen.
  - cbn. split; [intros H; apply elem_of_nil in H; contradiction|].
    intros (i & r & Hr & _). rewrite lookup_nil in Hr. discriminate.
  - destruct chans as [|ch chans]; [discriminate|]. cbn in Hlen. injection Hlen as Hlen.
    cbn [hint_contrib]. rewrite elem_of_app, IH by exact Hlen. split.
    + intros [Hx|(i & r' & Hr & Hc & Hn & Hj)].
      * destruct (String.eqb (name r) n) eqn:En; [|apply elem_of_nil in Hx; contradiction].
        apply String.eqb_eq in En. destruct ch; [|apply elem_of_nil in Hx; contradiction].
        apply list_elem_of_singleton in Hx. exists 0, r. split_and!; auto; cbn; lia.
      * exists (S i), r'. split_and!; auto. lia.
    + intros ([|i] & r' & Hr & Hc & Hn & Hj).
      * cbn in Hr, Hc. injection Hr as <-. injection Hc as ->. left.
        rewrite Hn, String.eqb_refl. apply list_elem_of_singleton. lia.
      * right. exists i, r'. split_and!; auto. lia.
Qed.

Lemma named_ids_app {A} (f : A -> string) n l1 : forall base l2,
  named_ids f n base (l1 ++ l2) = named_ids f n base l1 ++ named_ids f n (base + length l1) l2.
Proof.
  induction l1 as [|x l1 IH]; intros base l2; cbn [app named_ids length].
  - rewrite Nat.add_0_r. reflexivity.
  - rewrite IH, <- app_assoc. do 3 f_equal. lia.
Qed.

Lemma named_ids_map {A B} (f : B -> string) (g : A -> B) n l : forall base,
  named_ids f n base (map g l) = named_ids (fun x => f (g x)) n base l.
Proof. induction l as [|x l IH]; intros base; cbn; [reflexivity|]. rewrite IH. reflexivity. Qed.

Lemma named_ids_filter {A} (f : A -> string) n l : forall base,
  named_ids f n base l =
  List.filter (fun i => match l !! (i - base) with Some x => String.eqb (f x) n | None => false end)
    (seq base (length l)).
Proof.
  induction l as [|x l IH]; intros base; [reflexivity|].
  cbn [named_ids length seq List.filter]. rewrite Nat.sub_diag. cbn [lookup list_lookup].
  rewrite IH. replace (List.filter _ (seq (S base) (length l))) with
    (List.filter (fun i => match (x :: l) !! (i - base) with Some y => String.eqb (f y) n | None => false end)
       (seq (S base) (length l))).
  - destruct (String.eqb (f x) n); reflexivity.
  - apply filter_ext_in. intros i Hi. apply in_seq in Hi.
    replace (i - base) with (S (i - S base)) by lia. reflexivity.
Qed.

Lemma chan_ok_no_cutoff prio specs r ch x :
  chan_ok prio specs r ch -> UploadedAfterCutoff x ∉ ch.
Proof.
  intros [(_ & m & ->)|(_ & [->|(_ & ->)])]; rewrite ?list_elem_of_singleton, ?elem_of_nil; congruence.
Qed.

Lemma forall2_lookup_l {A B} (P : A -> B -> Prop) l k i x :
  Forall2 P l k -> l !! i = Some x -> exists y, k !! i = Some y /\ P x y.
Proof.
  intros HF Hx. destruct (Forall2_lookup_l _ _ _ _ _ HF Hx) as (y & Hy & HP). eauto.
Qed.

(** The pool of [from_solver_task] holds the virtual packages, then the
    records of each repodata set after the dedup, then the favored records,
    then the locked records. *)
Theorem from_solver_task_pool xn prio specs repodata favored_records locked_records virtual_packages p
  (H : from_solver_task xn prio specs repodata favored_records locked_records virtual_packages = ROk p) :
  exists ordered,
    Forall2 (fun rs o => dedup xn rs = ROk o) repodata ordered /\
    pool p = map VirtualPackage virtual_packages
             ++ map Record_ (concat ordered ++ favored_records ++ locked_records).
Proof.
  destruct (from_solver_task_shape _ _ _ _ _ _ _ _ H) as (ordered & chans & Hd & _ & Hp & _).
  exists ordered. split; assumption.
Qed.

(** The candidates of each name are all the solvables of that name, in pool
    order: virtual packages, repodata, favored and locked records alike,
    excluded ones included. *)
Theorem from_solver_task_candidates xn prio specs repodata favored_records locked_records virtual_packages p
  (H : from_solver_task xn prio specs repodata favored_records locked_records virtual_packages = ROk p) :
  forall n, candidates_of p n =
    List.filter (fun i => match pool p !! i with Some s => String.eqb (solvable_name s) n | None => false end)
      (seq 0 (length (pool p))).
Proof.
  destruct (from_solver_task_shape _ _ _ _ _ _ _ _ H) as (ordered & chans & _ & _ & Hp & Hc).
  intros n. unfold candidates_of. rewrite Hc. cbn [candidates].
  assert (E : named_ids solvable_name n 0 (pool p) =
              named_ids (fun v => v) n 0 virtual_packages
              ++ named_ids name n (length virtual_packages) (concat ordered)
              ++ named_ids name n (length virtual_packages + length (concat ordered)) favored_records
              ++ named_ids name n (length virtual_packages + length (concat ordered) + length favored_records)
                   locked_records).
  { rewrite Hp, named_ids_app, !named_ids_map, !named_ids_app, !length_map, ?length_app. cbn -[named_ids]. rewrite ?Nat.add_assoc. reflexivity. }
  rewrite <- E, named_ids_filter. apply filter_ext. intros i. rewrite Nat.sub_0_r. reflexivity.
Qed.

Lemma cutoff_reasons_elem xn r y :
  y ∈ cutoff_reasons xn r <-> exists x, y = UploadedAfterCutoff x /\ xn = Some x /\ is_excluded xn r = true.
Proof.
  unfold cutoff_reasons. destruct xn as [x|].
  - destruct (is_excluded (Some x) r) eqn:E.
    + rewrite list_elem_of_singleton. split; [intros ->; eauto|intros (x' & -> & Hx & _); congruence].
    + rewrite elem_of_nil. split; [contradiction|intros (x' & _ & _ & Hx); discriminate].
  - rewrite elem_of_nil. split; [contradiction|intros (x' & _ & Hx & _); discriminate].
Qed.

Lemma excluded_of_cand p n : excluded_of p n = excluded (cand_of p n).
Proof. reflexivity. Qed.

Lemma excluded_at xn prio specs (vps : list string) ordered chans p i r y :
  Forall2 (chan_ok prio specs) (concat ordered) chans ->
  (forall n, excluded_of p n = excl_contrib xn n (length vps) (concat ordered) chans) ->
  concat ordered !! i = Some r ->
  exists ch, chans !! i = Some ch /\ chan_ok prio specs r ch /\
    ((length vps + i, y) ∈ excluded_of p (name r) <-> y ∈ cutoff_reasons xn r ++ ch).
Proof.
  intros HF He Hr. destruct (forall2_lookup_l _ _ _ _ _ HF Hr) as (ch & Hch & Hok).
  exists ch. split_and!; [exact Hch|exact Hok|].
  rewrite He, excl_contrib_elem by (symmetry; eapply Forall2_length; eauto). split.
  - intros (i' & r' & ch' & Hr' & Hc' & _ & Hf & Hs). cbn in Hf.
    assert (i' = i) as -> by lia. rewrite Hr in Hr'. rewrite Hch in Hc'. injection Hr' as <-. injection Hc' as <-. exact Hs.
  - intros Hy. exists i, r, ch. split_and!; auto.
Qed.

Lemma named_ids_lookup {A} (f : A -> string) l : forall base k x,
  l !! k = Some x -> base + k ∈ named_ids f (f x) base l.
Proof.
  induction l as [|y l IH]; intros base k x Hk; [rewrite lookup_nil in Hk; discriminate|].
  cbn [named_ids]. apply elem_of_app. destruct k as [|k]; cbn in Hk.
  - injection Hk as ->. left. rewrite String.eqb_refl. apply list_elem_of_singleton. lia.
  - right. replace (base + S k) with (S base + k) by lia. apply IH, Hk.
Qed.

Lemma dedup_forall2_unique xn : forall repodata o1 o2,
  Forall2 (fun rs o => dedup xn rs = ROk o) repodata o1 ->
  Forall2 (fun rs o => dedup xn rs = ROk o) repodata o2 -> o1 = o2.
Proof.
  intros repodata o1 o2 H1. revert o2. induction H1 as [|rs o os rss Ho _ IH]; intros o2 H2;
    inversion H2 as [|rs' o' os' rss' Ho' Hr']; subst; [reflexivity|].
  rewrite Ho in Ho'. injection Ho' as <-. f_equal. apply IH, Hr'.
Qed.

Lemma not_in_channel_at xn prio specs (vps : list string) ordered chans p i r :
  Forall2 (chan_ok prio specs) (concat ordered) chans ->
  (forall n, excluded_of p n = excl_contrib xn n (length vps) (concat ordered) chans) ->
  concat ordered !! i = Some r ->
  ((exists m, (length vps + i, NotInRequestedChannel m) ∈ excluded_of p (name r)) <->
   in_requested_channel specs r = false).
Proof.
  intros HF He Hr.
  assert (Hx : forall m, (length vps + i, NotInRequestedChannel m) ∈ excluded_of p (name r) <->
                         exists ch, chans !! i = Some ch /\ chan_ok prio specs r ch /\ NotInRequestedChannel m ∈ ch).
  { intros m. destruct (excluded_at xn prio specs vps ordered chans p i r (NotInRequestedChannel m) HF He Hr)
      as (ch & Hch & Hok & ->).
    rewrite elem_of_app, cutoff_reasons_elem. split.
    - intros [(x & Hx & _)|Hin]; [discriminate|eauto].
    - intros (ch' & Hch' & _ & Hin). right. congruence. }
  destruct (forall2_lookup_l _ _ _ _ _ HF Hr) as (ch & Hch & Hok).
  split.
  - intros (m & Hm). apply Hx in Hm as (ch' & Hch' & Hok' & Hin).
    destruct Hok' as [(Hf & _)|(_ & [->|(_ & ->)])]; [exact Hf| |];
      rewrite ?list_elem_of_singleton, ?elem_of_nil in Hin; [contradiction|discriminate].
  - intros Hf. destruct Hok as [(_ & m & ->)|(Ht & _)]; [|congruence].
    exists m. apply Hx. exists [NotInRequestedChannel m]. split_and!; [exact Hch| |].
    + left. eauto.
    + apply list_elem_of_singleton. reflexivity.
Qed.

(** A repodata record is excluded as uploaded after the cutoff [x] exactly
    when [exclude_newer] is [x] and the record's timestamp is later than
    [x]. *)
Theorem from_solver_task_cutoff xn prio specs repodata favored_records locked_records virtual_packages p
  (H : from_solver_task xn prio specs repodata favored_records locked_records virtual_packages = ROk p) :
  exists ordered,
    Forall2 (fun rs o => dedup xn rs = ROk o) repodata ordered /\
    forall i r x, concat ordered !! i = Some r ->
      ((length virtual_packages + i, UploadedAfterCutoff x) ∈ excluded_of p (name r) <->
       xn = Some x /\ is_excluded xn r = true).
Proof.
  destruct (from_solver_task_shape _ _ _ _ _ _ _ _ H) as (ordered & chans & Hd & HF & _ & Hc).
  exists ordered. split; [exact Hd|]. intros i r x Hr.
  assert (He : forall n, excluded_of p n = excl_contrib xn n (length virtual_packages) (concat ordered) chans)
    by (intros n; rewrite excluded_of_cand, Hc; reflexivity).
  destruct (excluded_at xn prio specs virtual_packages ordered chans p i r (UploadedAfterCutoff x) HF He Hr)
    as (ch & _ & Hok & ->).
  rewrite elem_of_app, cutoff_reasons_elem. split.
  - intros [(x' & Hx & Hs & He')|Hin]; [injection Hx as <-; auto|].
    exfalso. exact (chan_ok_no_cutoff _ _ _ _ _ Hok Hin).
  - intros [Hs He']. left. eauto.
Qed.

(** A repodata record is excluded as not in the requested channel exactly
    when it does not pass the channel-specific specs: the first of them that
    names its package asks for another channel. *)
Theorem from_solver_task_not_in_channel xn prio specs repodata favored_records locked_records virtual_packages p
  (H : from_solver_task xn prio specs repodata favored_records locked_records virtual_packages = ROk p) :
  exists ordered,
    Forall2 (fun rs o => dedup xn rs = ROk o) repodata ordered /\
    forall i r, concat ordered !! i = Some r ->
      ((exists m, (length virtual_packages + i, NotInRequestedChannel m) ∈ excluded_of p (name r)) <->
       in_requested_channel specs r = false).
Proof.
  destruct (from_solver_task_shape _ _ _ _ _ _ _ _ H) as (ordered & chans & Hd & HF & _ & Hc).
  exists ordered. split; [exact Hd|]. intros i r Hr.
  assert (He : forall n, excluded_of p n = excl_contrib xn n (length virtual_packages) (concat ordered) chans)
    by (intros n; rewrite excluded_of_cand, Hc; reflexivity).
  exact (not_in_channel_at xn prio specs virtual_packages ordered chans p i r HF He Hr).
Qed.

(** With channel priority [Disabled], no solvable is excluded for strict
    channel priority. *)
Theorem from_solver_task_disabled_no_strict xn specs repodata favored_records locked_records virtual_packages p
  (H : from_solver_task xn Disabled specs repodata favored_records locked_records virtual_packages = ROk p) :
  forall n i c, (i, StrictChannelPriority c) ∉ excluded_of p n.
Proof.
  destruct (from_solver_task_shape _ _ _ _ _ _ _ _ H) as (ordered & chans & _ & HF & _ & Hc).
  intros n i c Hin. rewrite excluded_of_cand, Hc in Hin. cbn [excluded] in Hin.
  apply excl_contrib_elem in Hin as (i' & r & ch & Hr & Hch & _ & _ & Hs);
    [|symmetry; eapply Forall2_length; eauto].
  cbn [snd] in Hs. pose proof (Forall2_lookup_lr _ _ _ _ _ _ HF Hr Hch) as Hok.
  apply elem_of_app in Hs as [Hs|Hs].
  - apply cutoff_reasons_elem in Hs as (x & Hx & _). discriminate.
  - destruct Hok as [(_ & m & ->)|(_ & [->|(Hp & _)])]; [| |discriminate].
    + apply list_elem_of_singleton in Hs. discriminate.
    + apply elem_of_nil in Hs. contradiction.
Qed.

(** [hint_dependencies_available] holds only repodata records, under their
    own name. A repodata record is in it exactly when its only exclusion
    reason, if any, is the cutoff: a record excluded for its upload date
    still gets the hint, one excluded for its channel does not. *)
Theorem from_solver_task_hints xn prio specs repodata favored_records locked_records virtual_packages p
  (H : from_solver_task xn prio specs repodata favored_records locked_records virtual_packages = ROk p) :
  exists ordered,
    Forall2 (fun rs o => dedup xn rs = ROk o) repodata ordered /\
    (forall n j, j ∈ hints_of p n ->
       exists i r, concat ordered !! i = Some r /\ name r = n /\ j = length virtual_packages + i) /\
    (forall i r, concat ordered !! i = Some r ->
       (length virtual_packages + i ∈ hints_of p (name r) <->
        forall y, (length virtual_packages + i, y) ∈ excluded_of p (name r) ->
                  exists x, y = UploadedAfterCutoff x)).
Proof.
  destruct (from_solver_task_shape _ _ _ _ _ _ _ _ H) as (ordered & chans & Hd & HF & _ & Hc).
  assert (Hlen : length chans = length (concat ordered)) by (symmetry; eapply Forall2_length; eauto).
  assert (He : forall n, excluded_of p n = excl_contrib xn n (length virtual_packages) (concat ordered) chans)
    by (intros n; rewrite excluded_of_cand, Hc; reflexivity).
  assert (Hh : forall n j, j ∈ hints_of p n <->
     exists i r, concat ordered !! i = Some r /\ chans !! i = Some [] /\ name r = n /\ j = length virtual_packages + i).
  { intros n j. unfold hints_of. rewrite Hc. cbn [hint_dependencies_available].
    apply hint_contrib_elem, Hlen. }
  exists ordered. split_and!; [exact Hd| |].
  - intros n j Hj. apply Hh in Hj as (i & r & Hr & _ & Hn & Hj). eauto.
  - intros i r Hr.
    destruct (forall2_lookup_l _ _ _ _ _ HF Hr) as (ch & Hch & Hok).
    assert (Hy : forall y, (length virtual_packages + i, y) ∈ excluded_of p (name r) <->
                           y ∈ cutoff_reasons xn r ++ ch).
    { intros y. destruct (excluded_at xn prio specs virtual_packages ordered chans p i r y HF He Hr)
        as (ch' & Hch' & _ & Hiff). rewrite Hiff. rewrite Hch in Hch'. injection Hch' as ->. reflexivity. }
    split.
    + intros Hj y Hin. apply Hh in Hj as (i' & r' & Hr' & Hch' & _ & Hi).
      assert (i' = i) as -> by lia. rewrite Hch in Hch'. injection Hch' as ->.
      apply Hy in Hin. rewrite app_nil_r, cutoff_reasons_elem in Hin. destruct Hin as (x & -> & _). eauto.
    + intros Hall. apply Hh. exists i, r. split_and!; [exact Hr| |reflexivity|reflexivity].
      rewrite Hch. f_equal.
      destruct ch as [|y ch']; [reflexivity|]. exfalso.
      assert (Hin : (length virtual_packages + i, y) ∈ excluded_of p (name r))
        by (apply Hy, elem_of_app; right; apply elem_of_cons; left; reflexivity).
      destruct (Hall y Hin) as [x ->].
      apply (chan_ok_no_cutoff _ _ _ _ x Hok). apply elem_of_cons. left. reflexivity.
Qed.

(** The favored (locked) solvable of a name is the last favored (locked)
    record of that name; a name with no favored (locked) record has none. *)
Theorem from_solver_task_favored_locked xn prio specs repodata favored_records locked_records virtual_packages p
  (H : from_solver_task xn prio specs repodata favored_records locked_records virtual_packages = ROk p) :
  exists ordered,
    Forall2 (fun rs o => dedup xn rs = ROk o) repodata ordered /\
    let base := length virtual_packages + length (concat ordered) in
    forall n,
      favored_of p n = option_map (fun k => base + k) (last_index n favored_records) /\
      locked_of p n = option_map (fun k => base + length favored_records + k) (last_index n locked_records).
Proof.
  destruct (from_solver_task_shape _ _ _ _ _ _ _ _ H) as (ordered & chans & Hd & _ & _ & Hc).
  exists ordered. split; [exact Hd|]. intros base n.
  unfold favored_of, locked_of. rewrite Hc. split; reflexivity.
Qed.

(** C7 (amended). Under strict channel priority, the first channel of a
    name is that of its first record (in the deduplicated order of all
    repodata sets) that passes the channel-specific specs; a record of that
    name that passes them is excluded for strict channel priority exactly when
    its channel differs from the first channel of the records before it; a
    record that a channel-specific spec rejects is excluded as not in the
    requested channel. The favored and locked records follow the repodata
    records in the pool; each is a candidate of its name and is never
    excluded. *)
Theorem strict_priority_excluded xn specs repodata favored_records locked_records virtual_packages p :
  from_solver_task xn Strict specs repodata favored_records locked_records virtual_packages = ROk p ->
  exists ordered,
    Forall2 (fun rs o => dedup xn rs = ROk o) repodata ordered /\
    pool p = map VirtualPackage virtual_packages
             ++ map Record_ (concat ordered ++ favored_records ++ locked_records) /\
    (forall i r, concat ordered !! i = Some r ->
       ((exists m, (length virtual_packages + i, NotInRequestedChannel m) ∈ excluded_of p (name r)) <->
        in_requested_channel specs r = false)) /\
    (forall i r, concat ordered !! i = Some r ->
       ((length virtual_packages + i, StrictChannelPriority (channel r)) ∈ excluded_of p (name r) <->
        in_requested_channel specs r = true /\
        exists c, first_channel specs (take i (concat ordered)) (name r) = Some c /\ c <> channel r)) /\
    (forall k r, (favored_records ++ locked_records) !! k = Some r ->
       length virtual_packages + length (concat ordered) + k ∈ candidates_of p (name r) /\
       forall n y, (length virtual_packages + length (concat ordered) + k, y) ∉ excluded_of p n) /\
    (forall n x, x ∈ excluded_of p n -> fst x < length virtual_packages + length (concat ordered)).
Proof.
  intros H.
  destruct (strict_priority_core _ _ _ _ _ _ _ H) as (os & Hos & Hstrict & Hbound).
  destruct (from_solver_task_shape _ _ _ _ _ _ _ _ H) as (ordered & chans & Hd & HF & Hp & Hc).
  rewrite (dedup_forall2_unique _ _ _ _ Hos Hd) in Hstrict, Hbound.
  assert (He : forall n, excluded_of p n = excl_contrib xn n (length virtual_packages) (concat ordered) chans)
    by (intros n; rewrite excluded_of_cand, Hc; reflexivity).
  exists ordered. split_and!; [exact Hd|exact Hp| |exact Hstrict| |exact Hbound].
  - intros i r Hr. exact (not_in_channel_at xn Strict specs virtual_packages ordered chans p i r HF He Hr).
  - intros k r Hk. split.
    + unfold candidates_of. rewrite Hc. cbn [candidates].
      rewrite <- named_ids_app. apply elem_of_app. right. apply elem_of_app. right.
      apply named_ids_lookup, Hk.
    + intros n y Hin. apply Hbound in Hin. cbn [fst] in Hin. lia.
Qed.

Lemma strict_priority_excluded_witness :
  from_solver_task None Strict [] [[rec_c1]; [rec_c2; rec_m]] [rec_c2] [rec_m] ["__unix"%string]
    = ROk provider_strict /\
  exists ordered,
    Forall2 (fun rs o => dedup None rs = ROk o) [[rec_c1]; [rec_c2; rec_m]] ordered /\
    pool provider_strict = map VirtualPackage ["__unix"%string] ++ map Record_ (concat ordered ++ [rec_c2] ++ [rec_m]) /\
    (forall i r, concat ordered !! i = Some r ->
       ((exists m, (length ["__unix"%string] + i, NotInRequestedChannel m) ∈ excluded_of provider_strict (name r)) <->
        in_requested_channel [] r = false)) /\
    (forall i r, concat ordered !! i = Some r ->
       ((length ["__unix"%string] + i, StrictChannelPriority (channel r)) ∈ excluded_of provider_strict (name r) <->
        in_requested_channel [] r = true /\
        exists c, first_channel [] (take i (concat ordered)) (name r) = Some c /\ c <> channel r)) /\
    (forall k r, ([rec_c2] ++ [rec_m]) !! k = Some r ->
       length ["__unix"%string] + length (concat ordered) + k ∈ candidates_of provider_strict (name r) /\
       forall n y, (length ["__unix"%string] + length (concat ordered) + k, y) ∉ excluded_of provider_strict n) /\
    (forall n x, x ∈ excluded_of provider_strict n -> fst x < length ["__unix"%string] + length (concat ordered)).
Proof.
  assert (H : from_solver_task None Strict [] [[rec_c1]; [rec_c2; rec_m]] [rec_c2] [rec_m] ["__unix"%string]
                = ROk provider_strict) by (vm_compute; reflexivity).
  split; [exact H|].
  exact (strict_priority_excluded None [] [[rec_c1]; [rec_c2; rec_m]] [rec_c2] [rec_m] ["__unix"%string] provider_strict H).
Defined.

Lemma from_solver_task_pool_witness :
  from_solver_task (Some 15%Z) Disabled [spec_c2] mixed_repodata [rec_c2] [rec_m] ["__unix"%string]
    = ROk provider_mixed /\
  exists ordered,
    Forall2 (fun rs o => dedup (Some 15%Z) rs = ROk o) mixed_repodata ordered /\
    pool provider_mixed = map VirtualPackage ["__unix"%string] ++ map Record_ (concat ordered ++ [rec_c2] ++ [rec_m]).
Proof.
  assert (H : from_solver_task (Some 15%Z) Disabled [spec_c2] mixed_repodata [rec_c2] [rec_m] ["__unix"%string]
                = ROk provider_mixed) by (vm_compute; reflexivity).
  exact (conj H (from_solver_task_pool _ _ _ _ _ _ _ _ H)).
Defined.

Lemma from_solver_task_candidates_witness :
  from_solver_task (Some 15%Z) Disabled [spec_c2] mixed_repodata [rec_c2] [rec_m] ["__unix"%string]
    = ROk provider_mixed /\
  forall n, candidates_of provider_mixed n =
    List.filter (fun i => match pool provider_mixed !! i with
                          | Some s => String.eqb (solvable_name s) n | None => false end)
      (seq 0 (length (pool provider_mixed))).
Proof.
  assert (H : from_solver_task (Some 15%Z) Disabled [spec_c2] mixed_repodata [rec_c2] [rec_m] ["__unix"%string]
                = ROk provider_mixed) by (vm_compute; reflexivity).
  exact (conj H (from_solver_task_candidates _ _ _ _ _ _ _ _ H)).
Defined.

Lemma from_solver_task_cutoff_witness :
  from_solver_task (Some 15%Z) Disabled [spec_c2] mixed_repodata [rec_c2] [rec_m] ["__unix"%string]
    = ROk provider_mixed /\
  exists ordered,
    Forall2 (fun rs o => dedup (Some 15%Z) rs = ROk o) mixed_repodata ordered /\
    forall i r x, concat ordered !! i = Some r ->
      ((length ["__unix"%string] + i, UploadedAfterCutoff x) ∈ excluded_of provider_mixed (name r) <->
       Some 15%Z = Some x /\ is_excluded (Some 15%Z) r = true).
Proof.
  assert (H : from_solver_task (Some 15%Z) Disabled [spec_c2] mixed_repodata [rec_c2] [rec_m] ["__unix"%string]
                = ROk provider_mixed) by (vm_compute; reflexivity).
  exact (conj H (from_solver_task_cutoff _ _ _ _ _ _ _ _ H)).
Defined.

Lemma from_solver_task_not_in_channel_witness :
  from_solver_task (Some 15%Z) Disabled [spec_c2] mixed_repodata [rec_c2] [rec_m] ["__unix"%string]
    = ROk provider_mixed /\
  exists ordered,
    Forall2 (fun rs o => dedup (Some 15%Z) rs = ROk o) mixed_repodata ordered /\
    forall i r, concat ordered !! i = Some r ->
      ((exists m, (length ["__unix"%string] + i, NotInRequestedChannel m) ∈ excluded_of provider_mixed (name r)) <->
       in_requested_channel [spec_c2] r = false).
Proof.
  assert (H : from_solver_task (Some 15%Z) Disabled [spec_c2] mixed_repodata [rec_c2] [rec_m] ["__unix"%string]
                = ROk provider_mixed) by (vm_compute; reflexivity).
  exact (conj H (from_solver_task_not_in_channel _ _ _ _ _ _ _ _ H)).
Defined.

Lemma from_solver_task_disabled_no_strict_witness :
  from_solver_task (Some 15%Z) Disabled [spec_c2] mixed_repodata [rec_c2] [rec_m] ["__unix"%string]
    = ROk provider_mixed /\
  forall n i c, (i, StrictChannelPriority c) ∉ excluded_of provider_mixed n.
Proof.
  assert (H : from_solver_task (Some 15%Z) Disabled [spec_c2] mixed_repodata [rec_c2] [rec_m] ["__unix"%string]
                = ROk provider_mixed) by (vm_compute; reflexivity).
  exact (conj H (from_solver_task_disabled_no_strict _ _ _ _ _ _ _ H)).
Defined.

Lemma from_solver_task_hints_witness :
  from_solver_task (Some 15%Z) Disabled [spec_c2] mixed_repodata [rec_c2] [rec_m] ["__unix"%string]
    = ROk provider_mixed /\
  hints_of provider_mixed "n" = [3; 4] /\
  exists ordered,
    Forall2 (fun rs o => dedup (Some 15%Z) rs = ROk o) mixed_repodata ordered /\
    (forall n j, j ∈ hints_of provider_mixed n ->
       exists i r, concat ordered !! i = Some r /\ name r = n /\ j = length ["__unix"%string] + i) /\
    (forall i r, concat ordered !! i = Some r ->
       (length ["__unix"%string] + i ∈ hints_of provider_mixed (name r) <->
        forall y, (length ["__unix"%string] + i, y) ∈ excluded_of provider_mixed (name r) ->
                  exists x, y = UploadedAfterCutoff x)).
Proof.
  assert (H : from_solver_task (Some 15%Z) Disabled [spec_c2] mixed_repodata [rec_c2] [rec_m] ["__unix"%string]
                = ROk provider_mixed) by (vm_compute; reflexivity).
  assert (Hh : hints_of provider_mixed "n" = [3; 4]) by (vm_compute; reflexivity).
  exact (conj H (conj Hh (from_solver_task_hints _ _ _ _ _ _ _ _ H))).
Defined.

Lemma from_solver_task_favored_locked_witness :
  from_solver_task (Some 15%Z) Disabled [spec_c2] mixed_repodata [rec_c2] [rec_m] ["__unix"%string]
    = ROk provider_mixed /\
  exists ordered,
    Forall2 (fun rs o => dedup (Some 15%Z) rs = ROk o) mixed_repodata ordered /\
    let base := length ["__unix"%string] + length (concat ordered) in
    forall n,
      favored_of provider_mixed n = option_map (fun k => base + k) (last_index n [rec_c2]) /\
      locked_of provider_mixed n = option_map (fun k => base + length [rec_c2] + k) (last_index n [rec_m]).
Proof.
  assert (H : from_solver_task (Some 15%Z) Disabled [spec_c2] mixed_repodata [rec_c2] [rec_m] ["__unix"%string]
                = ROk provider_mixed) by (vm_compute; reflexivity).
  exact (conj H (from_solver_task_favored_locked _ _ _ _ _ _ _ _ H)).
Defined.

End ResolvoFacts.
